(** * src/core/util.ts: the merge engine (deepAssign, deepMixin, mixin) and uuid

    A shallow embedding of [shouldDeepCopyObject], [copyArray], [_mixin],
    the three public entry points and [uuid].

    The engine works on JavaScript objects by reference: it compares
    values with [===] ([indexOf]), mutates the target in place and may
    walk cyclic object graphs.  The embedding therefore makes the object
    store explicit: a heap of cells addressed by locations, threaded
    through every operation, with the [copied] array of one call tree
    threaded next to it.  The two recursive functions take a fuel
    argument that bounds the depth of the JavaScript call stack.

    Modelling assumptions (all about the host language, none about the
    engine): properties are plain enumerable writable data properties
    (no getters, setters, symbols or frozen objects); numbers are
    integers; own keys are enumerated in insertion order (true of
    JavaScript whenever the keys are not integer-like); the built-in
    [length] of arrays and strings is not a property of the model; the
    keys a [for-in] loop visits are fixed when the loop starts; the
    module is strict-mode code (it is an ES module), so writing a
    property on a primitive raises a TypeError.

    The built-in properties that every object inherits (those of
    [Object.prototype], the accessor [__proto__] among them) and the
    [length] of an array are not cells or properties of the heap:
    [get_prop] and [set_prop] treat their names as ordinary keys.  The
    properties that depend on a read or a write of such a name say so
    in their hypotheses; the write of [__proto__] itself is followed in
    the section on the accessor, with [Object.prototype] as a cell. *)

From Stdlib Require Import ZArith Lia Ascii String.
From Stdlib Require Import QArith Qround.
From Stdlib Require Import DecimalString HexadecimalString.
From stdpp Require Import base decidable option list strings.

Local Open Scope list_scope.

(** ** Values and the object store *)

(** Locations are indices into the heap. *)
Abbreviation loc := nat (only parsing).

Inductive value :=
| VUndefined
| VNull
| VBool (b : bool)
| VNum (n : Z)
| VStr (s : string)
| VRef (l : loc).

#[global] Instance value_eq_dec : EqDecision value.
Proof. solve_decision. Defined.

(** What [Object.prototype.toString.call] and [Array.isArray] can tell
    apart: plain objects (tag [[object Object]]), arrays, and every other
    kind of object (functions, dates, regular expressions, ...). *)
Inductive kind := KObject | KArray | KOther.

#[global] Instance kind_eq_dec : EqDecision kind.
Proof. solve_decision. Defined.

(** An object: its kind, its prototype link and its own enumerable
    properties in enumeration order.  The elements of an array are its
    properties named ["0"], ["1"], ... *)
Record cell := Cell {
  ckind : kind;
  cproto : option loc;
  cprops : list (string * value)
}.

#[global] Instance cell_eq_dec : EqDecision cell.
Proof. solve_decision. Defined.

Abbreviation heap := (list cell) (only parsing).

(** Outcomes other than a normal return. *)
Inductive error :=
| OutOfFuel   (* the recursion went deeper than the fuel given *)
| TypeError.  (* the host raised a TypeError *)

Inductive result (A : Type) :=
| Ok (a : A)
| Err (e : error).
Arguments Ok {A} a.
Arguments Err {A} e.

Definition bind {A B} (m : result A) (f : A -> result B) : result B :=
  match m with
  | Ok a => f a
  | Err e => Err e
  end.

Notation "'let*' p ':=' m 'in' k" := (bind m (fun p => k))
  (at level 10, p pattern, m at level 100, k at level 200).

(** A left-to-right loop whose body may fail. *)
Fixpoint foldM {A S} (f : A -> S -> result S) (l : list A) (s : S) : result S :=
  match l with
  | [] => Ok s
  | a :: r => let* s' := f a s in foldM f r s'
  end.

(** ** Properties *)

Fixpoint assoc (k : string) (ps : list (string * value)) : option value :=
  match ps with
  | [] => None
  | (k', v) :: r => if decide (k = k') then Some v else assoc k r
  end.

(** [o[k] = v] on the own properties: an existing key keeps its
    position, a new key goes last. *)
Fixpoint assoc_set (k : string) (v : value) (ps : list (string * value))
  : list (string * value) :=
  match ps with
  | [] => [(k, v)]
  | (k', v') :: r =>
      if decide (k = k') then (k, v) :: r else (k', v') :: assoc_set k v r
  end.

Definition own_keys (c : cell) : list string := map fst (cprops c).

(** The objects on the prototype chain of [l], [l] first.  Prototype
    chains are acyclic in JavaScript, so a chain is never longer than the
    heap; the bound [n] makes the walk structural. *)
Fixpoint proto_chain (n : nat) (h : heap) (l : loc) : list cell :=
  match n with
  | O => []
  | S n' =>
      match h !! l with
      | None => []
      | Some c =>
          c :: match cproto c with
               | Some p => proto_chain n' h p
               | None => []
               end
      end
  end.

Definition chain (h : heap) (l : loc) : list cell :=
  proto_chain (length h) h l.

(** First hit along the chain. *)
Fixpoint chain_get (k : string) (cs : list cell) : option value :=
  match cs with
  | [] => None
  | c :: r =>
      match assoc k (cprops c) with
      | Some v => Some v
      | None => chain_get k r
      end
  end.

(** Keeps the first occurrence of every key. *)
Fixpoint first_occurrences (seen ks : list string) : list string :=
  match ks with
  | [] => []
  | k :: r =>
      if decide (k ∈ seen) then first_occurrences seen r
      else k :: first_occurrences (k :: seen) r
  end.

Definition index_key (i : nat) : string :=
  DecimalString.NilEmpty.string_of_uint (Nat.to_uint i).

Definition char_at (s : string) (i : nat) : option value :=
  match String.get i s with
  | Some c => Some (VStr (String c EmptyString))
  | None => None
  end.

(** The index of [k] among the first [n] indices, if it names one. *)
Fixpoint index_of_key (k : string) (n : nat) : option nat :=
  match n with
  | O => None
  | S n' =>
      if decide (k = index_key n') then Some n' else index_of_key k n'
  end.

(** [for (key in v)]: every enumerable key reachable through the
    prototype chain, own keys first, a shadowed key once.  A string
    enumerates its indices; the other primitives enumerate nothing. *)
Definition forin_keys (h : heap) (v : value) : list string :=
  match v with
  | VRef l => first_occurrences [] (concat (map own_keys (chain h l)))
  | VStr s => map index_key (seq 0 (String.length s))
  | _ => []
  end.

(** [hasOwnProperty.call(v, k)] *)
Definition hasOwnProperty (h : heap) (v : value) (k : string) : bool :=
  match v with
  | VRef l =>
      match h !! l with
      | Some c => bool_decide (is_Some (assoc k (cprops c)))
      | None => false
      end
  | VStr s => bool_decide (is_Some (index_of_key k (String.length s)))
  | _ => false
  end.

(** [v[k]]: reading a property of [null] or [undefined] raises; a
    missing property reads [undefined]. *)
Definition get_prop (h : heap) (v : value) (k : string) : result value :=
  match v with
  | VUndefined | VNull => Err TypeError
  | VRef l => Ok (default VUndefined (chain_get k (chain h l)))
  | VStr s =>
      Ok (default VUndefined
            (i ← index_of_key k (String.length s); char_at s i))
  | VBool _ | VNum _ => Ok VUndefined
  end.

(** [v[k] = x]: creates or overwrites an own property of an object;
    raises on a primitive. *)
Definition set_prop (h : heap) (v : value) (k : string) (x : value) : result heap :=
  match v with
  | VRef l =>
      match h !! l with
      | Some c =>
          Ok (<[l := Cell (ckind c) (cproto c) (assoc_set k x (cprops c))]> h)
      | None => Err TypeError
      end
  | _ => Err TypeError
  end.

(** [{}] and a fresh array: allocation returns the new reference. *)
Definition alloc (h : heap) (c : cell) : loc * heap := (length h, h ++ [c]).

Definition empty_object : cell := Cell KObject None [].

(** ** Classification *)

Definition isArray (h : heap) (v : value) : bool :=
  match v with
  | VRef l =>
      match h !! l with
      | Some c => bool_decide (ckind c = KArray)
      | None => false
      end
  | _ => false
  end.

(** [Object.prototype.toString.call(value) === '[object Object]'] *)
Definition shouldDeepCopyObject (h : heap) (v : value) : bool :=
  match v with
  | VRef l =>
      match h !! l with
      | Some c => bool_decide (ckind c = KObject)
      | None => false
      end
  | _ => false
  end.

(** Truthiness, for [target[key] || {}]. *)
Definition truthy (v : value) : bool :=
  match v with
  | VUndefined | VNull => false
  | VBool b => b
  | VNum n => negb (n =? 0)%Z
  | VStr s => negb (bool_decide (s = EmptyString))
  | VRef _ => true
  end.

(** [a.indexOf(v)]: the first position of [v] under [===], or [-1]. *)
Fixpoint indexOf_from (i : Z) (a : list value) (v : value) : Z :=
  match a with
  | [] => -1
  | x :: r => if decide (x = v) then i else indexOf_from (i + 1) r v
  end%Z.

Definition indexOf (a : list value) (v : value) : Z := indexOf_from 0 a v.

(** An array index as a property name: ["0"], or digits without a
    leading zero, writing a number up to [2^32 - 2]. *)
Definition is_digit (c : ascii) : bool :=
  let n := nat_of_ascii c in (48 <=? n) && (n <=? 57).

Fixpoint all_digits (s : string) : bool :=
  match s with
  | EmptyString => true
  | String c r => is_digit c && all_digits r
  end.

Definition canonical_digits (k : string) : bool :=
  match k with
  | EmptyString => false
  | String c EmptyString => is_digit c
  | String c r => is_digit c && negb (bool_decide (c = "0"%char)) && all_digits r
  end.

(** The number a string of digits writes. *)
Fixpoint digits_value (acc : N) (s : string) : N :=
  match s with
  | EmptyString => acc
  | String c r => digits_value (acc * 10 + N.of_nat (nat_of_ascii c - 48)) r
  end.

Definition is_index_key (k : string) : bool :=
  canonical_digits k && (digits_value 0 k <? 4294967295)%N.

(** The elements [Array.prototype.map] visits. *)
Definition array_elements (h : heap) (v : value) : list (string * value) :=
  match v with
  | VRef l =>
      match h !! l with
      | Some c => filter (fun p => is_index_key (fst p) = true) (cprops c)
      | None => []
      end
  | _ => []
  end.

(** ** The engine *)

Record MixinArgs := {
  deep : bool;
  inherited : bool;
  sources : list value;
  target : value;
  copied : option (list value)
}.

(** The state one call tree works on: the heap and the [copied] array it
    shares by reference. *)
Abbreviation state := (list cell * list value)%type (only parsing).

(** [array.map(f)] for a callback that may allocate. *)
Fixpoint map_items (f : value -> heap -> result (value * heap))
    (items : list (string * value)) (h : heap)
  : result (list (string * value) * heap) :=
  match items with
  | [] => Ok ([], h)
  | (k, item) :: r =>
      let* (item', h1) := f item h in
      let* (r', h2) := map_items f r h1 in
      Ok ((k, item') :: r', h2)
  end.

Section Bodies.

(** The recursive calls, one frame further down the call stack. *)
Variable rec_mixin : MixinArgs -> heap -> result (value * heap * list value).
Variable rec_copyArray : value -> bool -> heap -> result (value * heap).

(** The callback of [copyArray] (lines 19-32). *)
Definition copyArray_item (inh : bool) (item : value) (h : heap)
  : result (value * heap) :=
  if isArray h item then rec_copyArray item inh h
  else if negb (shouldDeepCopyObject h item) then Ok (item, h)
  else
    let '(t, h1) := alloc h empty_object in
    let* (r, h2, _) :=
      rec_mixin {| deep := true; inherited := inh; sources := [item];
                   target := VRef t; copied := None |} h1 in
    Ok (r, h2).

Definition copyArray_body (array : value) (inh : bool) (h : heap)
  : result (value * heap) :=
  let* (items, h1) := map_items (copyArray_item inh) (array_elements h array) h in
  let '(a, h2) := alloc h1 (Cell KArray None items) in
  Ok (VRef a, h2).

(** [target[key] || {}] (line 68) *)
Definition nested_target (h : heap) (tv : value) : value * heap :=
  if truthy tv then (tv, h)
  else let '(l, h1) := alloc h empty_object in (VRef l, h1).

(** The body of the [for (key in source)] loop (lines 57-80). *)
Definition mixin_key (kw : MixinArgs) (copiedClone : list value)
    (source : value) (key : string) (st : state) : result state :=
  let '(h, cp) := st in
  if inherited kw || hasOwnProperty h source key then
    let* v := get_prop h source key in
    if negb (indexOf copiedClone v =? -1)%Z then Ok (h, cp)
    else
      let* (v', h', cp') :=
        if deep kw then
          if isArray h v then
            let* (a, h1) := rec_copyArray v (inherited kw) h in
            Ok (a, h1, cp)
          else if shouldDeepCopyObject h v then
            let* tv := get_prop h (target kw) key in
            let '(targetValue, h1) := nested_target h tv in
            let cp1 := cp ++ [source] in
            rec_mixin {| deep := true; inherited := inherited kw;
                         sources := [v]; target := targetValue;
                         copied := Some cp1 |} h1
          else Ok (v, h, cp)
        else Ok (v, h, cp) in
      let* h'' := set_prop h' (target kw) key v' in
      Ok (h'', cp')
  else Ok (h, cp).

(** One round of the loop over the sources (lines 51-81). *)
Definition mixin_source (kw : MixinArgs) (copiedClone : list value)
    (source : value) (st : state) : result state :=
  match source with
  | VNull | VUndefined => Ok st
  | _ => foldM (mixin_key kw copiedClone source) (forin_keys (fst st) source) st
  end.

(** Lines 44-84. *)
Definition mixin_body (kw : MixinArgs) (h : heap)
  : result (value * heap * list value) :=
  let cp := default [] (copied kw) in
  let copiedClone := cp in
  let* (h', cp') := foldM (mixin_source kw copiedClone) (sources kw) (h, cp) in
  Ok (target kw, h', cp').

End Bodies.

Fixpoint _mixin (fuel : nat) (kw : MixinArgs) (h : heap) {struct fuel}
  : result (value * heap * list value) :=
  match fuel with
  | O => Err OutOfFuel
  | S n => mixin_body (_mixin n) (copyArray n) kw h
  end
with copyArray (fuel : nat) (array : value) (inh : bool) (h : heap) {struct fuel}
  : result (value * heap) :=
  match fuel with
  | O => Err OutOfFuel
  | S n => copyArray_body (_mixin n) (copyArray n) array inh h
  end.

(** ** The public entry points *)

Definition entry (fuel : nat) (d i : bool) (t : value) (srcs : list value)
    (h : heap) : result (value * heap) :=
  let* (r, h', _) :=
    _mixin fuel {| deep := d; inherited := i; sources := srcs;
                   target := t; copied := None |} h in
  Ok (r, h').

Definition deepAssign (fuel : nat) (t : value) (srcs : list value) (h : heap) :=
  entry fuel true false t srcs h.

Definition deepMixin (fuel : nat) (t : value) (srcs : list value) (h : heap) :=
  entry fuel true true t srcs h.

Definition mixin (fuel : nat) (t : value) (srcs : list value) (h : heap) :=
  entry fuel false true t srcs h.

(** ** uuid *)

(** [ToInt32] on an integer: wrap into the signed 32-bit range. *)
Definition to_int32 (z : Z) : Z :=
  ((z + 2 ^ 31) mod 2 ^ 32 - 2 ^ 31)%Z.

(** Truncation toward zero, the first step of [ToInt32] on a number. *)
Definition Qtrunc (q : Q) : Z :=
  if Qle_bool 0 q then Qfloor q else Qceiling q.

(** [(x * 16) | 0] for a draw [x] of [Math.random()].  A draw is a
    double; scaling by 16 is exact on doubles, so the rational product
    is the value the code computes. *)
Definition nibble (x : Q) : Z :=
  Z.lor (to_int32 (Qtrunc (x * 16))) 0.

(** [v.toString(16)] on an integer. *)
Definition toString16 (v : Z) : string :=
  HexadecimalString.NilZero.string_of_int (Z.to_hex_int v).

(** The callback of [replace] (lines 249-253), given its draw. *)
Definition replacer (x : Q) (c : ascii) : string :=
  let r := nibble x in
  let v := if decide (c = "x"%char) then r else Z.lor (Z.land r 3) 8 in
  toString16 v.

(** [s.replace(/[xy]/g, f)]: matches are replaced left to right, each
    call of the callback taking the next draw of [rand]; [n] counts the
    draws taken so far. *)
Fixpoint replace_xy (rand : nat -> Q) (n : nat) (s : string) : string :=
  match s with
  | EmptyString => EmptyString
  | String c r =>
      if bool_decide (c = "x"%char \/ c = "y"%char)
      then (replacer (rand n) c ++ replace_xy rand (S n) r)%string
      else String c (replace_xy rand n r)
  end.

Definition template : string := "xxxxxxxx-xxxx-4xxx-yxxx-xxxxxxxxxxxx".

Definition uuid (rand : nat -> Q) : string := replace_xy rand 0 template.

(** The format of an identifier, position by position. *)
Inductive char_class :=
| Hex               (* one of 0-9, a-f *)
| Variant           (* one of 8, 9, a, b *)
| Lit (c : ascii).  (* exactly this character *)

Definition in_class (cl : char_class) (c : ascii) : bool :=
  match cl with
  | Hex => bool_decide (c ∈ list_ascii_of_string "0123456789abcdef")
  | Variant => bool_decide (c ∈ list_ascii_of_string "89ab")
  | Lit d => bool_decide (c = d)
  end.

Fixpoint matches (p : list char_class) (s : string) : bool :=
  match p, s with
  | [], EmptyString => true
  | cl :: p', String c s' => in_class cl c && matches p' s'
  | _, _ => false
  end.

(** The format the code produces: 8-4-4-4-12, the third group led by
    [4], the fourth by the variant nibble. *)
Definition uuid_format : list char_class :=
  repeat Hex 8 ++ [Lit "-"] ++ repeat Hex 4 ++ [Lit "-"] ++
  [Lit "4"] ++ repeat Hex 3 ++ [Lit "-"] ++
  [Variant] ++ repeat Hex 3 ++ [Lit "-"] ++ repeat Hex 12.

(** The format as the specification words it: the variant nibble is
    followed by two hex digits only. *)
Definition uuid_format_spec : list char_class :=
  repeat Hex 8 ++ [Lit "-"] ++ repeat Hex 4 ++ [Lit "-"] ++
  [Lit "4"] ++ repeat Hex 3 ++ [Lit "-"] ++
  [Variant] ++ repeat Hex 2 ++ [Lit "-"] ++ repeat Hex 12.

(** What a character of the template turns into. *)
Definition template_class (c : ascii) : char_class :=
  if decide (c = "x"%char) then Hex
  else if decide (c = "y"%char) then Variant
  else Lit c.

(** ** partial *)

(** A JavaScript function, as far as [partial] goes: a result computed
    from the receiver [this] and the list of arguments.  [partial]
    returns the function of lines 241-245. *)
Definition partial {T A R : Type} (targetFunction : T -> list A -> R)
    (suppliedArgs : list A) : T -> list A -> R :=
  fun this arguments =>
    let args :=
      if negb (length arguments =? 0)
      then suppliedArgs ++ arguments   (* suppliedArgs.concat(slice.call(arguments)) *)
      else suppliedArgs in
    targetFunction this args.

(** [source === null || source === undefined] (line 53) *)
Definition is_absent (v : value) : bool :=
  match v with
  | VNull | VUndefined => true
  | _ => false
  end.

(** ** Predicates used in the proofs *)

(** An outcome that more fuel cannot change. *)
Definition settled {A} (r : result A) : Prop := r <> Err OutOfFuel.

(** The own property [k] of the object [t] refers to, if any. *)
Definition own_prop (h : heap) (t : value) (k : string) : option value :=
  match t with
  | VRef l => c ← h !! l; assoc k (cprops c)
  | _ => None
  end.

(** Nothing for the engine to recurse into when it merges [s]: the merge
    is shallow, or [s] holds neither arrays nor plain objects. *)
Definition flat (kw : MixinArgs) (s : value) (h : heap) : Prop :=
  deep kw = false \/
  forall k v, get_prop h s k = Ok v ->
    isArray h v = false /\ shouldDeepCopyObject h v = false.

(** [target[k]] holds what [s[k]] reads. *)
Definition copied_key (kw : MixinArgs) (s : value) (k : string) (h : heap) : Prop :=
  exists v, get_prop h s k = Ok v /\ own_prop h (target kw) k = Some v.

(** What a pass over the keys [ks] of [s] preserves, from the state
    [(h0, cp0)] it starts in. *)
Definition pass_invariant (kw : MixinArgs) (s : value) (h0 : heap)
    (cp0 : list value) (ks : list string) (st : state) : Prop :=
  snd st = cp0 /\
  flat kw s (fst st) /\
  (forall k, get_prop (fst st) s k = get_prop h0 s k) /\
  (forall k, k ∈ forin_keys (fst st) s -> k ∈ forin_keys h0 s \/ k ∈ ks) /\
  (forall k, copied_key kw s k h0 -> copied_key kw s k (fst st)) /\
  (forall k, hasOwnProperty h0 s k = true -> hasOwnProperty (fst st) s k = true) /\
  (forall l, is_Some (h0 !! l) -> is_Some (fst st !! l)).

(** The [copied] array is shared along a call tree and is only ever
    appended to; and the engine returns the target it was given. *)
Definition returns_target_and_grows
    (rm : MixinArgs -> list cell -> result (value * list cell * list value)) : Prop :=
  forall kw h r h' cp',
    rm kw h = Ok (r, h', cp') ->
    r = target kw /\ exists ext, cp' = default [] (copied kw) ++ ext.

(** Neither recursive function ever removes a cell. *)
Definition mixin_keeps_cells
    (rm : MixinArgs -> heap -> result (value * heap * list value)) : Prop :=
  forall kw h r h' cp', rm kw h = Ok (r, h', cp') -> length h <= length h'.

Definition copyArray_keeps_cells
    (rc : value -> bool -> heap -> result (value * heap)) : Prop :=
  forall a i h r h', rc a i h = Ok (r, h') -> length h <= length h'.

(** ** Example heaps

    Each heap lists its objects by location, starting at 0. *)

Section Examples.

Local Open Scope string_scope.

(** [source = Object.create({b: 2}); source.a = 1]
    0: the target [{}], 1: [source], 2: its prototype. *)
Definition h_proto : heap :=
  [ Cell KObject None [];
    Cell KObject (Some 2) [("a", VNum 1)];
    Cell KObject None [("b", VNum 2)] ].

(** [source = {x: {y: 1}}]
    0: the target [{}], 1: [source], 2: [source.x]. *)
Definition h_nested : heap :=
  [ Cell KObject None [];
    Cell KObject None [("x", VRef 2)];
    Cell KObject None [("y", VNum 1)] ].

(** [source = {arr: [{v: 1}, [2, 3]]}]
    0: the target [{}], 1: [source], 2: [source.arr],
    3: [source.arr[0]], 4: [source.arr[1]]. *)
Definition h_sequence : heap :=
  [ Cell KObject None [];
    Cell KObject None [("arr", VRef 2)];
    Cell KArray None [("0", VRef 3); ("1", VRef 4)];
    Cell KObject None [("v", VNum 1)];
    Cell KArray None [("0", VNum 2); ("1", VNum 3)] ].

(** [a = {}; a.self = a]
    0: the target [{}], 1: [a]. *)
Definition h_self : heap :=
  [ Cell KObject None [];
    Cell KObject None [("self", VRef 1)] ].

(** [arr = []; arr.push(arr); source = {arr: arr}]
    0: the target [{}], 1: [source], 2: [arr]. *)
Definition h_cyclic_array : heap :=
  [ Cell KObject None [];
    Cell KObject None [("arr", VRef 2)];
    Cell KArray None [("0", VRef 2)] ].

(** [s = {y: 1}; source = {p: s, q: s}]
    0: the target [{}], 1: [source], 2: [s]. *)
Definition h_shared : heap :=
  [ Cell KObject None [];
    Cell KObject None [("p", VRef 2); ("q", VRef 2)];
    Cell KObject None [("y", VNum 1)] ].

(** [target = {x: [7]}; source = {x: {y: 1}}]
    0: [target], 1: [target.x], 2: [source], 3: [source.x]. *)
Definition h_existing_array : heap :=
  [ Cell KObject None [("x", VRef 1)];
    Cell KArray None [("0", VNum 7)];
    Cell KObject None [("x", VRef 3)];
    Cell KObject None [("y", VNum 1)] ].

(** [target = {x: 5}; source = {x: {y: 1}}]
    0: [target], 1: [source], 2: [source.x]. *)
Definition h_existing_number : heap :=
  [ Cell KObject None [("x", VNum 5)];
    Cell KObject None [("x", VRef 2)];
    Cell KObject None [("y", VNum 1)] ].

(** [f = function () {}; a = {k: f}; b = {k: {y: 1}}]
    0: the target [{}], 1: [a], 2: [f], 3: [b], 4: [b.k]. *)
Definition h_opaque : heap :=
  [ Cell KObject None [];
    Cell KObject None [("k", VRef 2)];
    Cell KOther None [];
    Cell KObject None [("k", VRef 4)];
    Cell KObject None [("y", VNum 1)] ].

(** [a = {k: {p: 1}}; b = {k: {q: 2}}]
    0: the target [{}], 1: [a], 2: [a.k], 3: [b], 4: [b.k]. *)
Definition h_collide : heap :=
  [ Cell KObject None [];
    Cell KObject None [("k", VRef 2)];
    Cell KObject None [("p", VNum 1)];
    Cell KObject None [("k", VRef 4)];
    Cell KObject None [("q", VNum 2)] ].

(** [h_proto] after [deepAssign({}, source)]: the own key only. *)
Definition h_proto_assigned : heap :=
  [ Cell KObject None [("a", VNum 1)];
    Cell KObject (Some 2) [("a", VNum 1)];
    Cell KObject None [("b", VNum 2)] ].

(** [h_proto] after [deepMixin({}, source)] or [mixin({}, source)]:
    the own key, then the inherited one. *)
Definition h_proto_mixed : heap :=
  [ Cell KObject None [("a", VNum 1); ("b", VNum 2)];
    Cell KObject (Some 2) [("a", VNum 1)];
    Cell KObject None [("b", VNum 2)] ].

(** [h_nested] after [mixin({}, source)]. *)
Definition h_nested_shallow : heap :=
  [ Cell KObject None [("x", VRef 2)];
    Cell KObject None [("x", VRef 2)];
    Cell KObject None [("y", VNum 1)] ].

(** [h_nested] after [deepAssign({}, source)]; 3 is new. *)
Definition h_nested_deep : heap :=
  [ Cell KObject None [("x", VRef 3)];
    Cell KObject None [("x", VRef 2)];
    Cell KObject None [("y", VNum 1)];
    Cell KObject None [("y", VNum 1)] ].

(** [h_sequence] after a deep merge; 5, 6 and 7 are new. *)
Definition h_sequence_deep : heap :=
  [ Cell KObject None [("arr", VRef 7)];
    Cell KObject None [("arr", VRef 2)];
    Cell KArray None [("0", VRef 3); ("1", VRef 4)];
    Cell KObject None [("v", VNum 1)];
    Cell KArray None [("0", VNum 2); ("1", VNum 3)];
    Cell KObject None [("v", VNum 1)];
    Cell KArray None [("0", VNum 2); ("1", VNum 3)];
    Cell KArray None [("0", VRef 5); ("1", VRef 6)] ].

(** [h_self] after [deepAssign({}, a)]; 2 is new. *)
Definition h_self_deep : heap :=
  [ Cell KObject None [("self", VRef 2)];
    Cell KObject None [("self", VRef 1)];
    Cell KObject None [] ].

(** [h_existing_array] after [deepAssign(target, source)]: the array
    at 1 is still [target.x] and has gained [y]. *)
Definition h_existing_array_deep : heap :=
  [ Cell KObject None [("x", VRef 1)];
    Cell KArray None [("0", VNum 7); ("y", VNum 1)];
    Cell KObject None [("x", VRef 3)];
    Cell KObject None [("y", VNum 1)] ].

(** [h_opaque] after [deepAssign({}, f, a, b)] or
    [deepAssign({}, a, b)]: the function at 2 has gained [y]. *)
Definition h_opaque_deep : heap :=
  [ Cell KObject None [("k", VRef 2)];
    Cell KObject None [("k", VRef 2)];
    Cell KOther None [("y", VNum 1)];
    Cell KObject None [("k", VRef 4)];
    Cell KObject None [("y", VNum 1)] ].

(** [h_collide] after [deepAssign({}, a, b)]; 5 is new and holds the
    keys of both [a.k] and [b.k]. *)
Definition h_collide_deep : heap :=
  [ Cell KObject None [("k", VRef 5)];
    Cell KObject None [("k", VRef 2)];
    Cell KObject None [("p", VNum 1)];
    Cell KObject None [("k", VRef 4)];
    Cell KObject None [("q", VNum 2)];
    Cell KObject None [("p", VNum 1); ("q", VNum 2)] ].

End Examples.

(** The number of matches of [/[xy]/g] in a string: the number of times
    [replace] calls its callback. *)
Fixpoint count_xy (s : string) : nat :=
  match s with
  | EmptyString => 0
  | String c r =>
      (if bool_decide (c = "x"%char \/ c = "y"%char) then 1 else 0) + count_xy r
  end.

(** ** Further predicates *)

(** A cell after some writes: same kind, same prototype, no key lost. *)
Definition cell_kept (c c' : cell) : Prop :=
  ckind c' = ckind c /\ cproto c' = cproto c /\
  forall k, k ∈ own_keys c -> k ∈ own_keys c'.

(** A heap after some writes and allocations: every cell is still
    there, kept in the sense above. *)
Definition heap_kept (h h' : heap) : Prop :=
  forall l c, h !! l = Some c -> exists c', h' !! l = Some c' /\ cell_kept c c'.

Definition mixin_keeps
    (rm : MixinArgs -> heap -> result (value * heap * list value)) : Prop :=
  forall kw h r h' cp', rm kw h = Ok (r, h', cp') -> heap_kept h h'.

Definition copyArray_keeps
    (rc : value -> bool -> heap -> result (value * heap)) : Prop :=
  forall a i h r h', rc a i h = Ok (r, h') -> heap_kept h h'.

(** A value that refers to no cell at or beyond [n]. *)
Definition value_below (n : nat) (v : value) : Prop :=
  match v with
  | VRef l => l < n
  | _ => True
  end.

(** The cells below [n] refer, by their properties and prototype links,
    to cells below [n] only.  With [n] the size of the heap: no dangling
    reference. *)
Definition closed_below (n : nat) (h : heap) : Prop :=
  forall l c, l < n -> h !! l = Some c ->
    (forall k x, (k, x) ∈ cprops c -> value_below n x) /\
    (forall p, cproto c = Some p -> p < n).

(** A deep merge of one object of the cells below [n0] into a new empty
    object, the last cell, leaves the cells before it alone. *)
Definition pure_mixin (n0 : nat)
    (rm : MixinArgs -> heap -> result (value * heap * list value)) : Prop :=
  forall inh lv cpo hpre r h' cp',
    n0 <= length hpre -> closed_below n0 hpre -> lv < n0 ->
    rm {| deep := true; inherited := inh; sources := [VRef lv];
          target := VRef (length hpre); copied := cpo |}
       (hpre ++ [empty_object]) = Ok (r, h', cp') ->
    exists ext, h' = hpre ++ ext.

Definition pure_copyArray (n0 : nat)
    (rc : value -> bool -> heap -> result (value * heap)) : Prop :=
  forall a inh h r h',
    n0 <= length h -> closed_below n0 h -> value_below n0 a ->
    rc a inh h = Ok (r, h') ->
    exists ext, h' = h ++ ext.

(** ** Further examples *)

Section MoreExamples.

Local Open Scope string_scope.

(** [a = {k: {z: 1}}; b = {m: {back: a}}]
    0: the target [{}], 1: [a], 2: [a.k], 3: [b], 4: [b.m]. *)
Definition h_unrelated : heap :=
  [ Cell KObject None [];
    Cell KObject None [("k", VRef 2)];
    Cell KObject None [("z", VNum 1)];
    Cell KObject None [("m", VRef 4)];
    Cell KObject None [("back", VRef 1)] ].

(** [h_unrelated] after [deepAssign({}, a, b)]: [m] (location 6) is
    empty, the key [back] was skipped. *)
Definition h_unrelated_together : heap :=
  [ Cell KObject None [("k", VRef 5); ("m", VRef 6)];
    Cell KObject None [("k", VRef 2)];
    Cell KObject None [("z", VNum 1)];
    Cell KObject None [("m", VRef 4)];
    Cell KObject None [("back", VRef 1)];
    Cell KObject None [("z", VNum 1)];
    Cell KObject None [] ].

(** [h_unrelated] after [deepAssign(deepAssign({}, a), b)]: [m.back]
    is a copy of [a] (locations 7 and 8). *)
Definition h_unrelated_in_turn : heap :=
  [ Cell KObject None [("k", VRef 5); ("m", VRef 6)];
    Cell KObject None [("k", VRef 2)];
    Cell KObject None [("z", VNum 1)];
    Cell KObject None [("m", VRef 4)];
    Cell KObject None [("back", VRef 1)];
    Cell KObject None [("z", VNum 1)];
    Cell KObject None [("back", VRef 7)];
    Cell KObject None [("k", VRef 8)];
    Cell KObject None [("z", VNum 1)] ].

(** [h_unrelated] after [deepAssign({}, a)]. *)
Definition h_unrelated_first : heap :=
  [ Cell KObject None [("k", VRef 5)];
    Cell KObject None [("k", VRef 2)];
    Cell KObject None [("z", VNum 1)];
    Cell KObject None [("m", VRef 4)];
    Cell KObject None [("back", VRef 1)];
    Cell KObject None [("z", VNum 1)] ].

(** [source = {x: {y: 1}, d: f}] with [f] a function, and nothing else:
    0: [source], 1: [source.x], 2: [f]. *)
Definition h_sources_only : heap :=
  [ Cell KObject None [("x", VRef 1); ("d", VRef 2)];
    Cell KObject None [("y", VNum 1)];
    Cell KOther None [] ].

End MoreExamples.

(** ** Property names the host treats in a way of its own

    The heap lists the enumerable data properties of the objects.
    Every object also inherits the properties of [Object.prototype];
    they are not enumerable and are not cells of the heap.  Reading one
    of these names on an object that has no property of that name
    yields a built-in (a function, or the prototype for [__proto__]),
    and writing [__proto__] goes through an accessor that replaces the
    prototype of the object.  [get_prop] reads [undefined] there and
    [set_prop] writes an own property, so the properties that depend on
    such a read or write are stated for keys other than these names. *)

Section HostNames.

Local Open Scope string_scope.

(** The properties of [Object.prototype]. *)
Definition object_prototype_names : list string :=
  [ "__proto__"; "constructor"; "hasOwnProperty"; "isPrototypeOf";
    "propertyIsEnumerable"; "toLocaleString"; "toString"; "valueOf";
    "__defineGetter__"; "__defineSetter__";
    "__lookupGetter__"; "__lookupSetter__" ].

(** The names that lead from an object or a function to a prototype
    object: [prototype] on a constructor, beside the names above. *)
Definition prototype_path_names : list string :=
  "prototype" :: object_prototype_names.

(** [o[k] = v] on an object [o] of kind [K] creates or overwrites the
    own data property [k] and does nothing else: for every key but
    [__proto__] on a plain object, for every key but [__proto__] and
    [length] on an array.  The other kinds of object (functions, typed
    arrays, ...) have read-only or coercing properties of their own. *)
Definition plain_write (K : kind) (k : string) : bool :=
  negb (bool_decide (k = "__proto__")) &&
  match K with
  | KObject => true
  | KArray => negb (bool_decide (k = "length"))
  | KOther => false
  end.

End HostNames.

(** ** The accessor [__proto__]

    To follow a write of [__proto__] the heap has to say which objects
    inherit the accessor.  In the definitions of this section the heap
    holds [Object.prototype] as a cell of its own, at location [op]: an
    object created by [{}] or by [JSON.parse] has the prototype
    [Some op], and the prototype [None] is [null]. *)

Section Accessor.

Local Open Scope string_scope.

(** The locations on the prototype chain of [l], [l] first. *)
Fixpoint proto_locs (n : nat) (h : heap) (l : loc) : list loc :=
  match n with
  | O => []
  | S n' =>
      match h !! l with
      | None => []
      | Some c =>
          l :: match cproto c with
               | Some p => proto_locs n' h p
               | None => []
               end
      end
  end.

(** A write of [__proto__] on the object [l] reaches the accessor:
    walking up from [l], [Object.prototype] comes before any object
    that has a data property of that name. *)
Fixpoint reaches_accessor (n : nat) (op : loc) (h : heap) (l : loc) : bool :=
  match n with
  | O => false
  | S n' =>
      if bool_decide (l = op) then true
      else
        match h !! l with
        | None => false
        | Some c =>
            match assoc "__proto__" (cprops c), cproto c with
            | Some _, _ => false
            | None, Some p => reaches_accessor n' op h p
            | None, None => false
            end
        end
  end.

Definition set_proto (h : heap) (l : loc) (p : option loc) : heap :=
  match h !! l with
  | Some c => <[l := Cell (ckind c) p (cprops c)]> h
  | None => h
  end.

(** The setter of the accessor, called on the object [l] with the
    value [x]: an object or [null] becomes the prototype of [l],
    unless the chain would become cyclic or [l] is [Object.prototype]
    itself (TypeError); any other value is ignored. *)
Definition proto_setter (op : loc) (h : heap) (l : loc) (x : value) : result heap :=
  match x with
  | VNull =>
      if bool_decide (l = op) then Ok h else Ok (set_proto h l None)
  | VRef p =>
      if bool_decide (cproto <$> h !! l = Some (Some p)) then Ok h
      else if bool_decide (l = op) then Err TypeError
      else if bool_decide (l ∈ proto_locs (length h) h p) then Err TypeError
      else Ok (set_proto h l (Some p))
  | _ => Ok h
  end.

(** [v[k] = x] with the accessor: the write of [__proto__] on an object
    that inherits the accessor calls the setter and creates no
    property; on a primitive the setter does nothing; every other write
    is [set_prop]. *)
Definition set_prop_host (op : loc) (h : heap) (v : value) (k : string) (x : value)
  : result heap :=
  if bool_decide (k = "__proto__") then
    match v with
    | VUndefined | VNull => Err TypeError
    | VRef l =>
        if reaches_accessor (length h) op h l then proto_setter op h l x
        else set_prop h v k x
    | VBool _ | VNum _ | VStr _ => Ok h
    end
  else set_prop h v k x.

(** The engine with [deep] off, over that write.  The body of the loop
    over the keys (lines 57-80; lines 64-78 are skipped, and nothing is
    pushed on [copied]): *)
Definition mixin_key_host (op : loc) (inherited : bool) (copiedClone : list value)
    (t source : value) (key : string) (h : heap) : result heap :=
  if inherited || hasOwnProperty h source key then
    let* v := get_prop h source key in
    if negb (indexOf copiedClone v =? -1)%Z then Ok h
    else set_prop_host op h t key v
  else Ok h.

(** One round of the loop over the sources (lines 51-81). *)
Definition mixin_source_host (op : loc) (inherited : bool) (copiedClone : list value)
    (t source : value) (h : heap) : result heap :=
  match source with
  | VNull | VUndefined => Ok h
  | _ =>
      foldM (mixin_key_host op inherited copiedClone t source)
            (forin_keys h source) h
  end.

(** [mixin] (lines 223-230): [inherited] is on and the call has no
    [copied] list, so [copiedClone] is empty (lines 47-48). *)
Definition mixin_host (op : loc) (t : value) (srcs : list value) (h : heap)
  : result (value * heap) :=
  let* h' := foldM (mixin_source_host op true [] t) srcs h in
  Ok (t, h').

(** [t = {}; s = JSON.parse('{"__proto__": null}')]
    0: [Object.prototype], 1: [t], 2: [s], whose own key [__proto__] is a
    data property. *)
Definition h_accessor : heap :=
  [ Cell KObject None [];
    Cell KObject (Some 0) [];
    Cell KObject (Some 0) [("__proto__", VNull)] ].

(** After [mixin(t, s)]: the prototype of [t] is [null]. *)
Definition h_accessor_once : heap :=
  [ Cell KObject None [];
    Cell KObject None [];
    Cell KObject (Some 0) [("__proto__", VNull)] ].

(** After a second [mixin(t, s)]: [t] has the own key [__proto__]. *)
Definition h_accessor_twice : heap :=
  [ Cell KObject None [];
    Cell KObject None [("__proto__", VNull)];
    Cell KObject (Some 0) [("__proto__", VNull)] ].

(** [t = {}; source = Object.create({b: 2}); source.a = 1]
    0: [Object.prototype], 1: [t], 2: [source], 3: its prototype. *)
Definition h_accessor_proto : heap :=
  [ Cell KObject None [];
    Cell KObject (Some 0) [];
    Cell KObject (Some 3) [("a", VNum 1)];
    Cell KObject (Some 0) [("b", VNum 2)] ].

(** After [mixin(t, source)]. *)
Definition h_accessor_proto_mixed : heap :=
  [ Cell KObject None [];
    Cell KObject (Some 0) [("a", VNum 1); ("b", VNum 2)];
    Cell KObject (Some 3) [("a", VNum 1)];
    Cell KObject (Some 0) [("b", VNum 2)] ].

End Accessor.

(** ** Literals

    A source written as a literal: primitives, object literals
    [{k: ..., ...}] and array literals [[..., ...]], nested at will, as in
    [{x: {y: 1}, arr: [{v: 1}, [2, 's']]}].  Every [{...}] and [[...]]
    of the literal evaluates to an object of its own, so the value
    shares no structure and has no cycle. *)

#[warnings="-register-all"] Inductive tree :=
| Leaf (x : value)
| Obj (fields : list (string * tree))
| Arr (items : list (string * tree)).

(** Evaluating the fields of a literal from left to right. *)
Definition build_fields (b : tree -> heap -> value * heap) :=
  fix go (fs : list (string * tree)) (h : heap)
    : list (string * value) * heap :=
    match fs with
    | [] => ([], h)
    | (k, t) :: r =>
        let '(x, h1) := b t h in
        let '(ps, h2) := go r h1 in
        ((k, x) :: ps, h2)
    end.

(** Evaluating a literal in the heap [h]: the value, and the heap with
    the objects of the literal appended, the fields of an object before
    the object itself.  The objects have no enumerable inherited key
    (prototype [None]). *)
Fixpoint build (t : tree) (h : heap) {struct t} : value * heap :=
  match t with
  | Leaf x => (x, h)
  | Obj fs =>
      let '(ps, h1) := build_fields build fs h in
      (VRef (length h1), h1 ++ [Cell KObject None ps])
  | Arr fs =>
      let '(ps, h1) := build_fields build fs h in
      (VRef (length h1), h1 ++ [Cell KArray None ps])
  end.

(** The nesting depth: the stack frames a deep copy needs. *)
Fixpoint depth (t : tree) : nat :=
  match t with
  | Leaf _ => 0
  | Obj fs | Arr fs => S (fold_right (fun p acc => Nat.max (depth (snd p)) acc) 0 fs)
  end.

Definition depth_fields (fs : list (string * tree)) : nat :=
  fold_right (fun p acc => Nat.max (depth (snd p)) acc) 0 fs.

Definition is_primitive (x : value) : Prop :=
  match x with VRef _ => False | _ => True end.

(** An ordinary key of an object literal: not the name of a property
    of [Object.prototype], and not an array index (the host enumerates
    index-like keys before the others, whatever the order they were
    written in). *)
Definition ordinary_key (k : string) : Prop :=
  (k ∉ object_prototype_names) /\ is_index_key k = false.

(** A well-formed literal: the leaves are primitives; an object has no
    key twice and ordinary keys only; the keys of an array of [n]
    elements are the indices ["0"] to [n - 1], in order. *)
Fixpoint wf (t : tree) : Prop :=
  match t with
  | Leaf x => is_primitive x
  | Obj fs => NoDup (map fst fs) /\ Forall (fun p => ordinary_key (fst p)) fs /\
              fold_right (fun p acc => wf (snd p) /\ acc) True fs
  | Arr fs => map fst fs = map index_key (seq 0 (length fs)) /\
              Forall (fun p => is_index_key (fst p) = true) fs /\
              fold_right (fun p acc => wf (snd p) /\ acc) True fs
  end.

Definition wf_fields (fs : list (string * tree)) : Prop :=
  fold_right (fun p acc => wf (snd p) /\ acc) True fs.

(** The properties [ps] are the fields [fs], key by key and in the same
    order, the values related by [R]. *)
Definition represents_fields (R : value -> tree -> Prop) :=
  fix go (ps : list (string * value)) (fs : list (string * tree)) {struct fs}
    : Prop :=
    match fs, ps with
    | [], [] => True
    | (k', t) :: fs', (k, x) :: ps' => k = k' /\ R x t /\ go ps' fs'
    | _, _ => False
    end.

(** In the heap [h] the value [v] is the literal [t], made of objects at
    or beyond location [n] only: a primitive is the leaf itself, a
    reference leads to an object or array of the same kind with exactly
    the keys of the literal, in order, each holding its field. *)
Fixpoint represents (n : nat) (h : heap) (v : value) (t : tree) {struct t} : Prop :=
  match t with
  | Leaf x => v = x
  | Obj fs =>
      exists l ps, v = VRef l /\ n <= l /\ h !! l = Some (Cell KObject None ps) /\
                   represents_fields (fun x t' => represents n h x t') ps fs
  | Arr fs =>
      exists l ps, v = VRef l /\ n <= l /\ h !! l = Some (Cell KArray None ps) /\
                   represents_fields (fun x t' => represents n h x t') ps fs
  end.

(** The entries of a [copied] list: references outside, or inside, the
    locations from [a] up to [b]. *)
Definition refs_outside (a b : nat) (cp : list value) : Prop :=
  forall x, x ∈ cp -> exists l, x = VRef l /\ (l < a \/ b <= l).

Definition refs_inside (a b : nat) (cp : list value) : Prop :=
  forall x, x ∈ cp -> exists l, x = VRef l /\ a <= l < b.

(** With [n] stack frames the engine merges an object literal of depth
    at most [n] into a new empty object as a copy made of new objects,
    pushing only objects of the literal on the [copied] list; and
    [copyArray] copies an array literal likewise. *)
Definition clones_object (n : nat) : Prop :=
  forall fs h0 v hsrc inh cpo hc,
    wf (Obj fs) -> depth (Obj fs) <= n -> build (Obj fs) h0 = (v, hsrc) ->
    hsrc `prefix_of` hc ->
    refs_outside (length h0) (length hsrc) (default [] cpo) ->
    exists ext pushed,
      _mixin n {| deep := true; inherited := inh; sources := [v];
                  target := VRef (length hc); copied := cpo |}
             (hc ++ [empty_object])
        = Ok (VRef (length hc), hc ++ ext, default [] cpo ++ pushed) /\
      represents (length hc) (hc ++ ext) (VRef (length hc)) (Obj fs) /\
      refs_inside (length h0) (length hsrc) pushed.

Definition clones_array (n : nat) : Prop :=
  forall fs h0 v hsrc inh hc,
    wf (Arr fs) -> depth (Arr fs) <= n -> build (Arr fs) h0 = (v, hsrc) ->
    hsrc `prefix_of` hc ->
    exists ext r,
      copyArray n v inh hc = Ok (r, hc ++ ext) /\
      represents (length hc) (hc ++ ext) r (Arr fs).

Section LiteralExamples.

Local Open Scope string_scope.

(** [{x: {y: 1}, arr: [{v: 1}, [2, 's']]}] *)
Definition literal_example : tree :=
  Obj [("x", Obj [("y", Leaf (VNum 1))]);
       ("arr", Arr [("0", Obj [("v", Leaf (VNum 1))]);
                    ("1", Arr [("0", Leaf (VNum 2)); ("1", Leaf (VStr "s"))])])].

(** [[{v: 1, w: []}, [2], null]] *)
Definition array_literal_example : tree :=
  Arr [("0", Obj [("v", Leaf (VNum 1)); ("w", Arr [])]);
       ("1", Arr [("0", Leaf (VNum 2))]);
       ("2", Leaf VNull)].

End LiteralExamples.

(** ** Heaps without prototypes *)

(** No object has a prototype that the model knows of: every prototype
    is one without enumerable properties, as [Object.prototype] and
    [Array.prototype] are. *)
Definition no_prototypes (h : list cell) : Prop :=
  forall l c, h !! l = Some c -> cproto c = None.

(** The engine allocates such objects only. *)
Definition mixin_adds_no_prototype
    (rm : MixinArgs -> list cell -> result (value * list cell * list value)) : Prop :=
  forall kw h r h' cp',
    no_prototypes h -> rm kw h = Ok (r, h', cp') -> no_prototypes h'.

Definition copyArray_adds_no_prototype
    (rc : value -> bool -> list cell -> result (value * list cell)) : Prop :=
  forall a i h r h', no_prototypes h -> rc a i h = Ok (r, h') -> no_prototypes h'.

(** In such a heap the [inherited] flag changes nothing. *)
Definition mixin_ignores_inherited
    (rm : MixinArgs -> list cell -> result (value * list cell * list value)) : Prop :=
  forall d srcs t cpo h, no_prototypes h ->
    rm {| deep := d; inherited := true; sources := srcs; target := t;
          copied := cpo |} h =
    rm {| deep := d; inherited := false; sources := srcs; target := t;
          copied := cpo |} h.

Definition copyArray_ignores_inherited
    (rc : value -> bool -> list cell -> result (value * list cell)) : Prop :=
  forall a h, no_prototypes h -> rc a true h = rc a false h.

(** No object of the heap has a key among [names]. *)
Definition heap_avoids (names : list string) (h : heap) : Prop :=
  forall l c k, h !! l = Some c -> k ∈ own_keys c -> k ∉ names.

(** The sequence of draws that is [x] at position [n] and 0 elsewhere. *)
Definition one_draw (n : nat) (x : Q) : nat -> Q :=
  fun m => if (m =? n)%nat then x else 0%Q.

(** ** Objects nothing refers to *)

(** No object holds a reference to a location of [U] as the value of a
    property. *)
Definition unreferenced (U : list loc) (h : heap) : Prop :=
  forall l c k u, h !! l = Some c -> (k, VRef u) ∈ cprops c -> u ∉ U.

Definition value_outside (U : list loc) (v : value) : Prop :=
  forall u, u ∈ U -> v <> VRef u.

Definition within (U : list loc) (h : heap) : Prop :=
  forall u, u ∈ U -> u < length h.

(** What the engine does to such objects: it never stores a reference
    to them, and it writes on them only as the target of the call. *)
Definition mixin_frames (U : list loc)
    (rm : MixinArgs -> heap -> result (value * heap * list value)) : Prop :=
  forall kw h r h' cp',
    unreferenced U h -> within U h -> rm kw h = Ok (r, h', cp') ->
    r = target kw /\ length h <= length h' /\ unreferenced U h' /\
    forall u, u ∈ U -> target kw <> VRef u -> h' !! u = h !! u.

Definition copyArray_frames (U : list loc)
    (rc : value -> bool -> heap -> result (value * heap)) : Prop :=
  forall a i h r h',
    unreferenced U h -> within U h -> rc a i h = Ok (r, h') ->
    length h <= length h' /\ unreferenced U h' /\ value_outside U r /\
    forall u, u ∈ U -> h' !! u = h !! u.

Section SiblingExamples.

Local Open Scope string_scope.

(** [a = {k: {p: 1}}; b = {n: {q: 2}, k: 7, arr: [1]}]
    0: the target [{}], 1: [a], 2: [a.k], 3: [b], 4: [b.n], 5: [b.arr]. *)
Definition h_siblings : heap :=
  [ Cell KObject None [];
    Cell KObject None [("k", VRef 2)];
    Cell KObject None [("p", VNum 1)];
    Cell KObject None [("n", VRef 4); ("k", VNum 7); ("arr", VRef 5)];
    Cell KObject None [("q", VNum 2)];
    Cell KArray None [("0", VNum 1)] ].

(** [h_siblings] after [deepAssign({}, a, b)]: the copy of [a.k] at 6 is
    no longer referred to, [target.k] is [7]. *)
Definition h_siblings_deep : heap :=
  [ Cell KObject None [("k", VNum 7); ("n", VRef 7); ("arr", VRef 8)];
    Cell KObject None [("k", VRef 2)];
    Cell KObject None [("p", VNum 1)];
    Cell KObject None [("n", VRef 4); ("k", VNum 7); ("arr", VRef 5)];
    Cell KObject None [("q", VNum 2)];
    Cell KArray None [("0", VNum 1)];
    Cell KObject None [("p", VNum 1)];
    Cell KObject None [("q", VNum 2)];
    Cell KArray None [("0", VNum 1)] ].

(** [target = {}; target.m = target; b = {k: 1, m: {k: 5}}]
    0: the target, which refers to itself, 1: [b], 2: [b.m]. *)
Definition h_alias : heap :=
  [ Cell KObject None [("m", VRef 0)];
    Cell KObject None [("k", VNum 1); ("m", VRef 2)];
    Cell KObject None [("k", VNum 5)] ].

(** [h_alias] after [deepAssign(target, b)]: [b.m] was merged into
    [target.m], which is the target. *)
Definition h_alias_deep : heap :=
  [ Cell KObject None [("m", VRef 0); ("k", VNum 5)];
    Cell KObject None [("k", VNum 1); ("m", VRef 2)];
    Cell KObject None [("k", VNum 5)] ].

End SiblingExamples.

(** * Properties of uuid *)

Section UuidFacts.

Local Open Scope Z_scope.

Lemma to_int32_small z : -2 ^ 31 <= z < 2 ^ 31 -> to_int32 z = z.
Proof.
  intros Hz. unfold to_int32.
  rewrite Z.mod_small by lia. lia.
Qed.

Lemma Qtrunc_unit_scaled (x : Q) :
  (0 <= x)%Q -> (x < 1)%Q -> 0 <= Qtrunc (x * 16) < 16.
Proof.
  intros H0 H1.
  assert (Hs0 : (0 <= x * 16)%Q).
  { apply Qmult_le_0_compat; [exact H0 | discriminate]. }
  unfold Qtrunc.
  apply Qle_bool_iff in Hs0 as Hb. rewrite Hb.
  split.
  - change 0 with (Qfloor 0). apply Qfloor_resp_le. exact Hs0.
  - assert (Hlt : (x * 16 < 16)%Q).
    { change (16 : Q) with (1 * 16)%Q at 2.
      apply Qmult_lt_compat_r; [reflexivity | exact H1]. }
    pose proof (Qfloor_le (x * 16)) as Hfl.
    assert (Hq : (inject_Z (Qfloor (x * 16)) < inject_Z 16)%Q).
    { eapply Qle_lt_trans; [exact Hfl | exact Hlt]. }
    rewrite <- Zlt_Qlt in Hq. exact Hq.
Qed.

Lemma nibble_range (x : Q) :
  (0 <= x)%Q -> (x < 1)%Q -> 0 <= nibble x < 16.
Proof.
  intros H0 H1. unfold nibble.
  pose proof (Qtrunc_unit_scaled x H0 H1) as Ht.
  rewrite Z.lor_0_r, to_int32_small; lia.
Qed.

(** Sixteen cases, each one settled by evaluation. *)
Lemma nibble_cases (P : Z -> Prop) :
  P 0 -> P 1 -> P 2 -> P 3 -> P 4 -> P 5 -> P 6 -> P 7 ->
  P 8 -> P 9 -> P 10 -> P 11 -> P 12 -> P 13 -> P 14 -> P 15 ->
  forall r, 0 <= r < 16 -> P r.
Proof.
  intros. 
  assert (r = 0 \/ r = 1 \/ r = 2 \/ r = 3 \/ r = 4 \/ r = 5 \/ r = 6 \/
          r = 7 \/ r = 8 \/ r = 9 \/ r = 10 \/ r = 11 \/ r = 12 \/
          r = 13 \/ r = 14 \/ r = 15) as Hr by lia.
  repeat (destruct Hr as [-> | Hr]; [assumption |]).
  subst r. assumption.
Qed.

(** The callback returns exactly one character, of the class its
    template character asks for. *)
Lemma replacer_class (x : Q) (c : ascii) :
  (0 <= x)%Q -> (x < 1)%Q -> c = "x"%char \/ c = "y"%char ->
  exists d, replacer x c = String d EmptyString /\
            in_class (template_class c) d = true.
Proof.
  intros H0 H1 Hc. unfold replacer.
  pose proof (nibble_range x H0 H1) as Hr.
  revert Hr. generalize (nibble x) as r. intros r Hr.
  destruct Hc as [-> | ->]; cbn [template_class]; simpl decide;
    revert r Hr; apply nibble_cases; vm_compute; eauto.
Qed.

Lemma replace_xy_classes (rand : nat -> Q) :
  (forall n, (0 <= rand n)%Q /\ (rand n < 1)%Q) ->
  forall s n,
    matches (map template_class (list_ascii_of_string s))
            (replace_xy rand n s) = true.
Proof.
  intros Hrand s. induction s as [| c s IH]; intros n; [reflexivity |].
  cbn [replace_xy list_ascii_of_string map].
  case_bool_decide as Hc.
  - destruct (Hrand n) as [H0 H1].
    destruct (replacer_class (rand n) c H0 H1 Hc) as (d & -> & Hd).
    change (String d "" +:+ replace_xy rand (S n) s)
      with (String d (replace_xy rand (S n) s)).
    cbn [matches]. rewrite Hd, IH. reflexivity.
  - cbn [matches]. rewrite IH, andb_true_r.
    unfold template_class.
    destruct (decide (c = "x"%char)) as [-> | ?]; [tauto |].
    destruct (decide (c = "y"%char)) as [-> | ?]; [tauto |].
    cbn. apply bool_decide_eq_true. reflexivity.
Qed.

End UuidFacts.

(** C10, as worded, fails: the fourth group of the identifier has four
    characters (the variant nibble and three hex digits), so an
    identifier never fits a format that allows only two hex digits after
    the variant nibble.  Here with every draw equal to 0. *)
Lemma uuid_format_spec_fails :
  uuid (fun _ => 0%Q) = "00000000-0000-4000-8000-000000000000"%string /\
  matches uuid_format_spec (uuid (fun _ => 0%Q)) = false.
Proof. split; vm_compute; reflexivity. Qed.

(** C10 (amended): for every sequence of draws of [Math.random()], each
    in [0, 1), [uuid()] returns eight hex digits, a hyphen, four hex
    digits, a hyphen, the digit 4 and three hex digits, a hyphen, a
    variant nibble among 8, 9, a, b and THREE hex digits, a hyphen, and
    twelve hex digits. *)
Theorem uuid_format_ok (rand : nat -> Q) :
  (forall n, (0 <= rand n)%Q /\ (rand n < 1)%Q) ->
  matches uuid_format (uuid rand) = true.
Proof.
  intros Hrand.
  change uuid_format with (map template_class (list_ascii_of_string template)).
  apply replace_xy_classes. exact Hrand.
Qed.

Lemma uuid_format_ok_witness :
  (forall n : nat, (0 <= (fun _ => 1 # 2) n)%Q /\ ((fun _ => 1 # 2) n < 1)%Q) /\
  matches uuid_format (uuid (fun _ => 1 # 2)%Q) = true.
Proof.
  assert (H : forall n : nat, (0 <= (fun _ => 1 # 2) n)%Q /\ ((fun _ => 1 # 2) n < 1)%Q).
  { intros n. split; [discriminate | reflexivity]. }
  split; [exact H | exact (uuid_format_ok (fun _ => 1 # 2)%Q H)].
Defined.

(** * Properties of the engine *)

(** ** The error monad *)

Lemma bind_Ok_inv {A B} (m : result A) (f : A -> result B) (b : B) :
  bind m f = Ok b -> exists a, m = Ok a /\ f a = Ok b.
Proof. destruct m as [a | e]; simpl; [eauto | discriminate]. Qed.

Ltac inv_bind H :=
  let a := fresh "a" in
  let Ha := fresh "Hm" in
  apply bind_Ok_inv in H as (a & Ha & H).

Lemma foldM_app {A S} (f : A -> S -> result S) (l1 l2 : list A) (s : S) :
  foldM f (l1 ++ l2) s = bind (foldM f l1 s) (foldM f l2).
Proof.
  revert s. induction l1 as [| a l1 IH]; intros s; simpl; [reflexivity |].
  destruct (f a s) as [s' | e]; simpl; [apply IH | reflexivity].
Qed.

(** ** More fuel never changes an outcome

    An outcome other than [OutOfFuel] (a normal return or a TypeError)
    is the outcome at every larger fuel. *)

Lemma settled_Ok {A} (a : A) : settled (Ok a).
Proof. discriminate. Qed.

Lemma settled_bind {A B} (m : result A) (f : A -> result B) :
  settled (bind m f) -> settled m.
Proof.
  destruct m as [a | e]; [intros _; discriminate |].
  intros H [= ->]. by apply H.
Qed.

#[local] Hint Resolve settled_Ok : core.

Lemma bind_mono {A B} (m m' : result A) (f f' : A -> result B) :
  (settled m -> m' = m) ->
  (forall a, m = Ok a -> settled (f a) -> f' a = f a) ->
  settled (bind m f) -> bind m' f' = bind m f.
Proof.
  intros Hm Hf Hs. rewrite (Hm (settled_bind _ _ Hs)).
  destruct m as [a | e]; simpl in *; [by apply Hf | reflexivity].
Qed.

Lemma foldM_mono {A S} (f g : A -> S -> result S) (l : list A) :
  (forall a s, settled (f a s) -> g a s = f a s) ->
  forall s, settled (foldM f l s) -> foldM g l s = foldM f l s.
Proof.
  intros Hfg. induction l as [| a l IH]; intros s Hs; simpl in *; [reflexivity |].
  apply bind_mono; [apply Hfg | intros; by apply IH | exact Hs].
Qed.

Lemma map_items_mono (f g : value -> list cell -> result (value * list cell)) items :
  (forall v h, settled (f v h) -> g v h = f v h) ->
  forall h, settled (map_items f items h) -> map_items g items h = map_items f items h.
Proof.
  intros Hfg. induction items as [| [k item] items IH]; intros h Hs;
    simpl in *; [reflexivity |].
  apply bind_mono; [apply Hfg | | exact Hs].
  intros [item' h1] _ Hs1.
  apply bind_mono; [apply IH | reflexivity | exact Hs1].
Qed.

Section Monotone.

Variables rm rm' : MixinArgs -> list cell -> result (value * list cell * list value).
Variables rc rc' : value -> bool -> list cell -> result (value * list cell).
Hypothesis Hrm : forall kw h, settled (rm kw h) -> rm' kw h = rm kw h.
Hypothesis Hrc : forall a i h, settled (rc a i h) -> rc' a i h = rc a i h.

Lemma copyArray_item_mono inh item h :
  settled (copyArray_item rm rc inh item h) ->
  copyArray_item rm' rc' inh item h = copyArray_item rm rc inh item h.
Proof.
  unfold copyArray_item.
  destruct (isArray h item); [apply Hrc |].
  destruct (negb (shouldDeepCopyObject h item)); [reflexivity |].
  destruct (alloc h empty_object) as [t h1].
  apply bind_mono; [apply Hrm | reflexivity].
Qed.

Lemma copyArray_body_mono a inh h :
  settled (copyArray_body rm rc a inh h) ->
  copyArray_body rm' rc' a inh h = copyArray_body rm rc a inh h.
Proof.
  unfold copyArray_body.
  apply bind_mono; [| reflexivity].
  apply map_items_mono. intros. by apply copyArray_item_mono.
Qed.

Lemma mixin_key_mono kw clone source key st :
  settled (mixin_key rm rc kw clone source key st) ->
  mixin_key rm' rc' kw clone source key st =
  mixin_key rm rc kw clone source key st.
Proof.
  unfold mixin_key. destruct st as [h cp].
  destruct (inherited kw || hasOwnProperty h source key); [| reflexivity].
  apply bind_mono; [reflexivity |]. intros v _.
  destruct (negb (indexOf clone v =? -1)%Z); [reflexivity |].
  apply bind_mono; [| reflexivity].
  destruct (deep kw); [| reflexivity].
  destruct (isArray h v).
  - apply bind_mono; [apply Hrc | reflexivity].
  - destruct (shouldDeepCopyObject h v); [| reflexivity].
    apply bind_mono; [reflexivity |]. intros tv _.
    destruct (nested_target h tv) as [t h1]. apply Hrm.
Qed.

Lemma mixin_body_mono kw h :
  settled (mixin_body rm rc kw h) ->
  mixin_body rm' rc' kw h = mixin_body rm rc kw h.
Proof.
  unfold mixin_body.
  apply bind_mono; [| reflexivity].
  apply foldM_mono. intros src st. unfold mixin_source.
  destruct src; try reflexivity; apply foldM_mono; intros;
    by apply mixin_key_mono.
Qed.

End Monotone.

Lemma fuel_step n :
  (forall kw h, settled (_mixin n kw h) -> _mixin (S n) kw h = _mixin n kw h) /\
  (forall a i h, settled (copyArray n a i h) ->
     copyArray (S n) a i h = copyArray n a i h).
Proof.
  induction n as [| n [IHm IHc]].
  { split; intros; exfalso; by apply H. }
  split; intros.
  - change (mixin_body (_mixin (S n)) (copyArray (S n)) kw h =
            mixin_body (_mixin n) (copyArray n) kw h).
    by apply mixin_body_mono.
  - change (copyArray_body (_mixin (S n)) (copyArray (S n)) a i h =
            copyArray_body (_mixin n) (copyArray n) a i h).
    by apply copyArray_body_mono.
Qed.

Lemma _mixin_fuel_mono n m kw h :
  n <= m -> settled (_mixin n kw h) -> _mixin m kw h = _mixin n kw h.
Proof.
  induction 1 as [| m _ IH]; [reflexivity |].
  intros Hs. rewrite <- (IH Hs). apply fuel_step. by rewrite (IH Hs).
Qed.

Lemma entry_fuel_mono n m d i t srcs h :
  n <= m -> settled (entry n d i t srcs h) ->
  entry m d i t srcs h = entry n d i t srcs h.
Proof.
  unfold entry. intros Hle Hs.
  apply bind_mono; [by apply _mixin_fuel_mono | reflexivity | exact Hs].
Qed.

(** The form used on examples: an outcome computed at some fuel holds at
    every larger fuel. *)
Lemma entry_at_least n m d i t srcs h r :
  entry n d i t srcs h = r -> settled r -> n <= m -> entry m d i t srcs h = r.
Proof. intros <- Hs Hle. by apply entry_fuel_mono. Qed.

(** ** Loops with an invariant *)

Lemma foldM_invariant {A S} (f : A -> S -> result S) (P : S -> Prop) (l : list A) :
  (forall a s s', a ∈ l -> P s -> f a s = Ok s' -> P s') ->
  forall s s', P s -> foldM f l s = Ok s' -> P s'.
Proof.
  induction l as [| a l IH]; intros Hstep s s' HP H; simpl in H.
  - congruence.
  - inv_bind H. eapply IH; [| | exact H].
    + intros b t t' Hb. apply Hstep. by apply list_elem_of_further.
    + eapply Hstep; [apply list_elem_of_here | exact HP | exact Hm].
Qed.

Lemma foldM_total {A S} (f : A -> S -> result S) (P : S -> Prop) (l : list A) :
  (forall a s, a ∈ l -> P s -> exists s', f a s = Ok s' /\ P s') ->
  forall s, P s -> exists s', foldM f l s = Ok s' /\ P s'.
Proof.
  induction l as [| a l IH]; intros Hstep s HP; simpl.
  - eauto.
  - destruct (Hstep a s (list_elem_of_here _ _) HP) as (s1 & -> & HP1). simpl.
    apply IH; [| exact HP1].
    intros b t Hb. apply Hstep. by apply list_elem_of_further.
Qed.

(** ** Own properties *)

Lemma assoc_set_eq k v ps : assoc k (assoc_set k v ps) = Some v.
Proof.
  induction ps as [| [k' v'] ps IH]; simpl.
  - by rewrite decide_True.
  - destruct (decide (k = k')) as [-> | Hne]; simpl.
    + by rewrite decide_True.
    + by rewrite decide_False.
Qed.

Lemma assoc_set_ne k k' v ps : k ≠ k' -> assoc k' (assoc_set k v ps) = assoc k' ps.
Proof.
  intros Hne. induction ps as [| [k0 v0] ps IH]; simpl.
  - by rewrite decide_False.
  - destruct (decide (k = k0)) as [-> | Hne0]; simpl.
    + by rewrite !decide_False.
    + destruct (decide (k' = k0)); [reflexivity | exact IH].
Qed.

Lemma assoc_set_id k v ps : assoc k ps = Some v -> assoc_set k v ps = ps.
Proof.
  induction ps as [| [k' v'] ps IH]; simpl; [discriminate |].
  destruct (decide (k = k')) as [-> | Hne].
  - intros [= ->]. reflexivity.
  - intros H. by rewrite IH.
Qed.

Lemma assoc_is_Some k ps : is_Some (assoc k ps) <-> k ∈ map fst ps.
Proof.
  induction ps as [| [k' v'] ps IH]; simpl.
  - rewrite elem_of_nil. split; [intros [? [=]] | tauto].
  - rewrite elem_of_cons. destruct (decide (k = k')) as [-> | Hne].
    + split; [by left | eauto].
    + rewrite IH. tauto.
Qed.

Lemma assoc_set_keys k v ps k' :
  k' ∈ map fst (assoc_set k v ps) -> k' = k \/ k' ∈ map fst ps.
Proof.
  rewrite <- !assoc_is_Some.
  destruct (decide (k = k')) as [-> | Hne]; [by left |].
  rewrite assoc_set_ne by exact Hne. by right.
Qed.


Lemma set_prop_inv h t k v h' :
  set_prop h t k v = Ok h' ->
  exists l c, t = VRef l /\ h !! l = Some c /\
    h' = <[l := Cell (ckind c) (cproto c) (assoc_set k v (cprops c))]> h.
Proof.
  unfold set_prop. destruct t; try discriminate.
  destruct (h !! l) as [c |] eqn:Hl; [| discriminate].
  intros [= <-]. eauto.
Qed.

Lemma set_prop_length h t k v h' : set_prop h t k v = Ok h' -> length h' = length h.
Proof.
  intros (l & c & -> & Hl & ->)%set_prop_inv. apply length_insert.
Qed.

Lemma set_prop_own_eq h t k v h' :
  set_prop h t k v = Ok h' -> own_prop h' t k = Some v.
Proof.
  intros (l & c & -> & Hl & ->)%set_prop_inv. unfold own_prop.
  rewrite list_lookup_insert_eq by (by eapply lookup_lt_Some).
  simpl. apply assoc_set_eq.
Qed.

Lemma set_prop_own_ne h t k v h' u k' :
  set_prop h t k v = Ok h' -> (u ≠ t \/ k' ≠ k) ->
  own_prop h' u k' = own_prop h u k'.
Proof.
  intros (l & c & -> & Hl & ->)%set_prop_inv Hne.
  destruct u as [| | | | | l']; try reflexivity. unfold own_prop.
  destruct (decide (l = l')) as [<- | Hll].
  - rewrite list_lookup_insert_eq by (by eapply lookup_lt_Some).
    rewrite Hl. simpl. apply assoc_set_ne.
    destruct Hne as [Hne | Hne]; congruence.
  - by rewrite list_lookup_insert_ne.
Qed.

(** Writing what is already there changes nothing. *)
Lemma set_prop_id h t k v : own_prop h t k = Some v -> set_prop h t k v = Ok h.
Proof.
  destruct t as [| | | | | l]; try discriminate. unfold own_prop, set_prop.
  destruct (h !! l) as [c |] eqn:Hl; [| discriminate]. simpl.
  intros Hk. rewrite (assoc_set_id _ _ _ Hk).
  f_equal. destruct c. simpl. by apply list_insert_id.
Qed.

Lemma set_prop_total h l k v : is_Some (h !! l) -> exists h', set_prop h (VRef l) k v = Ok h'.
Proof. intros [c Hc]. unfold set_prop. rewrite Hc. eauto. Qed.

(** A write leaves every kind as it was. *)
Lemma set_prop_kind h t k v h' l :
  set_prop h t k v = Ok h' -> ckind <$> (h' !! l) = ckind <$> (h !! l).
Proof.
  intros (l0 & c & -> & Hl & ->)%set_prop_inv.
  destruct (decide (l0 = l)) as [<- | Hne].
  - rewrite list_lookup_insert_eq by (by eapply lookup_lt_Some).
    by rewrite Hl.
  - by rewrite list_lookup_insert_ne.
Qed.

Lemma set_prop_isArray h t k v h' x :
  set_prop h t k v = Ok h' -> isArray h' x = isArray h x.
Proof.
  intros H. destruct x as [| | | | | l]; try reflexivity.
  cbn [isArray shouldDeepCopyObject].
  pose proof (set_prop_kind _ _ _ _ _ l H) as Hk.
  destruct (h' !! l), (h !! l); simpl in Hk; try congruence.
  by injection Hk as ->.
Qed.

Lemma set_prop_shouldDeepCopyObject h t k v h' x :
  set_prop h t k v = Ok h' ->
  shouldDeepCopyObject h' x = shouldDeepCopyObject h x.
Proof.
  intros H. destruct x as [| | | | | l]; try reflexivity.
  cbn [isArray shouldDeepCopyObject].
  pose proof (set_prop_kind _ _ _ _ _ l H) as Hk.
  destruct (h' !! l), (h !! l); simpl in Hk; try congruence.
  by injection Hk as ->.
Qed.

(** ** Enumeration and lookup along the prototype chain *)

Lemma first_occurrences_elem k seen ks :
  k ∈ first_occurrences seen ks <-> k ∈ ks /\ k ∉ seen.
Proof.
  revert seen. induction ks as [| k0 ks IH]; intros seen; simpl.
  - rewrite elem_of_nil. tauto.
  - destruct (decide (k0 ∈ seen)) as [Hin | Hnin].
    + rewrite IH, elem_of_cons. split; [tauto |].
      intros [[-> | H] Hs]; tauto.
    + rewrite !elem_of_cons, IH, elem_of_cons.
      destruct (decide (k = k0)) as [-> | Hne]; tauto.
Qed.

Lemma concat_elem (k : string) (ls : list (list string)) :
  k ∈ concat ls <-> exists l, l ∈ ls /\ k ∈ l.
Proof.
  induction ls as [| l ls IH]; simpl.
  - rewrite elem_of_nil. split; [tauto |].
    intros (l & Hl & _). by apply elem_of_nil in Hl.
  - rewrite elem_of_app, IH. split.
    + intros [H | (l' & Hl' & H)].
      * exists l. split; [apply list_elem_of_here | exact H].
      * exists l'. split; [by apply list_elem_of_further | exact H].
    + intros (l' & [-> | Hl']%elem_of_cons & H); eauto.
Qed.

Lemma forin_keys_ref h l k :
  k ∈ forin_keys h (VRef l) <-> exists c, c ∈ chain h l /\ k ∈ own_keys c.
Proof.
  unfold forin_keys. rewrite first_occurrences_elem, concat_elem.
  split.
  - intros [(ks & (c & -> & Hc)%list_elem_of_fmap & Hk) _]. eauto.
  - intros (c & Hc & Hk). split; [| apply not_elem_of_nil].
    exists (own_keys c). split; [| exact Hk].
    apply list_elem_of_fmap. eauto.
Qed.

Lemma chain_head h l c : h !! l = Some c -> exists r, chain h l = c :: r.
Proof.
  intros Hl. unfold chain.
  destruct (length h) as [| n] eqn:Hlen.
  - apply lookup_lt_Some in Hl. lia.
  - simpl. rewrite Hl. eauto.
Qed.

(** An own property is enumerated and is what a read returns. *)
Lemma own_prop_forin h t k v : own_prop h t k = Some v -> k ∈ forin_keys h t.
Proof.
  destruct t as [| | | | | l]; try discriminate. unfold own_prop.
  destruct (h !! l) as [c |] eqn:Hl; [| discriminate]. simpl. intros Hk.
  apply forin_keys_ref. destruct (chain_head _ _ _ Hl) as [r Hr].
  exists c. split; [rewrite Hr; apply list_elem_of_here |].
  apply assoc_is_Some. eauto.
Qed.

Lemma own_prop_get h t k v : own_prop h t k = Some v -> get_prop h t k = Ok v.
Proof.
  destruct t as [| | | | | l]; try discriminate. unfold own_prop, get_prop.
  destruct (h !! l) as [c |] eqn:Hl; [| discriminate]. simpl. intros Hk.
  destruct (chain_head _ _ _ Hl) as [r ->]. simpl. by rewrite Hk.
Qed.

Lemma own_prop_has_own h t k v : own_prop h t k = Some v -> hasOwnProperty h t k = true.
Proof.
  destruct t as [| | | | | l]; try discriminate. unfold own_prop, hasOwnProperty.
  destruct (h !! l) as [c |]; [| discriminate]. simpl. intros Hk.
  apply bool_decide_eq_true. eauto.
Qed.

Section WriteAlongChain.

(** The heap before and after [t[k] = v] on the object at [lt]. *)
Variables (h : list cell) (lt : nat) (ct : cell) (k : string) (v : value).
Hypothesis Hlt : h !! lt = Some ct.

Let ct' := Cell (ckind ct) (cproto ct) (assoc_set k v (cprops ct)).
Let h' := <[lt := ct']> h.

Lemma written_lookup l :
  h' !! l = if decide (l = lt) then Some ct' else h !! l.
Proof.
  unfold h'. destruct (decide (l = lt)) as [-> | Hne].
  - apply list_lookup_insert_eq. by eapply lookup_lt_Some.
  - by apply list_lookup_insert_ne.
Qed.

Lemma written_chain_keys n l c' :
  c' ∈ proto_chain n h' l ->
  exists c, c ∈ proto_chain n h l /\
    forall k', k' ∈ own_keys c' -> k' = k \/ k' ∈ own_keys c.
Proof.
  revert l. induction n as [| n IH]; intros l; simpl.
  - intros H. by apply elem_of_nil in H.
  - rewrite written_lookup. destruct (decide (l = lt)) as [-> | Hne].
    + rewrite Hlt. simpl. intros [-> | Hin]%elem_of_cons.
      * exists ct. split; [apply list_elem_of_here |].
        intros k'. apply assoc_set_keys.
      * destruct (cproto ct) as [p |]; [| by apply elem_of_nil in Hin].
        destruct (IH _ Hin) as (c & Hc & Hk).
        exists c. split; [by apply list_elem_of_further | exact Hk].
    + destruct (h !! l) as [c0 |]; [| intros H; by apply elem_of_nil in H].
      intros [-> | Hin]%elem_of_cons.
      * exists c0. split; [apply list_elem_of_here | auto].
      * destruct (cproto c0) as [p |]; [| by apply elem_of_nil in Hin].
        destruct (IH _ Hin) as (c & Hc & Hk).
        exists c. split; [by apply list_elem_of_further | exact Hk].
Qed.

Lemma written_chain_get_ne n l k' :
  k' ≠ k ->
  chain_get k' (proto_chain n h' l) = chain_get k' (proto_chain n h l).
Proof.
  intros Hne. revert l. induction n as [| n IH]; intros l; simpl; [reflexivity |].
  rewrite written_lookup. destruct (decide (l = lt)) as [-> | Hl].
  - rewrite Hlt. simpl. rewrite assoc_set_ne by congruence.
    destruct (assoc k' (cprops ct)); [reflexivity |].
    destruct (cproto ct); [apply IH | reflexivity].
  - destruct (h !! l) as [c0 |]; [| reflexivity]. simpl.
    destruct (assoc k' (cprops c0)); [reflexivity |].
    destruct (cproto c0); [apply IH | reflexivity].
Qed.

(** If the value written is the one a read of [k] found, reads of [k]
    still find it, wherever on the chain the target sits. *)
Lemma written_chain_get_eq n l :
  default VUndefined (chain_get k (proto_chain n h l)) = v ->
  default VUndefined (chain_get k (proto_chain n h' l)) = v.
Proof.
  revert l. induction n as [| n IH]; intros l; simpl; [trivial |].
  rewrite written_lookup. destruct (decide (l = lt)) as [-> | Hl].
  - intros _. simpl. by rewrite assoc_set_eq.
  - destruct (h !! l) as [c0 |]; [| trivial]. simpl.
    destruct (assoc k (cprops c0)); [trivial |].
    destruct (cproto c0); [apply IH | trivial].
Qed.

End WriteAlongChain.

(** Copying [source[k]] to [target[k]] changes no read of the source,
    even when the target is the source or one of its prototypes. *)
Lemma copy_preserves_reads h s t k v h' k' :
  get_prop h s k = Ok v -> set_prop h t k v = Ok h' ->
  get_prop h' s k' = get_prop h s k'.
Proof.
  intros Hget Hset.
  pose proof (set_prop_length _ _ _ _ _ Hset) as Hlen.
  apply set_prop_inv in Hset as (lt & ct & -> & Hlt & ->).
  destruct s as [| | | | | ls]; try reflexivity.
  unfold get_prop, chain in *. rewrite Hlen. f_equal.
  destruct (decide (k' = k)) as [-> | Hne].
  - injection Hget as Hget. rewrite Hget.
    by apply written_chain_get_eq.
  - f_equal. by apply written_chain_get_ne.
Qed.

(** A write of [k] adds at most [k] to what [for-in] enumerates. *)
Lemma write_forin_keys h s t k v h' k' :
  set_prop h t k v = Ok h' ->
  k' ∈ forin_keys h' s -> k' = k \/ k' ∈ forin_keys h s.
Proof.
  intros Hset.
  pose proof (set_prop_length _ _ _ _ _ Hset) as Hlen.
  apply set_prop_inv in Hset as (lt & ct & -> & Hlt & ->).
  destruct s as [| | | | | ls]; try (by right).
  rewrite !forin_keys_ref. unfold chain. rewrite Hlen.
  intros (c' & Hc' & Hk').
  destruct (written_chain_keys _ _ _ k v Hlt _ _ _ Hc') as (c & Hc & Hkeys).
  destruct (Hkeys _ Hk') as [-> | Hin]; [by left | right; eauto].
Qed.

(** ** The cycle guard test *)

Lemma indexOf_from_lower i a v : (indexOf_from i a v = -1 \/ i <= indexOf_from i a v)%Z.
Proof.
  revert i. induction a as [| x a IH]; intros i; simpl; [by left |].
  destruct (decide (x = v)); [right; lia |].
  destruct (IH (i + 1)%Z); [by left | right; lia].
Qed.

Lemma indexOf_from_absent i a v : (0 <= i)%Z -> indexOf_from i a v = (-1)%Z <-> v ∉ a.
Proof.
  revert i. induction a as [| x a IH]; intros i Hi; simpl.
  - split; [intros _; apply not_elem_of_nil | reflexivity].
  - rewrite not_elem_of_cons. destruct (decide (x = v)) as [-> | Hne].
    + split; [lia | tauto].
    + rewrite IH by lia. split; [auto | tauto].
Qed.

Lemma indexOf_absent a v : indexOf a v = (-1)%Z <-> v ∉ a.
Proof. apply indexOf_from_absent. lia. Qed.

Lemma guard_test clone v :
  negb (indexOf clone v =? -1)%Z = bool_decide (v ∈ clone).
Proof.
  destruct (indexOf clone v =? -1)%Z eqn:E; simpl; symmetry.
  - apply bool_decide_eq_false, indexOf_absent, Z.eqb_eq, E.
  - apply bool_decide_eq_true. apply Z.eqb_neq in E.
    destruct (decide (v ∈ clone)) as [| Hn]; [assumption |].
    by apply indexOf_absent in Hn.
Qed.

(** ** One key, when the engine has nothing to recurse into *)

Section DirectKey.

Variable rm : MixinArgs -> list cell -> result (value * list cell * list value).
Variable rc : value -> bool -> list cell -> result (value * list cell).

Lemma mixin_key_hidden kw clone s key h cp :
  inherited kw || hasOwnProperty h s key = false ->
  mixin_key rm rc kw clone s key (h, cp) = Ok (h, cp).
Proof. intros E. unfold mixin_key. by rewrite E. Qed.

Lemma mixin_key_direct kw clone s key h cp v :
  inherited kw || hasOwnProperty h s key = true ->
  get_prop h s key = Ok v ->
  v ∉ clone ->
  deep kw = false \/ (isArray h v = false /\ shouldDeepCopyObject h v = false) ->
  mixin_key rm rc kw clone s key (h, cp) =
    (let* h' := set_prop h (target kw) key v in Ok (h', cp)).
Proof.
  intros Hvis Hget Hclone Hflat. unfold mixin_key.
  rewrite Hvis, Hget. simpl. rewrite guard_test, bool_decide_eq_false_2 by done.
  destruct Hflat as [-> | [-> ->]]; [reflexivity |].
  destruct (deep kw); reflexivity.
Qed.

End DirectKey.

Lemma get_prop_total h s k :
  s ≠ VNull -> s ≠ VUndefined -> exists v, get_prop h s k = Ok v.
Proof. destruct s; simpl; intros; try congruence; eauto. Qed.

Lemma set_prop_has_own h t k v h' u k' :
  set_prop h t k v = Ok h' -> hasOwnProperty h u k' = true -> hasOwnProperty h' u k' = true.
Proof.
  intros Hset. destruct u as [| | | | | l]; try trivial. unfold hasOwnProperty.
  destruct (h !! l) as [c |] eqn:Hl; [| discriminate].
  rewrite bool_decide_eq_true. intros [x Hx].
  destruct (decide (VRef l = t /\ k' = k)) as [[<- ->] | Hne].
  - pose proof (set_prop_own_eq _ _ _ _ _ Hset) as Ho. unfold own_prop in Ho.
    destruct (h' !! l) as [c' |]; [| discriminate]. simpl in Ho.
    apply bool_decide_eq_true. eauto.
  - assert (Ho : own_prop h' (VRef l) k' = own_prop h (VRef l) k').
    { eapply set_prop_own_ne; [exact Hset |].
      destruct (decide (VRef l = t)); [right | left]; naive_solver. }
    unfold own_prop in Ho. rewrite Hl in Ho. simpl in Ho. rewrite Hx in Ho.
    destruct (h' !! l) as [c' |]; [| discriminate]. simpl in Ho.
    apply bool_decide_eq_true. eauto.
Qed.

(** ** A pass over one source without recursion

    This is every pass of the shallow merge, and a pass of a deep merge
    over a source that holds no array and no plain object. *)

Section DirectPass.

Variable rm : MixinArgs -> list cell -> result (value * list cell * list value).
Variable rc : value -> bool -> list cell -> result (value * list cell).
Variable kw : MixinArgs.
Variable s : value.
Hypothesis Hnull : s ≠ VNull.
Hypothesis Hundef : s ≠ VUndefined.

Local Abbreviation flat := (flat kw s).
Local Abbreviation copied_key := (copied_key kw s).
Local Abbreviation pass_invariant := (pass_invariant kw s).



Lemma direct_key key h cp v :
  flat h -> get_prop h s key = Ok v ->
  mixin_key rm rc kw [] s key (h, cp) =
    if inherited kw || hasOwnProperty h s key
    then (let* h' := set_prop h (target kw) key v in Ok (h', cp))
    else Ok (h, cp).
Proof.
  intros Hflat Hget.
  destruct (inherited kw || hasOwnProperty h s key) eqn:Hvis.
  - apply mixin_key_direct; [exact Hvis | exact Hget | apply not_elem_of_nil |].
    destruct Hflat as [? | Hflat]; [by left | right; eauto].
  - by apply mixin_key_hidden.
Qed.

(** What one key does to the state. *)
Lemma direct_key_inv key h cp st' :
  flat h -> mixin_key rm rc kw [] s key (h, cp) = Ok st' ->
  st' = (h, cp) \/
  exists v h', get_prop h s key = Ok v /\
    set_prop h (target kw) key v = Ok h' /\ st' = (h', cp).
Proof.
  intros Hflat H. destruct (get_prop_total h s key Hnull Hundef) as [v Hget].
  rewrite (direct_key _ _ _ _ Hflat Hget) in H.
  destruct (inherited kw || hasOwnProperty h s key).
  - inv_bind H. injection H as <-. right. eauto.
  - injection H as <-. by left.
Qed.

Lemma copy_preserves_flat h k v h' :
  get_prop h s k = Ok v -> set_prop h (target kw) k v = Ok h' ->
  flat h -> flat h'.
Proof.
  intros Hget Hset [Hd | Hflat]; [by left | right].
  intros k' v' Hget'.
  rewrite (copy_preserves_reads _ _ _ _ _ _ _ Hget Hset) in Hget'.
  rewrite (set_prop_isArray _ _ _ _ _ _ Hset).
  rewrite (set_prop_shouldDeepCopyObject _ _ _ _ _ _ Hset).
  eauto.
Qed.

Lemma copy_preserves_copied_key h k v h' k' :
  get_prop h s k = Ok v -> set_prop h (target kw) k v = Ok h' ->
  copied_key k' h -> copied_key k' h'.
Proof.
  intros Hget Hset (v' & Hget' & Hown). exists v'.
  rewrite (copy_preserves_reads _ _ _ _ _ _ _ Hget Hset). split; [exact Hget' |].
  destruct (decide (k' = k)) as [-> | Hne].
  - rewrite (set_prop_own_eq _ _ _ _ _ Hset). congruence.
  - rewrite (set_prop_own_ne _ _ _ _ _ _ k' Hset); [exact Hown | by right].
Qed.

Lemma copy_establishes_copied_key h k v h' :
  get_prop h s k = Ok v -> set_prop h (target kw) k v = Ok h' ->
  copied_key k h'.
Proof.
  intros Hget Hset. exists v.
  rewrite (copy_preserves_reads _ _ _ _ _ _ _ Hget Hset).
  split; [exact Hget | by eapply set_prop_own_eq].
Qed.


Lemma pass_invariant_init h0 cp0 ks : flat h0 -> pass_invariant h0 cp0 ks (h0, cp0).
Proof. intros Hflat. unfold pass_invariant. simpl. naive_solver. Qed.

Lemma pass_invariant_step h0 cp0 ks key st st' :
  key ∈ ks -> pass_invariant h0 cp0 ks st ->
  mixin_key rm rc kw [] s key st = Ok st' ->
  pass_invariant h0 cp0 ks st'.
Proof.
  destruct st as [h cp].
  intros Hkey (Hcp & Hflat & Hreads & Hkeys & Hcopied & Hown & Hdom) H.
  cbn [fst snd] in *.
  apply direct_key_inv in H; [| exact Hflat].
  destruct H as [-> | (v & h' & Hget & Hset & ->)].
  { unfold pass_invariant. simpl. naive_solver. }
  unfold pass_invariant. simpl. repeat split.
  - exact Hcp.
  - by eapply copy_preserves_flat.
  - intros k. rewrite (copy_preserves_reads _ _ _ _ _ _ _ Hget Hset). apply Hreads.
  - intros k Hk.
    destruct (write_forin_keys _ _ _ _ _ _ _ Hset Hk) as [-> | Hk'];
      [by right | by apply Hkeys].
  - intros k Hk. eapply copy_preserves_copied_key; eauto.
  - intros k Hk. eapply set_prop_has_own; eauto.
  - intros l Hl. apply Hdom in Hl.
    apply lookup_lt_is_Some. apply lookup_lt_is_Some in Hl.
    by rewrite (set_prop_length _ _ _ _ _ Hset).
Qed.

Lemma pass_preserves h0 cp0 ks st' :
  flat h0 ->
  foldM (mixin_key rm rc kw [] s) ks (h0, cp0) = Ok st' ->
  pass_invariant h0 cp0 ks st'.
Proof.
  intros Hflat H.
  eapply (foldM_invariant _ (pass_invariant h0 cp0 ks)); [| | exact H].
  - intros key st st1 Hkey HP Hstep. by eapply pass_invariant_step.
  - by apply pass_invariant_init.
Qed.

(** Every visible key of the pass ends up copied. *)
Lemma pass_copies ks : forall h0 cp0 st' k,
  flat h0 ->
  foldM (mixin_key rm rc kw [] s) ks (h0, cp0) = Ok st' ->
  k ∈ ks ->
  inherited kw = true \/ hasOwnProperty h0 s k = true ->
  copied_key k (fst st').
Proof.
  induction ks as [| key ks IH]; intros h0 cp0 st' k Hflat H Hk Hvis.
  { by apply elem_of_nil in Hk. }
  cbn [foldM] in H. inv_bind H. rename a into st1.
  assert (Hinv1 : pass_invariant h0 cp0 [key] st1).
  { eapply pass_invariant_step;
      [apply list_elem_of_here | by apply pass_invariant_init | exact Hm]. }
  destruct st1 as [h1 cp1].
  destruct Hinv1 as (Hcp & Hflat1 & Hreads & _ & Hcopied & Hown & _).
  cbn [fst snd] in *. subst cp1.
  destruct (decide (k = key)) as [-> | Hne].
  - assert (Hvis' : inherited kw || hasOwnProperty h0 s key = true).
    { destruct Hvis as [-> | ->]; [reflexivity | apply orb_true_r]. }
    destruct (get_prop_total h0 s key Hnull Hundef) as [v Hget].
    rewrite (direct_key _ _ _ _ Hflat Hget), Hvis' in Hm.
    inv_bind Hm. injection Hm as ->.
    assert (Hck : copied_key key h1) by (by eapply copy_establishes_copied_key).
    apply (pass_preserves _ _ _ _ Hflat1) in H.
    destruct H as (_ & _ & _ & _ & Hc & _). by apply Hc.
  - apply elem_of_cons in Hk as [? | Hk]; [done |].
    eapply IH; [exact Hflat1 | exact H | exact Hk |].
    destruct Hvis as [? | Ho]; [by left | right; by apply Hown].
Qed.

(** The pass goes through whenever the target is an object. *)
Lemma pass_total ks h0 cp0 lt :
  target kw = VRef lt -> is_Some (h0 !! lt) -> flat h0 ->
  exists st', foldM (mixin_key rm rc kw [] s) ks (h0, cp0) = Ok st'.
Proof.
  intros Ht Hlt Hflat.
  destruct (foldM_total (mixin_key rm rc kw [] s)
              (pass_invariant h0 cp0 ks) ks) with (s := (h0, cp0))
    as (st' & H & _); [| by apply pass_invariant_init | eauto].
  intros key [h cp] Hkey Hinv.
  destruct (get_prop_total h s key Hnull Hundef) as [v Hget].
  assert (Hstep : exists st1, mixin_key rm rc kw [] s key (h, cp) = Ok st1).
  { destruct Hinv as (_ & Hf & _ & _ & _ & _ & Hdom). cbn [fst snd] in *.
    rewrite (direct_key _ _ _ _ Hf Hget).
    destruct (inherited kw || hasOwnProperty h s key); [| eauto].
    rewrite Ht. destruct (set_prop_total h lt key v (Hdom _ Hlt)) as [h' ->].
    simpl. eauto. }
  destruct Hstep as [st1 Hstep]. exists st1. split; [exact Hstep |].
  by eapply pass_invariant_step.
Qed.

(** A state in which every enumerated key is already copied is a
    fixed point of the pass. *)
Lemma pass_fixed ks h cp :
  flat h -> (forall k, k ∈ ks -> copied_key k h) ->
  foldM (mixin_key rm rc kw [] s) ks (h, cp) = Ok (h, cp).
Proof.
  intros Hflat. induction ks as [| key ks IH]; intros Hall; [reflexivity |].
  cbn [foldM]. destruct (Hall key (list_elem_of_here _ _)) as (v & Hget & Hown).
  rewrite (direct_key _ _ _ _ Hflat Hget).
  destruct (inherited kw || hasOwnProperty h s key).
  - rewrite (set_prop_id _ _ _ _ Hown). simpl. apply IH.
    intros k Hk. apply Hall. by apply list_elem_of_further.
  - simpl. apply IH. intros k Hk. apply Hall. by apply list_elem_of_further.
Qed.

End DirectPass.

(** ** The loop over the sources *)

Lemma mixin_source_skipped rm rc kw clone s st :
  s = VNull \/ s = VUndefined -> mixin_source rm rc kw clone s st = Ok st.
Proof. by intros [-> | ->]. Qed.

Lemma mixin_source_entered rm rc kw clone s st :
  s ≠ VNull -> s ≠ VUndefined ->
  mixin_source rm rc kw clone s st =
    foldM (mixin_key rm rc kw clone s) (forin_keys (fst st) s) st.
Proof. by destruct s. Qed.

Lemma value_null_cases (s : value) :
  (s = VNull \/ s = VUndefined) \/ (s ≠ VNull /\ s ≠ VUndefined).
Proof. destruct s; naive_solver. Qed.

(** The engine reads only [deep], [inherited] and [target] of its
    arguments once the loop over the sources runs. *)
Lemma mixin_key_args rm rc kw kw' clone s key st :
  deep kw = deep kw' -> inherited kw = inherited kw' -> target kw = target kw' ->
  mixin_key rm rc kw clone s key st = mixin_key rm rc kw' clone s key st.
Proof. intros Hd Hi Ht. unfold mixin_key. by rewrite Hd, Hi, Ht. Qed.

Lemma foldM_ext {A S} (f g : A -> S -> result S) (l : list A) (s : S) :
  (forall a s, f a s = g a s) -> foldM f l s = foldM g l s.
Proof.
  intros Hfg. revert s. induction l as [| a l IH]; intros s; simpl; [reflexivity |].
  rewrite Hfg. destruct (g a s); simpl; [apply IH | reflexivity].
Qed.

Lemma mixin_source_args rm rc kw kw' clone s st :
  deep kw = deep kw' -> inherited kw = inherited kw' -> target kw = target kw' ->
  mixin_source rm rc kw clone s st = mixin_source rm rc kw' clone s st.
Proof.
  intros Hd Hi Ht. unfold mixin_source.
  destruct s; try reflexivity; apply foldM_ext; intros;
    by apply mixin_key_args.
Qed.

(** An entry point runs the loop from an empty [copied] array and
    returns its target. *)
Lemma entry_unfold n d i t srcs h :
  entry (S n) d i t srcs h =
    (let* (h', _) :=
       foldM (mixin_source (_mixin n) (copyArray n)
                {| deep := d; inherited := i; sources := srcs; target := t;
                   copied := None |} [])
             srcs (h, []) in
     Ok (t, h')).
Proof.
  unfold entry. cbn [_mixin]. unfold mixin_body. cbn [copied default sources target].
  match goal with |- context [foldM ?f srcs ?st] =>
    destruct (foldM f srcs st) as [[h' cp'] | e]; reflexivity end.
Qed.

(** ** Idempotence of the shallow merge *)

(** With the write of the model, a second [mixin] of the same source
    changes nothing. *)
Lemma mixin_twice (fuel : nat) (t s : value) (h h1 : list cell) (r : value) :
  mixin fuel t [s] h = Ok (r, h1) ->
  mixin fuel t [s] h1 = Ok (r, h1).
Proof.
  unfold mixin. destruct fuel as [| n]; [discriminate |].
  rewrite !entry_unfold. cbn [foldM].
  set (kw := {| deep := false; inherited := true; sources := [s];
                target := t; copied := None |}).
  destruct (value_null_cases s) as [Hs | [Hnull Hundef]].
  { rewrite !mixin_source_skipped by exact Hs. simpl. intros [= <- <-]. reflexivity. }
  rewrite !mixin_source_entered by assumption. cbn [fst].
  intros H. inv_bind H. destruct a as [h' cp']. inv_bind Hm.
  injection Hm as ->. injection H as <- <-. rename Hm0 into Hpass.
  assert (Hflat : flat kw s h) by (by left).
  pose proof (pass_preserves _ _ kw s Hnull Hundef _ _ _ _ Hflat Hpass)
    as (Hcp & Hflat' & _ & Hkeys & _).
  cbn [fst snd] in *. subst cp'.
  rewrite pass_fixed; [reflexivity | exact Hflat' |].
  intros k Hk.
  change h' with (fst (h', @nil value)).
  eapply pass_copies; [exact Hnull | exact Hundef | exact Hflat | exact Hpass | | by left].
  destruct (Hkeys k Hk); assumption.
Qed.

(** *** With the accessor

    As long as no key is [__proto__], the merge over the write of the
    host is the engine's [mixin]. *)

Lemma set_prop_host_plain op h t k x :
  k ≠ "__proto__" -> set_prop_host op h t k x = set_prop h t k x.
Proof. intros Hk. unfold set_prop_host. by rewrite bool_decide_eq_false_2. Qed.

Lemma mixin_key_host_plain rm rc op t s key srcs cpo h cp :
  key ≠ "__proto__" ->
  mixin_key rm rc {| deep := false; inherited := true; sources := srcs;
                     target := t; copied := cpo |} [] s key (h, cp) =
  (let* h' := mixin_key_host op true [] t s key h in Ok (h', cp)).
Proof.
  intros Hk. unfold mixin_key, mixin_key_host. cbn [inherited deep target orb].
  destruct (get_prop h s key) as [v | e]; cbn [bind]; [| reflexivity].
  rewrite guard_test, bool_decide_eq_false_2 by apply not_elem_of_nil.
  cbn [bind]. rewrite set_prop_host_plain by exact Hk.
  by destruct (set_prop h t key v).
Qed.

Lemma mixin_keys_host_plain rm rc op t s srcs cpo ks : forall h cp,
  "__proto__" ∉ ks ->
  foldM (mixin_key rm rc {| deep := false; inherited := true; sources := srcs;
                            target := t; copied := cpo |} [] s) ks (h, cp) =
  (let* h' := foldM (mixin_key_host op true [] t s) ks h in Ok (h', cp)).
Proof.
  induction ks as [| key ks IH]; intros h cp Hks; cbn [foldM]; [reflexivity |].
  apply not_elem_of_cons in Hks as [Hkey Hks].
  rewrite (mixin_key_host_plain rm rc op) by congruence.
  destruct (mixin_key_host op true [] t s key h) as [h' | e]; cbn [bind];
    [| reflexivity].
  by apply IH.
Qed.

Lemma mixin_host_plain (n : nat) op t s h :
  "__proto__" ∉ forin_keys h s ->
  mixin_host op t [s] h = mixin (S n) t [s] h.
Proof.
  intros Hks. unfold mixin, mixin_host. rewrite entry_unfold. cbn [foldM].
  destruct (value_null_cases s) as [Ha | [Hnull Hundef]].
  { rewrite mixin_source_skipped by exact Ha. by destruct Ha as [-> | ->]. }
  rewrite mixin_source_entered by assumption. cbn [fst].
  rewrite (mixin_keys_host_plain _ _ op) by exact Hks.
  unfold mixin_source_host.
  destruct s; try contradiction;
    by destruct (foldM _ _ h) as [h' | e].
Qed.

Lemma mixin_keeps_source_keys (n : nat) t s h h1 r k :
  mixin (S n) t [s] h = Ok (r, h1) ->
  k ∈ forin_keys h1 s -> k ∈ forin_keys h s.
Proof.
  unfold mixin. rewrite entry_unfold. cbn [foldM].
  set (kw := {| deep := false; inherited := true; sources := [s];
                target := t; copied := None |}).
  destruct (value_null_cases s) as [Ha | [Hnull Hundef]].
  { rewrite mixin_source_skipped by exact Ha. by intros [= _ <-]. }
  rewrite mixin_source_entered by assumption. cbn [fst].
  intros H. inv_bind H. destruct a as [h' cp']. inv_bind Hm.
  injection Hm as ->. injection H as _ <-. rename Hm0 into Hpass.
  assert (Hflat : flat kw s h) by (by left).
  pose proof (pass_preserves _ _ kw s Hnull Hundef _ _ _ _ Hflat Hpass)
    as (_ & _ & _ & Hkeys & _).
  cbn [fst] in Hkeys. intros Hk. by destruct (Hkeys k Hk).
Qed.


(** ** The heap only grows *)

Lemma map_items_shape (f : value -> list cell -> result (value * list cell)) items :
  (forall v h r h', f v h = Ok (r, h') -> length h <= length h') ->
  forall h items' h',
    map_items f items h = Ok (items', h') ->
    length h <= length h' /\ map fst items' = map fst items.
Proof.
  intros Hf. induction items as [| [k item] items IH]; intros h items' h' H;
    cbn [map_items] in H.
  - injection H as <- <-. split; [lia | reflexivity].
  - inv_bind H. destruct a as [item' h1]. inv_bind H. destruct a as [r' h2].
    injection H as <- <-. apply Hf in Hm. apply IH in Hm0 as [Hle Hkeys].
    split; [lia | simpl; by rewrite Hkeys].
Qed.

Section HeapGrows.

Variable rm : MixinArgs -> list cell -> result (value * list cell * list value).
Variable rc : value -> bool -> list cell -> result (value * list cell).
Hypothesis Hrm : mixin_keeps_cells rm.
Hypothesis Hrc : copyArray_keeps_cells rc.

Lemma nested_target_keeps_cells h tv t h1 :
  nested_target h tv = (t, h1) -> length h <= length h1.
Proof.
  unfold nested_target. destruct (truthy tv); intros [= <- <-]; [lia |].
  rewrite length_app. simpl. lia.
Qed.

Lemma copyArray_item_keeps_cells inh item h r h' :
  copyArray_item rm rc inh item h = Ok (r, h') -> length h <= length h'.
Proof.
  unfold copyArray_item.
  destruct (isArray h item); [apply Hrc |].
  destruct (negb (shouldDeepCopyObject h item)); [intros [= <- <-]; lia |].
  cbn [alloc]. intros H. inv_bind H. destruct a as [[r0 h2] cp2].
  injection H as <- <-. apply Hrm in Hm. rewrite length_app in Hm. simpl in Hm. lia.
Qed.

(** [copyArray] returns a reference to a cell it allocated last: an
    array with the indices of the original. *)
Lemma copyArray_body_shape a inh h r h' :
  copyArray_body rm rc a inh h = Ok (r, h') ->
  exists h1 items',
    r = VRef (length h1) /\ h' = h1 ++ [Cell KArray None items'] /\
    length h <= length h1 /\
    map fst items' = map fst (array_elements h a).
Proof.
  unfold copyArray_body. intros H. inv_bind H. destruct a0 as [items' h1].
  cbn [alloc] in H. injection H as <- <-.
  apply map_items_shape in Hm as [Hle Hkeys];
    [| intros; by eapply copyArray_item_keeps_cells].
  exists h1, items'. eauto.
Qed.

Lemma copyArray_body_keeps_cells : copyArray_keeps_cells (copyArray_body rm rc).
Proof.
  intros a i h r h' (h1 & items' & _ & -> & Hle & _)%copyArray_body_shape.
  rewrite length_app. simpl. lia.
Qed.

Lemma mixin_key_keeps_cells kw clone source key h cp h' cp' :
  mixin_key rm rc kw clone source key (h, cp) = Ok (h', cp') ->
  length h <= length h'.
Proof.
  unfold mixin_key.
  destruct (inherited kw || hasOwnProperty h source key); [| intros [= <- <-]; lia].
  intros H. inv_bind H. rename a into v.
  destruct (negb (indexOf clone v =? -1)%Z); [injection H as <- <-; lia |].
  inv_bind H. destruct a as [[v' h1] cp1]. inv_bind H. injection H as <- <-.
  apply set_prop_length in Hm1. rewrite Hm1.
  destruct (deep kw); [| injection Hm0 as <- <- <-; lia].
  destruct (isArray h v).
  - inv_bind Hm0. destruct a0 as [x h2]. injection Hm0 as <- <- <-.
    by eapply Hrc.
  - destruct (shouldDeepCopyObject h v); [| injection Hm0 as <- <- <-; lia].
    inv_bind Hm0. destruct (nested_target h a0) as [t h2] eqn:Hnt.
    apply nested_target_keeps_cells in Hnt. apply Hrm in Hm0. lia.
Qed.

Lemma mixin_body_keeps_cells : mixin_keeps_cells (mixin_body rm rc).
Proof.
  intros kw h r h' cp'. unfold mixin_body. intros H. inv_bind H.
  destruct a as [h1 cp1]. injection H as <- <- <-.
  set (cp0 := default [] (copied kw)) in *.
  set (P := fun st : list cell * list value => length h <= length (fst st)).
  assert (HP : P (h1, cp1)); [| exact HP].
  eapply (foldM_invariant _ P); [| | exact Hm]; [| unfold P; simpl; lia].
  intros s st st' _ Hst. unfold mixin_source.
  assert (Hkeys : forall ks, foldM (mixin_key rm rc kw cp0 s) ks st = Ok st' -> P st').
  { intros ks. apply foldM_invariant; [| exact Hst].
    intros key [h2 cp2] [h3 cp3] _ Hle Hkey. unfold P in *. cbn [fst] in *.
    apply mixin_key_keeps_cells in Hkey. lia. }
  destruct s; try apply Hkeys; by intros [= <-].
Qed.

End HeapGrows.

Lemma heap_grows (n : nat) :
  mixin_keeps_cells (_mixin n) /\ copyArray_keeps_cells (copyArray n).
Proof.
  induction n as [| n [IHm IHc]].
  { split; intros ? ? ? ? ?; discriminate. }
  split.
  - intros kw h r h' cp'. cbn [_mixin]. by apply mixin_body_keeps_cells.
  - intros a i h r h'. cbn [copyArray]. by apply copyArray_body_keeps_cells.
Qed.

Lemma filter_all {A} (P : A -> Prop) `{forall x, Decision (P x)} (l : list A) :
  Forall P l -> filter P l = l.
Proof.
  induction 1 as [| x l Hx _ IH]; [reflexivity |].
  rewrite filter_cons_True by exact Hx. by rewrite IH.
Qed.

Lemma index_keys_only (items items' : list (string * value)) :
  map fst items' = map fst items ->
  Forall (fun p => is_index_key (fst p) = true) items ->
  Forall (fun p => is_index_key (fst p) = true) items'.
Proof.
  revert items. induction items' as [| [k' x'] items' IH];
    intros [| [k x] items] Hkeys Hall; try discriminate; [constructor |].
  injection Hkeys as -> Hkeys. apply Forall_cons in Hall as [Hk Hall].
  constructor; [exact Hk | by eapply IH].
Qed.

Lemma array_elements_index_keys h a :
  Forall (fun p => is_index_key (fst p) = true) (array_elements h a).
Proof.
  unfold array_elements. destruct a; try constructor.
  destruct (h !! l); [| constructor].
  apply Forall_forall. intros x Hx. by apply list_elem_of_filter in Hx as [? _].
Qed.

(** Whenever [copyArray] returns, it returns a reference to an array
    that did not exist before, with the indices (hence the length) of
    the original. *)
Lemma copyArray_new_same_length (fuel : nat) (a : value) (inh : bool)
    (h h' : list cell) (r : value) :
  copyArray fuel a inh h = Ok (r, h') ->
  exists l, r = VRef l /\ h !! l = None /\ isArray h' r = true /\
    map fst (array_elements h' r) = map fst (array_elements h a) /\
    length (array_elements h' r) = length (array_elements h a).
Proof.
  destruct fuel as [| n]; [discriminate |]. cbn [copyArray].
  destruct (heap_grows n) as [Hm Hc].
  intros (h1 & items' & -> & -> & Hle & Hkeys)%(copyArray_body_shape _ _ Hm Hc).
  exists (length h1).
  assert (Hl : (h1 ++ [Cell KArray None items']) !! length h1
               = Some (Cell KArray None items')).
  { by rewrite lookup_app_r, Nat.sub_diag by lia. }
  assert (Helems : array_elements (h1 ++ [Cell KArray None items'])
                     (VRef (length h1)) = items').
  { unfold array_elements. rewrite Hl. cbn [cprops]. apply filter_all.
    eapply index_keys_only; [exact Hkeys | apply array_elements_index_keys]. }
  split; [reflexivity |]. split; [apply lookup_ge_None; lia |].
  split; [unfold isArray; by rewrite Hl |].
  rewrite Helems. split; [exact Hkeys |].
  by rewrite <- (length_map fst items'), Hkeys, length_map.
Qed.

(** Settles an example by running it at fuel [n]. *)
Ltac by_evaluation n :=
  eapply (entry_at_least n);
  [vm_compute; reflexivity | discriminate | assumption].

(** A closed heap has no key among a closed list of names. *)
Ltac not_among Hin :=
  repeat (apply elem_of_cons in Hin as [Hin | Hin]; [discriminate Hin |]);
  by apply elem_of_nil in Hin.

Ltac avoids_names :=
  let l := fresh "l" in
  let c := fresh "c" in
  let k := fresh "k" in
  let Hl := fresh "Hl" in
  let Hk := fresh "Hk" in
  let Hin := fresh "Hin" in
  intros l c k Hl Hk Hin;
  repeat (destruct l as [| l];
          [ vm_compute in Hl; injection Hl as <-;
            unfold own_keys in Hk; cbn [cprops map fst] in Hk;
            repeat (apply elem_of_cons in Hk as [-> | Hk]; [not_among Hin |]);
            by apply elem_of_nil in Hk |]);
  vm_compute in Hl; discriminate Hl.

(** * The claims on the engine *)

Local Open Scope string_scope.
Local Open Scope list_scope.

(** ** The cycle guard *)

Lemma shouldDeepCopyObject_not_array h v :
  shouldDeepCopyObject h v = true -> isArray h v = false.
Proof.
  destruct v as [| | | | | l]; try discriminate. simpl.
  destruct (h !! l) as [c |]; [| discriminate].
  rewrite bool_decide_eq_true. intros ->. reflexivity.
Qed.

(** ** The shared list only grows *)

Section CopiedGrows.

Variable rm : MixinArgs -> list cell -> result (value * list cell * list value).
Variable rc : value -> bool -> list cell -> result (value * list cell).
Hypothesis Hrm : returns_target_and_grows rm.

Lemma mixin_key_grows kw clone source key h cp h' cp' :
  mixin_key rm rc kw clone source key (h, cp) = Ok (h', cp') ->
  exists ext, cp' = cp ++ ext.
Proof.
  unfold mixin_key.
  destruct (inherited kw || hasOwnProperty h source key);
    [| intros [= <- <-]; exists []; by rewrite app_nil_r].
  intros H. inv_bind H. rename a into v.
  destruct (negb (indexOf clone v =? -1)%Z);
    [injection H as <- <-; exists []; by rewrite app_nil_r |].
  inv_bind H. destruct a as [[v' h1] cp1]. inv_bind H. injection H as <- <-.
  destruct (deep kw); [| injection Hm0 as <- <- <-; exists []; by rewrite app_nil_r].
  destruct (isArray h v).
  - inv_bind Hm0. destruct a0 as [x h2]. injection Hm0 as <- <- <-.
    exists []. by rewrite app_nil_r.
  - destruct (shouldDeepCopyObject h v);
      [| injection Hm0 as <- <- <-; exists []; by rewrite app_nil_r].
    inv_bind Hm0. destruct (nested_target h a0) as [t h2].
    apply Hrm in Hm0 as [_ [ext ->]]. simpl.
    exists (source :: ext). by rewrite <- app_assoc.
Qed.

Lemma mixin_body_grows : returns_target_and_grows (mixin_body rm rc).
Proof.
  intros kw h r h' cp'. unfold mixin_body. intros H. inv_bind H.
  destruct a as [h1 cp1]. injection H as <- <- <-. split; [reflexivity |].
  set (cp0 := default [] (copied kw)) in *.
  set (P := fun st : list cell * list value => exists ext, snd st = cp0 ++ ext).
  assert (HP : P (h1, cp1)); [| exact HP].
  eapply (foldM_invariant _ P); [| | exact Hm];
    [| exists []; by rewrite app_nil_r].
  intros s st st' _ Hst. unfold mixin_source.
  assert (Hkeys : forall ks, foldM (mixin_key rm rc kw cp0 s) ks st = Ok st' -> P st').
  { intros ks. apply foldM_invariant; [| exact Hst].
    intros key [h2 cp2] [h3 cp3] _ [ext Hext] Hkey. cbn [snd] in *. subst cp2.
    apply mixin_key_grows in Hkey as [ext' ->].
    exists (ext ++ ext'). by rewrite app_assoc. }
  destruct s; try apply Hkeys; by intros [= <-].
Qed.

End CopiedGrows.

Lemma _mixin_grows (n : nat) : returns_target_and_grows (_mixin n).
Proof.
  induction n as [| n IH]; [intros kw h r h' cp'; discriminate |].
  intros kw h r h' cp'. cbn [_mixin]. by apply mixin_body_grows.
Qed.


(** The guarded step on a plain-object value, as an equation. *)
Lemma mixin_key_plain_object rm rc kw clone source key h cp v tv :
  deep kw = true ->
  inherited kw || hasOwnProperty h source key = true ->
  get_prop h source key = Ok v ->
  shouldDeepCopyObject h v = true ->
  get_prop h (target kw) key = Ok tv ->
  mixin_key rm rc kw clone source key (h, cp) =
    if bool_decide (v ∈ clone) then Ok (h, cp)
    else
      let '(t, h1) := nested_target h tv in
      let* (r, h2, cp2) :=
        rm {| deep := true; inherited := inherited kw; sources := [v];
              target := t; copied := Some (cp ++ [source]) |} h1 in
      let* h3 := set_prop h2 (target kw) key r in
      Ok (h3, cp2).
Proof.
  intros Hdeep Hvis Hget Hplain Htv.
  unfold mixin_key. rewrite Hvis, Hget. cbn [bind]. rewrite guard_test.
  destruct (bool_decide (v ∈ clone)); [reflexivity |].
  rewrite Hdeep, (shouldDeepCopyObject_not_array _ _ Hplain), Hplain, Htv.
  cbn [bind]. destruct (nested_target h tv) as [t h1].
  destruct (rm _ h1) as [[[r h2] cp2] | e]; reflexivity.
Qed.



(** ** Termination *)

Lemma array_elements_head h l c k x rest :
  h !! l = Some c -> cprops c = (k, x) :: rest -> is_index_key k = true ->
  exists rest', array_elements h (VRef l) = (k, x) :: rest'.
Proof.
  intros Hl Hp Hk. unfold array_elements. rewrite Hl, Hp.
  rewrite filter_cons_True by exact Hk. eauto.
Qed.

(** An array whose first element is the array itself: [copyArray]
    calls itself on it again and again, whatever the fuel. *)
Lemma copyArray_self_member fuel l c k rest inh : forall h,
  h !! l = Some c -> ckind c = KArray -> cprops c = (k, VRef l) :: rest ->
  is_index_key k = true ->
  copyArray fuel (VRef l) inh h = Err OutOfFuel.
Proof.
  induction fuel as [| n IH]; intros h Hl Hkind Hprops Hk; [reflexivity |].
  cbn [copyArray]. unfold copyArray_body.
  destruct (array_elements_head _ _ _ _ _ _ Hl Hprops Hk) as [rest' ->].
  cbn [map_items]. unfold copyArray_item at 1.
  assert (Harr : isArray h (VRef l) = true).
  { simpl. rewrite Hl. by apply bool_decide_eq_true. }
  rewrite Harr, (IH h Hl Hkind Hprops Hk). reflexivity.
Qed.

Lemma cyclic_array_entry (n : nat) (i : bool) :
  entry n true i (VRef 0) [VRef 1] h_cyclic_array = Err OutOfFuel.
Proof.
  destruct n as [| n]; [reflexivity |].
  rewrite entry_unfold. cbn [foldM mixin_source fst bind].
  change (forin_keys h_cyclic_array (VRef 1)) with ["arr"].
  cbn [foldM]. unfold mixin_key. cbn [inherited deep target].
  change (hasOwnProperty h_cyclic_array (VRef 1) "arr") with true.
  change (get_prop h_cyclic_array (VRef 1) "arr") with (@Ok value (VRef 2)).
  rewrite orb_true_r. cbn [bind].
  rewrite guard_test, bool_decide_eq_false_2 by apply not_elem_of_nil.
  change (isArray h_cyclic_array (VRef 2)) with true. cbn iota.
  rewrite (copyArray_self_member n 2 (Cell KArray None [("0", VRef 2)]) "0" []);
    reflexivity.
Qed.

(** C2: the claim fails on the code for arrays.  [copyArray] has no
    cycle guard and starts every plain-object element with a fresh
    [copied] list, so a deep merge of a source that holds an array
    containing itself recurses without end: at every fuel the call is
    still running when the fuel is spent. *)
Theorem cyclic_array_never_returns (fuel : nat) :
  deepAssign fuel (VRef 0) [VRef 1] h_cyclic_array = Err OutOfFuel /\
  deepMixin fuel (VRef 0) [VRef 1] h_cyclic_array = Err OutOfFuel.
Proof. split; apply cyclic_array_entry. Qed.

(** The object case of the same question, the example of the
    specification: [a = {}; a.self = a; deepAssign({}, a)] returns, with
    [self] bound to a new empty object. *)
Lemma self_reference_returns (fuel : nat) :
  2 <= fuel ->
  deepAssign fuel (VRef 0) [VRef 1] h_self = Ok (VRef 0, h_self_deep).
Proof.
  intros Hf. unfold deepAssign. by_evaluation 2.
Qed.

(** The shallow merge never recurses, so one frame is all it needs. *)
Lemma bind_settled {A B} (m : result A) (f : A -> result B) :
  settled m -> (forall a, settled (f a)) -> settled (bind m f).
Proof.
  intros Hm Hf. destruct m as [a | e]; simpl; [apply Hf |].
  intros [= ->]. by apply Hm.
Qed.

Lemma foldM_settled {A S} (f : A -> S -> result S) (l : list A) :
  (forall a s, settled (f a s)) -> forall s, settled (foldM f l s).
Proof.
  intros Hf. induction l as [| a l IH]; intros s; simpl; [discriminate |].
  by apply bind_settled.
Qed.

Lemma get_prop_settled h v k : settled (get_prop h v k).
Proof. destruct v; discriminate. Qed.

Lemma set_prop_settled h v k x : settled (set_prop h v k x).
Proof. unfold set_prop. destruct v; try discriminate. destruct (h !! l); discriminate. Qed.

Lemma mixin_returns_or_throws (n : nat) (t : value) (srcs : list value) (h : list cell) :
  settled (mixin (S n) t srcs h).
Proof.
  unfold mixin. rewrite entry_unfold.
  apply bind_settled; [| intros [h' cp']; discriminate].
  apply foldM_settled. intros s [h0 cp0]. unfold mixin_source.
  assert (Hkey : forall key st,
    settled (mixin_key (_mixin n) (copyArray n)
               {| deep := false; inherited := true; sources := srcs;
                  target := t; copied := None |} [] s key st)).
  { intros key [h1 cp1]. unfold mixin_key. cbn [inherited deep target orb].
    apply bind_settled; [apply get_prop_settled |]. intros v.
    destruct (negb (indexOf [] v =? -1)%Z); [discriminate |]. cbn [bind].
    apply bind_settled; [apply set_prop_settled | discriminate]. }
  destruct s; try discriminate; by apply foldM_settled.
Qed.

(** On a target that is an object the shallow merge returns, whatever
    the sources. *)
Lemma mixin_returns (n : nat) (lt : nat) (srcs : list value) (h : list cell) :
  is_Some (h !! lt) ->
  exists h', mixin (S n) (VRef lt) srcs h = Ok (VRef lt, h').
Proof.
  intros Hlt. unfold mixin. rewrite entry_unfold.
  set (kw := {| deep := false; inherited := true; sources := srcs;
                target := VRef lt; copied := None |}).
  set (P := fun st : list cell * list value => is_Some (fst st !! lt)).
  destruct (foldM_total (mixin_source (_mixin n) (copyArray n) kw []) P srcs)
    with (s := (h, @nil value)) as ([h' cp'] & -> & _); [| exact Hlt | simpl; eauto].
  intros s [h0 cp0] _ Hst. unfold P in *. cbn [fst] in *.
  destruct (value_null_cases s) as [Hs | [Hnull Hundef]].
  { rewrite mixin_source_skipped by exact Hs. eauto. }
  rewrite mixin_source_entered by assumption. cbn [fst].
  assert (Hflat : flat kw s h0) by (by left).
  destruct (pass_total (_mixin n) (copyArray n) kw s Hnull Hundef
              (forin_keys h0 s) h0 cp0 lt eq_refl Hst Hflat) as [st' Hpass].
  exists st'. split; [exact Hpass |].
  pose proof (pass_preserves _ _ kw s Hnull Hundef _ _ _ _ Hflat Hpass)
    as (_ & _ & _ & _ & _ & _ & Hdom).
  by apply Hdom.
Qed.

(** ** The nested target *)

(** The nested target is chosen by truthiness alone. *)
Lemma nested_target_reuses h tv :
  truthy tv = true -> nested_target h tv = (tv, h).
Proof. intros H. unfold nested_target. by rewrite H. Qed.

Lemma nested_target_fresh h tv :
  truthy tv = false -> nested_target h tv = (VRef (length h), h ++ [empty_object]).
Proof. intros H. unfold nested_target. by rewrite H. Qed.

(** C3: the claim fails on the code.  [target[key] || {}] reuses whatever
    truthy value the target holds.  With [target = {x: [7]}] and
    [source = {x: {y: 1}}], the array is taken as the nested target:
    after the merge [target.x] is still that array and the array has
    gained the key [y].  With [target = {x: 5}] the number is taken and
    the write of [y] on it raises a TypeError. *)
Theorem existing_value_reused (fuel : nat) :
  2 <= fuel ->
  deepAssign fuel (VRef 0) [VRef 2] h_existing_array
    = Ok (VRef 0, h_existing_array_deep) /\
  deepAssign fuel (VRef 0) [VRef 1] h_existing_number = Err TypeError.
Proof.
  intros Hf. unfold deepAssign. split; by_evaluation 2.
Qed.

Lemma existing_value_reused_witness :
  deepAssign 2 (VRef 0) [VRef 2] h_existing_array
    = Ok (VRef 0, h_existing_array_deep) /\
  deepAssign 2 (VRef 0) [VRef 1] h_existing_number = Err TypeError.
Proof. exact (existing_value_reused 2 (le_n 2)). Defined.

(** ** Own and inherited keys *)

(** C4: for a source with the own key [a: 1] and a prototype that
    contributes [b: 2], [deepAssign({}, source)] leaves the target with
    [{a: 1}] and [deepMixin({}, source)] with [{a: 1, b: 2}]; the source
    and its prototype are as before. *)
Theorem own_vs_inherited (fuel : nat) :
  1 <= fuel ->
  deepAssign fuel (VRef 0) [VRef 1] h_proto = Ok (VRef 0, h_proto_assigned) /\
  deepMixin fuel (VRef 0) [VRef 1] h_proto = Ok (VRef 0, h_proto_mixed).
Proof.
  intros Hf. unfold deepAssign, deepMixin. split; by_evaluation 1.
Qed.

Lemma own_vs_inherited_witness :
  deepAssign 1 (VRef 0) [VRef 1] h_proto = Ok (VRef 0, h_proto_assigned) /\
  deepMixin 1 (VRef 0) [VRef 1] h_proto = Ok (VRef 0, h_proto_mixed).
Proof. exact (own_vs_inherited 1 (le_n 1)). Defined.

(** ** Deep and shallow *)

(** The shallow merge stores under every key it visits the very value
    the source holds: for a nested object, the same reference. *)
Lemma mixin_stores_same_value (fuel : nat) (t s : value) (h h' : list cell)
    (r : value) (k : string) :
  mixin fuel t [s] h = Ok (r, h') ->
  k ∈ forin_keys h s ->
  exists v, get_prop h s k = Ok v /\ own_prop h' t k = Some v.
Proof.
  unfold mixin. destruct fuel as [| n]; [discriminate |].
  rewrite entry_unfold. cbn [foldM].
  set (kw := {| deep := false; inherited := true; sources := [s];
                target := t; copied := None |}).
  destruct (value_null_cases s) as [Hs | [Hnull Hundef]].
  { intros _ Hk. destruct Hs as [-> | ->]; by apply elem_of_nil in Hk. }
  rewrite mixin_source_entered by assumption. cbn [fst].
  intros H Hk. inv_bind H. destruct a as [h1 cp1]. inv_bind Hm.
  injection Hm as ->. injection H as <- <-. rename Hm0 into Hpass.
  assert (Hflat : flat kw s h) by (by left).
  pose proof (pass_preserves _ _ kw s Hnull Hundef _ _ _ _ Hflat Hpass)
    as (_ & _ & Hreads & _).
  destruct (pass_copies _ _ kw s Hnull Hundef _ _ _ _ k Hflat Hpass Hk)
    as (v & Hget & Hown); [by left |].
  cbn [fst] in *. exists v. by rewrite <- Hreads.
Qed.

(** A deep merge stores, for a plain object under a key the target
    holds nothing for, a reference to an object created by the call,
    never the reference the source holds. *)
Lemma deep_key_new_object (n : nat) kw clone source key h cp v tv h' cp' :
  deep kw = true ->
  inherited kw || hasOwnProperty h source key = true ->
  get_prop h source key = Ok v ->
  shouldDeepCopyObject h v = true ->
  v ∉ clone ->
  get_prop h (target kw) key = Ok tv ->
  truthy tv = false ->
  mixin_key (_mixin n) (copyArray n) kw clone source key (h, cp) = Ok (h', cp') ->
  own_prop h' (target kw) key = Some (VRef (length h)) /\
  h !! length h = None /\
  v ≠ VRef (length h).
Proof.
  intros Hdeep Hvis Hget Hplain Hclone Htv Hfalsy.
  rewrite (mixin_key_plain_object _ _ _ _ _ _ _ _ _ _ Hdeep Hvis Hget Hplain Htv).
  rewrite bool_decide_eq_false_2 by exact Hclone.
  rewrite (nested_target_fresh _ _ Hfalsy).
  intros H. inv_bind H. destruct a as [[r h2] cp2]. inv_bind H.
  injection H as <- <-.
  apply _mixin_grows in Hm as [-> _]. cbn [target] in Hm0.
  assert (Hnone : h !! length h = None) by (apply lookup_ge_None; lia).
  split; [by eapply set_prop_own_eq |]. split; [exact Hnone |].
  intros ->. simpl in Hplain. by rewrite Hnone in Hplain.
Qed.

(** C5: for [source = {x: {y: 1}}], [mixin({}, source)] stores under
    [x] the very reference the source holds, while
    [deepAssign({}, source)] stores a reference to an object that did
    not exist before (location 3), different from [source.x] (location
    2), whose content equals that of [source.x]. *)
Theorem deep_vs_shallow (fuel : nat) :
  2 <= fuel ->
  (mixin fuel (VRef 0) [VRef 1] h_nested = Ok (VRef 0, h_nested_shallow) /\
   own_prop h_nested_shallow (VRef 0) "x" = own_prop h_nested (VRef 1) "x") /\
  (deepAssign fuel (VRef 0) [VRef 1] h_nested = Ok (VRef 0, h_nested_deep) /\
   own_prop h_nested_deep (VRef 0) "x" = Some (VRef 3) /\
   own_prop h_nested (VRef 1) "x" = Some (VRef 2) /\
   h_nested !! 3 = None /\
   h_nested_deep !! 3 = h_nested !! 2 /\
   h_nested_deep !! 3 = Some (Cell KObject None [("y", VNum 1)])).
Proof.
  intros Hf. unfold deepAssign, mixin.
  split; (split; [by_evaluation 2 | repeat split]).
Qed.

Lemma deep_vs_shallow_witness :
  mixin 2 (VRef 0) [VRef 1] h_nested = Ok (VRef 0, h_nested_shallow) /\
  deepAssign 2 (VRef 0) [VRef 1] h_nested = Ok (VRef 0, h_nested_deep).
Proof.
  destruct (deep_vs_shallow 2 (le_n 2)) as [[Hs _] [Hd _]].
  exact (conj Hs Hd).
Defined.

(** ** Sequences *)

(** C7: for [source = {arr: [{v: 1}, [2, 3]]}] a deep merge stores
    under [arr] an array that did not exist before (location 7), of the
    same length, whose first element is a new object (location 5) equal
    in content to [{v: 1}] and whose second element is a new array
    (location 6) holding [2, 3]; the source is as before. *)
Theorem sequence_cloned (fuel : nat) :
  3 <= fuel ->
  deepAssign fuel (VRef 0) [VRef 1] h_sequence = Ok (VRef 0, h_sequence_deep) /\
  deepMixin fuel (VRef 0) [VRef 1] h_sequence = Ok (VRef 0, h_sequence_deep) /\
  own_prop h_sequence_deep (VRef 0) "arr" = Some (VRef 7) /\
  h_sequence !! 7 = None /\
  isArray h_sequence_deep (VRef 7) = true /\
  length (array_elements h_sequence_deep (VRef 7)) =
    length (array_elements h_sequence (VRef 2)) /\
  array_elements h_sequence_deep (VRef 7) = [("0", VRef 5); ("1", VRef 6)] /\
  h_sequence !! 5 = None /\
  h_sequence_deep !! 5 = h_sequence !! 3 /\
  h_sequence !! 6 = None /\
  h_sequence_deep !! 6 = h_sequence !! 4 /\
  skipn 1 (firstn 5 h_sequence_deep) = skipn 1 h_sequence.
Proof.
  intros Hf. unfold deepAssign, deepMixin.
  split; [by_evaluation 3 |]. split; [by_evaluation 3 |].
  repeat split.
Qed.

Lemma sequence_cloned_witness :
  deepAssign 3 (VRef 0) [VRef 1] h_sequence = Ok (VRef 0, h_sequence_deep).
Proof. exact (proj1 (sequence_cloned 3 (le_n 3))). Defined.

(** ** Sources *)

(** The shallow merge writes to the target object and to nothing else. *)
Lemma mixin_frame (fuel : nat) (lt : nat) (srcs : list value)
    (h h' : list cell) (r : value) :
  mixin fuel (VRef lt) srcs h = Ok (r, h') ->
  r = VRef lt /\ length h' = length h /\
  forall l, l ≠ lt -> h' !! l = h !! l.
Proof.
  unfold mixin. destruct fuel as [| n]; [discriminate |].
  rewrite entry_unfold. intros H. inv_bind H. destruct a as [h1 cp1].
  injection H as <- <-. split; [reflexivity |].
  set (kw := {| deep := false; inherited := true; sources := srcs;
                target := VRef lt; copied := None |}) in *.
  set (P := fun st : list cell * list value =>
              length (fst st) = length h /\
              forall l, l ≠ lt -> fst st !! l = h !! l).
  assert (HP : P (h1, cp1)).
  { eapply (foldM_invariant _ P); [| | exact Hm]; [| by split].
    intros s st st' _ Hst. destruct (value_null_cases s) as [Hs | [Hnull Hundef]].
    { rewrite mixin_source_skipped by exact Hs. by intros [= <-]. }
    rewrite mixin_source_entered by assumption.
    apply foldM_invariant; [| exact Hst].
    intros key [h2 cp2] st2 _ [Hlen Hfr] Hkey. cbn [fst] in *.
    apply direct_key_inv in Hkey; [| assumption | assumption | by left].
    destruct Hkey as [-> | (v & h3 & _ & Hset & ->)]; [by split |].
    apply set_prop_inv in Hset as (l0 & c & [= <-] & Hl0 & ->).
    split; cbn [fst].
    - by rewrite length_insert.
    - intros l Hl. rewrite list_lookup_insert_ne by congruence. by apply Hfr. }
  exact HP.
Qed.

(** C8: the claim fails on the code, by the defect of C3.  With
    [f = function () {}], [a = {k: f}] and [b = {k: {y: 1}}],
    [deepAssign({}, f, a, b)] first stores [f] itself under [k] (from
    [a]), then takes it as the nested target for [b]: the source [f] has
    gained the key [y].  The same happens to [f], as a value of the
    source [a], when it is not itself listed as a source. *)
Theorem source_value_mutated (fuel : nat) :
  2 <= fuel ->
  deepAssign fuel (VRef 0) [VRef 2; VRef 1; VRef 3] h_opaque
    = Ok (VRef 0, h_opaque_deep) /\
  deepAssign fuel (VRef 0) [VRef 1; VRef 3] h_opaque
    = Ok (VRef 0, h_opaque_deep) /\
  own_prop h_opaque (VRef 1) "k" = Some (VRef 2) /\
  h_opaque !! 2 = Some (Cell KOther None []) /\
  h_opaque_deep !! 2 = Some (Cell KOther None [("y", VNum 1)]).
Proof.
  intros Hf. unfold deepAssign.
  split; [by_evaluation 2 |]. split; [by_evaluation 2 | repeat split].
Qed.

Lemma source_value_mutated_witness :
  deepAssign 2 (VRef 0) [VRef 2; VRef 1; VRef 3] h_opaque
    = Ok (VRef 0, h_opaque_deep).
Proof. exact (proj1 (source_value_mutated 2 (le_n 2))). Defined.

(** ** Collisions *)




(** * Further properties *)

(** ** partial *)

(** X1: the function that [partial] returns calls the target function with
    the supplied arguments followed by the call's own arguments, on the
    receiver of the call: [partial(f, 1, 2)(3, 4)] is [f(1, 2, 3, 4)],
    and with no argument at all it is [f(1, 2)]. *)
Theorem partial_prepends {T A R : Type} (f : T -> list A -> R)
    (suppliedArgs : list A) (this : T) (arguments : list A) :
  partial f suppliedArgs this arguments = f this (suppliedArgs ++ arguments).
Proof.
  unfold partial. destruct arguments as [| a r]; simpl; [| reflexivity].
  by rewrite app_nil_r.
Qed.

(** X2: partial application nests: binding [a] and then [b] is binding
    [a] followed by [b] at once, [partial(partial(f, ...a), ...b)]
    behaves as [partial(f, ...a, ...b)] on every receiver and every
    argument list; and binding nothing changes nothing. *)
Theorem partial_nests {T A R : Type} (f : T -> list A -> R)
    (a b : list A) (this : T) (arguments : list A) :
  partial (partial f a) b this arguments = partial f (a ++ b) this arguments /\
  partial f [] this arguments = f this arguments.
Proof.
  unfold partial. split; [| by destruct arguments].
  destruct arguments as [| x r], b as [| y b']; simpl;
    rewrite ?app_nil_r, <- ?app_assoc; reflexivity.
Qed.

(** ** Absent sources *)

Lemma is_absent_spec s : is_absent s = true <-> s = VNull \/ s = VUndefined.
Proof.
  destruct s; simpl; split; try discriminate; auto;
    intros [H | H]; discriminate.
Qed.

Lemma foldM_sources_absent rm rc kw kw' clone srcs : forall st,
  deep kw = deep kw' -> inherited kw = inherited kw' -> target kw = target kw' ->
  foldM (mixin_source rm rc kw clone) srcs st =
  foldM (mixin_source rm rc kw' clone)
        (filter (fun s => is_absent s = false) srcs) st.
Proof.
  induction srcs as [| s srcs IH]; intros st Hd Hi Ht; [reflexivity |].
  destruct (is_absent s) eqn:Hs.
  - rewrite filter_cons_False by (rewrite Hs; discriminate).
    cbn [foldM]. rewrite mixin_source_skipped by (by apply is_absent_spec).
    cbn [bind]. by apply IH.
  - rewrite filter_cons_True by exact Hs. cbn [foldM].
    rewrite (mixin_source_args _ _ kw kw') by assumption.
    destruct (mixin_source rm rc kw' clone s st) as [st' | e]; [| reflexivity].
    cbn [bind]. by apply IH.
Qed.

(** X3: [null] and [undefined] sources are skipped: for each of the
    three entry points, at every fuel, dropping the absent entries from
    the list of sources changes neither the outcome nor the heap. *)
Theorem absent_sources_skipped (fuel : nat) (d i : bool) (t : value)
    (srcs : list value) (h : list cell) :
  entry fuel d i t srcs h =
  entry fuel d i t (filter (fun s => is_absent s = false) srcs) h.
Proof.
  destruct fuel as [| n]; [reflexivity |].
  rewrite !entry_unfold. by erewrite foldM_sources_absent.
Qed.

(** ** The shallow merge, source by source *)

Lemma shallow_sources_copied rm rc kw srcs : forall st st',
  deep kw = false ->
  foldM (mixin_source rm rc kw []) srcs st = Ok st' -> snd st' = snd st.
Proof.
  intros st st' Hd H.
  eapply (foldM_invariant _ (fun x => snd x = snd st)); [| reflexivity | exact H].
  intros s [h0 cp0] st1 _ Hcp Hs. cbn [snd] in Hcp. subst cp0.
  destruct (value_null_cases s) as [Ha | [Hnull Hundef]].
  { rewrite mixin_source_skipped in Hs by exact Ha. by injection Hs as <-. }
  rewrite mixin_source_entered in Hs by assumption.
  apply pass_preserves in Hs as (Hcp & _); [exact Hcp | assumption.. | by left].
Qed.

(** X4: the shallow merge composes: merging the sources [s1] followed
    by [s2] in one call of [mixin] is merging [s1], then merging [s2]
    into the target that call returned, outcome and heap alike
    (TypeErrors included). *)
Theorem mixin_composes (fuel : nat) (t : value) (s1 s2 : list value)
    (h : list cell) :
  mixin fuel t (s1 ++ s2) h =
  (let* (r, h1) := mixin fuel t s1 h in mixin fuel r s2 h1).
Proof.
  unfold mixin. destruct fuel as [| n]; [reflexivity |].
  rewrite !entry_unfold, foldM_app.
  set (kw := {| deep := false; inherited := true; sources := s1 ++ s2;
                target := t; copied := None |}).
  set (kw1 := {| deep := false; inherited := true; sources := s1;
                 target := t; copied := None |}).
  set (kw2 := {| deep := false; inherited := true; sources := s2;
                 target := t; copied := None |}).
  rewrite (foldM_ext (mixin_source (_mixin n) (copyArray n) kw [])
                     (mixin_source (_mixin n) (copyArray n) kw1 []))
    by (intros; by apply mixin_source_args).
  destruct (foldM (mixin_source (_mixin n) (copyArray n) kw1 []) s1 (h, []))
    as [[h1 cp1] | e] eqn:H1; [| reflexivity].
  apply shallow_sources_copied in H1 as Hcp; [| reflexivity].
  cbn [snd] in Hcp. subst cp1. cbn [bind]. rewrite entry_unfold.
  by rewrite (foldM_ext (mixin_source (_mixin n) (copyArray n) kw [])
                        (mixin_source (_mixin n) (copyArray n) kw2 []))
    by (intros; by apply mixin_source_args).
Qed.

(** X5: the deep merge does not compose that way.  The [copied] list
    of a call carries over from one source to the next, so a structure
    nested in a later source is skipped when it is an earlier source
    that held a plain object.  With [a = {k: {z: 1}}] and
    [b = {m: {back: a}}], [deepAssign({}, a, b)] leaves [m] empty,
    while [deepAssign(deepAssign({}, a), b)] leaves under [m.back] a
    copy of [a]. *)
Theorem deepAssign_sources_interfere (fuel : nat) :
  4 <= fuel ->
  deepAssign fuel (VRef 0) [VRef 1; VRef 3] h_unrelated
    = Ok (VRef 0, h_unrelated_together) /\
  (let* (r, h1) := deepAssign fuel (VRef 0) [VRef 1] h_unrelated in
   deepAssign fuel r [VRef 3] h1)
    = Ok (VRef 0, h_unrelated_in_turn) /\
  own_prop h_unrelated_together (VRef 0) "m" = Some (VRef 6) /\
  own_prop h_unrelated_together (VRef 6) "back" = None /\
  own_prop h_unrelated_in_turn (VRef 0) "m" = Some (VRef 6) /\
  own_prop h_unrelated_in_turn (VRef 6) "back" = Some (VRef 7).
Proof.
  intros Hf. unfold deepAssign. split; [by_evaluation 4 |].
  split; [| repeat split].
  rewrite (entry_at_least 2 fuel true false (VRef 0) [VRef 1] h_unrelated
             (Ok (VRef 0, h_unrelated_first)));
    [| vm_compute; reflexivity | discriminate | lia].
  cbn [bind]. by_evaluation 4.
Qed.

Lemma deepAssign_sources_interfere_witness :
  deepAssign 4 (VRef 0) [VRef 1; VRef 3] h_unrelated
    = Ok (VRef 0, h_unrelated_together) /\
  (let* (r, h1) := deepAssign 4 (VRef 0) [VRef 1] h_unrelated in
   deepAssign 4 r [VRef 3] h1)
    = Ok (VRef 0, h_unrelated_in_turn).
Proof.
  destruct (deepAssign_sources_interfere 4 (le_n 4)) as (H1 & H2 & _).
  exact (conj H1 H2).
Defined.

(** X6: the shallow merge writes to the target object and to nothing
    else: when [mixin] returns it returns its target, no cell was added
    or removed, and every cell other than the target's is as before
    (the sources among them, when the target is not one of them). *)
Theorem mixin_writes_target_only (fuel : nat) (lt : nat) (srcs : list value)
    (h h' : list cell) (r : value) :
  mixin fuel (VRef lt) srcs h = Ok (r, h') ->
  r = VRef lt /\ length h' = length h /\
  forall l, l ≠ lt -> h' !! l = h !! l.
Proof. apply mixin_frame. Qed.

Lemma mixin_writes_target_only_witness :
  mixin 1 (VRef 0) [VRef 1] h_proto = Ok (VRef 0, h_proto_mixed) /\
  VRef 0 = VRef 0 /\ length h_proto_mixed = length h_proto /\
  forall l, l ≠ 0 -> h_proto_mixed !! l = h_proto !! l.
Proof.
  assert (H : mixin 1 (VRef 0) [VRef 1] h_proto = Ok (VRef 0, h_proto_mixed))
    by reflexivity.
  exact (conj H (mixin_writes_target_only 1 0 [VRef 1] h_proto h_proto_mixed
                   (VRef 0) H)).
Defined.

(** X7: on a target that is a plain object or an array, with no
    function or other exotic object among its prototypes, the shallow
    merge always returns, whatever the sources, as long as every key it
    copies is written plainly (no source has the enumerable key
    [__proto__], nor [length] when the target is an array).  One stack
    frame is enough: it raises nothing and never recurses. *)
Theorem mixin_object_target_returns (n : nat) (lt : nat) (srcs : list value)
    (h : list cell) (ct : cell) :
  h !! lt = Some ct ->
  Forall (fun c => ckind c <> KOther) (chain h lt) ->
  (forall s k, s ∈ srcs -> k ∈ forin_keys h s ->
     plain_write (ckind ct) k = true) ->
  exists h', mixin (S n) (VRef lt) srcs h = Ok (VRef lt, h').
Proof. intros Hl _ _. apply mixin_returns. eauto. Qed.

Lemma mixin_object_target_returns_witness :
  exists h', mixin 1 (VRef 0) [VRef 1; VNull; VRef 2] h_proto = Ok (VRef 0, h').
Proof.
  apply (mixin_object_target_returns 0 0 [VRef 1; VNull; VRef 2] h_proto
           (Cell KObject None [])).
  - reflexivity.
  - vm_compute. repeat constructor. discriminate.
  - intros s k Hs Hk.
    apply elem_of_cons in Hs as [-> | Hs];
      [vm_compute in Hk;
       repeat (apply elem_of_cons in Hk as [-> | Hk]; [reflexivity |]);
       by apply elem_of_nil in Hk |].
    apply elem_of_cons in Hs as [-> | Hs];
      [vm_compute in Hk; by apply elem_of_nil in Hk |].
    apply elem_of_cons in Hs as [-> | Hs];
      [vm_compute in Hk;
       repeat (apply elem_of_cons in Hk as [-> | Hk]; [reflexivity |]);
       by apply elem_of_nil in Hk |].
    by apply elem_of_nil in Hs.
Defined.

(** X8: a target that is not an object makes the merge raise a
    TypeError as soon as the first source that is not absent has a key
    to copy, when that key is not [__proto__] ([target[key] = value] on
    [null], [undefined] or, the module being strict-mode code, a
    primitive; a write of [__proto__] on a primitive goes to the
    accessor, which ignores it).  With nothing to copy the same call
    returns its target. *)
Theorem mixin_primitive_target_throws (n : nat) (t s : value) (rest : list value)
    (h : list cell) (k : string) (ks : list string) :
  (forall l, t ≠ VRef l) ->
  is_absent s = false ->
  forin_keys h s = k :: ks ->
  k ≠ "__proto__" ->
  mixin (S n) t (s :: rest) h = Err TypeError /\
  mixin (S n) t [] h = Ok (t, h).
Proof.
  intros Ht Hs Hk _. split; [| reflexivity].
  unfold mixin. rewrite entry_unfold. cbn [foldM].
  assert (Hnull : s ≠ VNull) by (by destruct s).
  assert (Hundef : s ≠ VUndefined) by (by destruct s).
  rewrite mixin_source_entered by assumption. cbn [fst]. rewrite Hk.
  cbn [foldM]. unfold mixin_key at 1. cbn [inherited deep target orb].
  destruct (get_prop_total h s k Hnull Hundef) as [v ->]. cbn [bind].
  rewrite guard_test, bool_decide_eq_false_2 by apply not_elem_of_nil.
  cbn [bind].
  assert (Hset : set_prop h t k v = Err TypeError).
  { destruct t; try reflexivity. by destruct (Ht l). }
  rewrite Hset. reflexivity.
Qed.

Lemma mixin_primitive_target_throws_witness :
  mixin 1 VNull [VRef 1; VRef 2] h_proto = Err TypeError /\
  mixin 1 VNull [] h_proto = Ok (VNull, h_proto).
Proof.
  apply (mixin_primitive_target_throws 0 VNull (VRef 1) [VRef 2] h_proto
           "a"%string ["b"%string]).
  - discriminate.
  - reflexivity.
  - reflexivity.
  - discriminate.
Defined.

(** ** Sources that hold nothing to recurse into *)

Lemma flat_pass_any_depth rm rc kwd kws s ks : forall h cp,
  s ≠ VNull -> s ≠ VUndefined ->
  inherited kwd = inherited kws -> target kwd = target kws ->
  deep kws = false ->
  flat kwd s h ->
  foldM (mixin_key rm rc kwd [] s) ks (h, cp) =
  foldM (mixin_key rm rc kws [] s) ks (h, cp).
Proof.
  induction ks as [| key ks IH]; intros h cp Hnull Hundef Hi Ht Hd Hflat;
    [reflexivity |].
  cbn [foldM]. destruct (get_prop_total h s key Hnull Hundef) as [v Hget].
  rewrite (direct_key rm rc kwd s key h cp v Hflat Hget).
  rewrite (direct_key rm rc kws s key h cp v (or_introl Hd) Hget).
  rewrite Hi, Ht.
  destruct (inherited kws || hasOwnProperty h s key); cbn [bind];
    [| by apply IH].
  destruct (set_prop h (target kws) key v) as [h' |] eqn:Hset; [| reflexivity].
  cbn [bind]. apply IH; try assumption.
  rewrite <- Ht in Hset. by eapply copy_preserves_flat.
Qed.

(** X9: on a source that holds neither arrays nor plain objects the
    deep merge is the shallow merge with the same visibility: outcome
    and heap are those of the engine run with [deep] off. *)
Theorem deep_is_shallow_on_scalars (n : nat) (i : bool) (t s : value)
    (h : list cell) :
  (forall k v, get_prop h s k = Ok v ->
     isArray h v = false /\ shouldDeepCopyObject h v = false) ->
  entry (S n) true i t [s] h = entry (S n) false i t [s] h.
Proof.
  intros Hscalar. rewrite !entry_unfold. cbn [foldM].
  destruct (value_null_cases s) as [Ha | [Hnull Hundef]].
  { by rewrite !mixin_source_skipped by exact Ha. }
  rewrite !mixin_source_entered by assumption. cbn [fst].
  rewrite (flat_pass_any_depth _ _ _
             {| deep := false; inherited := i; sources := [s]; target := t;
                copied := None |}); try done.
  by right.
Qed.

Lemma deep_is_shallow_on_scalars_witness :
  entry 1 true true (VRef 0) [VRef 1] h_proto
  = entry 1 false true (VRef 0) [VRef 1] h_proto.
Proof.
  apply (deep_is_shallow_on_scalars 0 true (VRef 0) (VRef 1) h_proto).
  intros k v. unfold get_prop, chain. simpl.
  destruct (decide (k = "a")); [intros [= <-]; by split |].
  destruct (decide (k = "b")); intros [= <-]; by split.
Defined.

Lemma set_prop_hasOwnProperty_ne h t key v h' u k :
  set_prop h t key v = Ok h' -> key ≠ k ->
  hasOwnProperty h' u k = hasOwnProperty h u k.
Proof.
  intros Hset Hne. destruct u as [| | | | | l]; try reflexivity.
  pose proof (set_prop_own_ne _ _ _ _ _ (VRef l) k Hset (or_intror (not_eq_sym Hne)))
    as Ho.
  pose proof (set_prop_length _ _ _ _ _ Hset) as Hlen.
  unfold own_prop, hasOwnProperty in *.
  destruct (h !! l) as [c |] eqn:Hl, (h' !! l) as [c' |] eqn:Hl'; simpl in Ho.
  - by rewrite Ho.
  - apply lookup_lt_Some in Hl. apply lookup_ge_None in Hl'. lia.
  - apply lookup_lt_Some in Hl'. apply lookup_ge_None in Hl. lia.
  - reflexivity.
Qed.

(** The keys a pass without recursion leaves alone. *)
Lemma pass_leaves_key rm rc kw s ks k : forall h cp st',
  s ≠ VNull -> s ≠ VUndefined ->
  flat kw s h ->
  k ∉ ks \/ (inherited kw = false /\ hasOwnProperty h s k = false) ->
  foldM (mixin_key rm rc kw [] s) ks (h, cp) = Ok st' ->
  own_prop (fst st') (target kw) k = own_prop h (target kw) k.
Proof.
  induction ks as [| key ks IH]; intros h cp st' Hnull Hundef Hflat Hk H.
  { by injection H as <-. }
  cbn [foldM] in H. inv_bind H. rename a into st1.
  destruct (get_prop_total h s key Hnull Hundef) as [v Hget].
  rewrite (direct_key rm rc kw s key h cp v Hflat Hget) in Hm.
  assert (Hrest : forall h1, flat kw s h1 ->
            hasOwnProperty h1 s k = hasOwnProperty h s k ->
            foldM (mixin_key rm rc kw [] s) ks (h1, cp) = Ok st' ->
            own_prop (fst st') (target kw) k = own_prop h1 (target kw) k).
  { intros h1 Hflat1 Hown1. apply IH; try assumption.
    destruct Hk as [Hk | [Hi Hown]]; [left | right].
    - intros Hin. apply Hk. by apply list_elem_of_further.
    - by rewrite Hown1. }
  destruct (inherited kw || hasOwnProperty h s key) eqn:Hvis.
  - inv_bind Hm. injection Hm as <-. rename a into h1.
    assert (Hne : key ≠ k).
    { destruct Hk as [Hk | [Hi Hown]].
      - intros ->. apply Hk, list_elem_of_here.
      - intros ->. rewrite Hi, Hown in Hvis. discriminate. }
    rewrite (Hrest h1); [| by eapply copy_preserves_flat
                         | by eapply set_prop_hasOwnProperty_ne | exact H].
    eapply set_prop_own_ne; [exact Hm0 | by right].
  - injection Hm as <-. by apply Hrest.
Qed.



(** ** copyArray *)



Lemma map_items_unchanged (f : value -> list cell -> result (value * list cell))
    items h :
  (forall k x, (k, x) ∈ items -> f x h = Ok (x, h)) ->
  map_items f items h = Ok (items, h).
Proof.
  induction items as [| [k x] items IH]; intros Hf; [reflexivity |].
  cbn [map_items]. rewrite (Hf k x) by apply list_elem_of_here. cbn [bind].
  rewrite IH; [reflexivity |].
  intros k' x' Hin. apply (Hf k'). by apply list_elem_of_further.
Qed.



(** ** What the engine never does *)

Lemma heap_kept_refl h : heap_kept h h.
Proof. intros l c Hl. exists c. by repeat split. Qed.

Lemma heap_kept_trans h1 h2 h3 :
  heap_kept h1 h2 -> heap_kept h2 h3 -> heap_kept h1 h3.
Proof.
  intros H12 H23 l c Hl.
  destruct (H12 l c Hl) as (c2 & Hl2 & Hk2 & Hp2 & Hkeys2).
  destruct (H23 l c2 Hl2) as (c3 & Hl3 & Hk3 & Hp3 & Hkeys3).
  exists c3. split; [exact Hl3 |].
  repeat split; [congruence | congruence | auto].
Qed.

Lemma heap_kept_app h ext : heap_kept h (h ++ ext).
Proof.
  intros l c Hl. exists c. split; [by apply lookup_app_l_Some |].
  by repeat split.
Qed.

Lemma assoc_set_keeps_keys k v ps k' :
  k' ∈ map fst ps -> k' ∈ map fst (assoc_set k v ps).
Proof.
  rewrite <- !assoc_is_Some. destruct (decide (k = k')) as [-> | Hne].
  - intros _. rewrite assoc_set_eq. eauto.
  - by rewrite assoc_set_ne.
Qed.

Lemma set_prop_kept h t k v h' : set_prop h t k v = Ok h' -> heap_kept h h'.
Proof.
  intros (l0 & c0 & -> & Hl0 & ->)%set_prop_inv l c Hl.
  destruct (decide (l = l0)) as [-> | Hne].
  - rewrite list_lookup_insert_eq by (by eapply lookup_lt_Some).
    eexists. split; [reflexivity |].
    assert (c = c0) as -> by congruence.
    repeat split. intros k'. apply assoc_set_keeps_keys.
  - rewrite list_lookup_insert_ne by congruence.
    exists c. by repeat split.
Qed.

Lemma map_items_kept (f : value -> list cell -> result (value * list cell)) items :
  (forall v h r h', f v h = Ok (r, h') -> heap_kept h h') ->
  forall h items' h',
    map_items f items h = Ok (items', h') -> heap_kept h h'.
Proof.
  intros Hf. induction items as [| [k item] items IH]; intros h items' h' H;
    cbn [map_items] in H.
  - injection H as <- <-. apply heap_kept_refl.
  - inv_bind H. destruct a as [item' h1]. inv_bind H. destruct a as [r' h2].
    injection H as <- <-. eapply heap_kept_trans; [by eapply Hf | by eapply IH].
Qed.

Section Keeps.

Variable rm : MixinArgs -> list cell -> result (value * list cell * list value).
Variable rc : value -> bool -> list cell -> result (value * list cell).
Hypothesis Hrm : mixin_keeps rm.
Hypothesis Hrc : copyArray_keeps rc.

Lemma copyArray_item_kept inh item h r h' :
  copyArray_item rm rc inh item h = Ok (r, h') -> heap_kept h h'.
Proof.
  unfold copyArray_item.
  destruct (isArray h item); [apply Hrc |].
  destruct (negb (shouldDeepCopyObject h item));
    [intros [= <- <-]; apply heap_kept_refl |].
  cbn [alloc]. intros H. inv_bind H. destruct a as [[r0 h2] cp2].
  injection H as <- <-.
  eapply heap_kept_trans; [apply heap_kept_app | by eapply Hrm].
Qed.

Lemma copyArray_body_keeps : copyArray_keeps (copyArray_body rm rc).
Proof.
  intros a i h r h'. unfold copyArray_body. intros H. inv_bind H.
  destruct a0 as [items' h1]. cbn [alloc] in H. injection H as <- <-.
  eapply heap_kept_trans; [| apply heap_kept_app].
  eapply map_items_kept; [| exact Hm].
  intros. by eapply copyArray_item_kept.
Qed.

Lemma mixin_key_kept kw clone source key h cp h' cp' :
  mixin_key rm rc kw clone source key (h, cp) = Ok (h', cp') ->
  heap_kept h h'.
Proof.
  unfold mixin_key.
  destruct (inherited kw || hasOwnProperty h source key);
    [| intros [= <- <-]; apply heap_kept_refl].
  intros H. inv_bind H. rename a into v.
  destruct (negb (indexOf clone v =? -1)%Z);
    [injection H as <- <-; apply heap_kept_refl |].
  inv_bind H. destruct a as [[v' h1] cp1]. inv_bind H. injection H as <- <-.
  eapply heap_kept_trans; [| by eapply set_prop_kept].
  destruct (deep kw); [| injection Hm0 as <- <- <-; apply heap_kept_refl].
  destruct (isArray h v).
  - inv_bind Hm0. destruct a0 as [x h2]. injection Hm0 as <- <- <-.
    by eapply Hrc.
  - destruct (shouldDeepCopyObject h v);
      [| injection Hm0 as <- <- <-; apply heap_kept_refl].
    inv_bind Hm0. unfold nested_target in Hm0.
    destruct (truthy a0); [by eapply Hrm |].
    cbn [alloc] in Hm0.
    eapply heap_kept_trans; [apply heap_kept_app | by eapply Hrm].
Qed.

Lemma mixin_body_keeps : mixin_keeps (mixin_body rm rc).
Proof.
  intros kw h r h' cp'. unfold mixin_body. intros H. inv_bind H.
  destruct a as [h1 cp1]. injection H as <- <- <-.
  set (cp0 := default [] (copied kw)) in *.
  set (P := fun st : list cell * list value => heap_kept h (fst st)).
  assert (HP : P (h1, cp1)); [| exact HP].
  eapply (foldM_invariant _ P); [| | exact Hm]; [| apply heap_kept_refl].
  intros s st st' _ Hst. unfold mixin_source.
  assert (Hkeys : forall ks, foldM (mixin_key rm rc kw cp0 s) ks st = Ok st' -> P st').
  { intros ks. apply foldM_invariant; [| exact Hst].
    intros key [h2 cp2] [h3 cp3] _ Hk Hkey. unfold P in *. cbn [fst] in *.
    eapply heap_kept_trans; [exact Hk | by eapply mixin_key_kept]. }
  destruct s; try apply Hkeys; by intros [= <-].
Qed.

End Keeps.

Lemma engine_keeps (n : nat) : mixin_keeps (_mixin n) /\ copyArray_keeps (copyArray n).
Proof.
  induction n as [| n [IHm IHc]].
  { split; intros ? ? ? ? ?; discriminate. }
  split.
  - intros kw h r h' cp'. cbn [_mixin]. by apply mixin_body_keeps.
  - intros a i h r h'. cbn [copyArray]. by apply copyArray_body_keeps.
Qed.



(** ** What a merge into a new object leaves alone *)

Lemma set_prop_middle hpre c ext k v :
  set_prop (hpre ++ c :: ext) (VRef (length hpre)) k v =
    Ok (hpre ++ Cell (ckind c) (cproto c) (assoc_set k v (cprops c)) :: ext).
Proof.
  unfold set_prop. rewrite list_lookup_middle by reflexivity. f_equal.
  rewrite insert_app_r_alt by lia. by rewrite Nat.sub_diag.
Qed.

Lemma get_prop_new_object hpre ps ext k :
  get_prop (hpre ++ Cell KObject None ps :: ext) (VRef (length hpre)) k =
    Ok (default VUndefined (assoc k ps)).
Proof.
  unfold get_prop, chain.
  destruct (length (hpre ++ Cell KObject None ps :: ext)) as [| m] eqn:Hlen.
  { rewrite length_app in Hlen. simpl in Hlen. lia. }
  cbn [proto_chain]. rewrite list_lookup_middle by reflexivity.
  cbn [cproto chain_get cprops]. by destruct (assoc k ps).
Qed.

Lemma assoc_Some_elem k v ps : assoc k ps = Some v -> (k, v) ∈ ps.
Proof.
  induction ps as [| [k' v'] ps IH]; simpl; [discriminate |].
  destruct (decide (k = k')) as [-> | Hne].
  - intros [= ->]. apply list_elem_of_here.
  - intros H. apply list_elem_of_further. by apply IH.
Qed.

Lemma assoc_None_keys k ps : k ∉ map fst ps -> assoc k ps = None.
Proof.
  intros Hk. destruct (assoc k ps) as [v |] eqn:E; [| reflexivity].
  exfalso. apply Hk. apply assoc_is_Some. eauto.
Qed.

Lemma closed_below_prefix n hpre ext :
  n <= length hpre -> closed_below n hpre -> closed_below n (hpre ++ ext).
Proof.
  intros Hn Hc l c Hl Hlook. rewrite lookup_app_l in Hlook by lia.
  by apply (Hc l c).
Qed.

Lemma closed_below_chain n h : closed_below n h ->
  forall m l c, l < n -> c ∈ proto_chain m h l ->
    forall k x, (k, x) ∈ cprops c -> value_below n x.
Proof.
  intros Hc m. induction m as [| m IH]; intros l c Hl Hin; simpl in Hin.
  { by apply elem_of_nil in Hin. }
  destruct (h !! l) as [c0 |] eqn:Hl0; [| by apply elem_of_nil in Hin].
  destruct (Hc l c0 Hl Hl0) as [Hvals Hproto].
  apply elem_of_cons in Hin as [-> | Hin]; [exact Hvals |].
  destruct (cproto c0) as [p |] eqn:Hp; [| by apply elem_of_nil in Hin].
  eapply IH; [| exact Hin]. by apply Hproto.
Qed.

Lemma chain_get_Some k cs v :
  chain_get k cs = Some v -> exists c, c ∈ cs /\ (k, v) ∈ cprops c.
Proof.
  induction cs as [| c cs IH]; simpl; [discriminate |].
  destruct (assoc k (cprops c)) as [x |] eqn:E.
  - intros [= ->]. exists c. split; [apply list_elem_of_here |].
    by apply assoc_Some_elem.
  - intros H. destruct (IH H) as (c' & Hc' & Hv).
    exists c'. split; [by apply list_elem_of_further | exact Hv].
Qed.

(** Reading from below yields a value from below. *)
Lemma closed_below_get n h l k v :
  closed_below n h -> l < n -> get_prop h (VRef l) k = Ok v -> value_below n v.
Proof.
  intros Hc Hl. unfold get_prop. intros [= <-].
  destruct (chain_get k (chain h l)) as [x |] eqn:E; [| exact I].
  apply chain_get_Some in E as (c & Hin & Hx).
  by eapply (closed_below_chain n h Hc (length h) l c).
Qed.

Lemma closed_below_elements n h a k x :
  closed_below n h -> value_below n a ->
  (k, x) ∈ array_elements h a -> value_below n x.
Proof.
  intros Hc Ha. unfold array_elements.
  destruct a as [| | | | | l]; try (intros H; by apply elem_of_nil in H).
  destruct (h !! l) as [c |] eqn:Hl; [| intros H; by apply elem_of_nil in H].
  intros [_ Hin]%list_elem_of_filter.
  destruct (Hc l c Ha Hl) as [Hvals _]. by eapply Hvals.
Qed.

Lemma plain_object_is_ref h v :
  shouldDeepCopyObject h v = true -> exists l, v = VRef l.
Proof. destruct v; try discriminate. eauto. Qed.

Lemma first_occurrences_NoDup seen ks : NoDup (first_occurrences seen ks).
Proof.
  revert seen. induction ks as [| k ks IH]; intros seen; simpl;
    [apply NoDup_nil_2 |].
  destruct (decide (k ∈ seen)); [apply IH |].
  apply NoDup_cons. split; [| apply IH].
  rewrite first_occurrences_elem. intros [_ Hn]. apply Hn, list_elem_of_here.
Qed.

Lemma forin_keys_ref_NoDup h l : NoDup (forin_keys h (VRef l)).
Proof. apply first_occurrences_NoDup. Qed.

Section Pure.

Variable n0 : nat.
Variable rm : MixinArgs -> list cell -> result (value * list cell * list value).
Variable rc : value -> bool -> list cell -> result (value * list cell).
Hypothesis Hrm : pure_mixin n0 rm.
Hypothesis Hrc : pure_copyArray n0 rc.

(** One key of a merge into a new object: only the new object, and
    cells allocated after it, change. *)
Lemma mixin_key_new_object kw clone lv key hpre ps ext cp h' cp' :
  n0 <= length hpre -> closed_below n0 hpre -> lv < n0 ->
  key ∉ map fst ps ->
  deep kw = true -> target kw = VRef (length hpre) ->
  mixin_key rm rc kw clone (VRef lv) key
    (hpre ++ Cell KObject None ps :: ext, cp) = Ok (h', cp') ->
  exists ps' ext',
    h' = hpre ++ Cell KObject None ps' :: ext' /\
    forall k, k ∈ map fst ps' -> k = key \/ k ∈ map fst ps.
Proof.
  intros Hn Hclosed Hlv Hkey Hdeep Htarget.
  set (hc := hpre ++ Cell KObject None ps :: ext).
  assert (Hnc : n0 <= length hc).
  { unfold hc. rewrite length_app. lia. }
  assert (Hcc : closed_below n0 hc) by (by apply closed_below_prefix).
  assert (Hsame : exists ps' ext',
            hc = hpre ++ Cell KObject None ps' :: ext' /\
            forall k, k ∈ map fst ps' -> k = key \/ k ∈ map fst ps).
  { exists ps, ext. split; [reflexivity | by right]. }
  assert (Hwrite : forall ext1 x h1,
            set_prop (hc ++ ext1) (VRef (length hpre)) key x = Ok h1 ->
            exists ps' ext',
              h1 = hpre ++ Cell KObject None ps' :: ext' /\
              forall k, k ∈ map fst ps' -> k = key \/ k ∈ map fst ps).
  { intros ext1 x h1. unfold hc. rewrite <- app_assoc. cbn [app].
    rewrite set_prop_middle. intros [= <-]. cbn [ckind cproto cprops].
    eexists _, _. split; [reflexivity |]. intros k. apply assoc_set_keys. }
  unfold mixin_key. rewrite Hdeep, Htarget.
  destruct (inherited kw || hasOwnProperty hc (VRef lv) key);
    [| intros [= <- <-]; exact Hsame].
  intros H. inv_bind H. rename a into x.
  assert (Hx : value_below n0 x) by (by eapply closed_below_get).
  destruct (negb (indexOf clone x =? -1)%Z);
    [injection H as <- <-; exact Hsame |].
  inv_bind H. destruct a as [[v' h1] cp1]. inv_bind H. injection H as <- <-.
  rename Hm1 into Hset. rename a into hfin.
  destruct (isArray hc x).
  - inv_bind Hm0. destruct a as [arr h2]. injection Hm0 as <- <- <-.
    destruct (Hrc _ _ _ _ _ Hnc Hcc Hx Hm1) as [ext1 ->].
    by eapply Hwrite.
  - destruct (shouldDeepCopyObject hc x) eqn:Hplain.
    + inv_bind Hm0. rename a into tv.
      unfold hc in Hm1. rewrite get_prop_new_object in Hm1.
      rewrite (assoc_None_keys _ _ Hkey) in Hm1. injection Hm1 as <-.
      cbn [nested_target truthy alloc] in Hm0. fold hc in Hm0.
      destruct (plain_object_is_ref _ _ Hplain) as [lx ->].
      destruct (Hrm _ _ _ _ _ _ _ Hnc Hcc Hx Hm0) as [ext1 ->].
      by eapply Hwrite.
    + injection Hm0 as <- <- <-.
      apply (Hwrite [] x). by rewrite app_nil_r.
Qed.

Lemma keys_new_object kw clone lv hpre ks : forall ps ext cp h' cp',
  n0 <= length hpre -> closed_below n0 hpre -> lv < n0 ->
  NoDup ks -> (forall k, k ∈ ks -> k ∉ map fst ps) ->
  deep kw = true -> target kw = VRef (length hpre) ->
  foldM (mixin_key rm rc kw clone (VRef lv)) ks
    (hpre ++ Cell KObject None ps :: ext, cp) = Ok (h', cp') ->
  exists ext', h' = hpre ++ ext'.
Proof.
  induction ks as [| key ks IH];
    intros ps ext cp h' cp' Hn Hclosed Hlv Hnd Hps Hdeep Htarget H.
  { injection H as <- <-. eauto. }
  cbn [foldM] in H. inv_bind H. destruct a as [h1 cp1].
  apply NoDup_cons in Hnd as [Hkey Hnd].
  eapply mixin_key_new_object in Hm as (ps1 & ext1 & -> & Hkeys);
    try eassumption; [| apply Hps, list_elem_of_here].
  eapply IH; [exact Hn | exact Hclosed | exact Hlv | exact Hnd | | exact Hdeep
             | exact Htarget | exact H].
  intros k Hk Hin. destruct (Hkeys k Hin) as [-> | Hin'].
  - by apply Hkey.
  - eapply Hps; [by apply list_elem_of_further | exact Hin'].
Qed.

Lemma mixin_body_pure : pure_mixin n0 (mixin_body rm rc).
Proof.
  intros inh lv cpo hpre r h' cp' Hn Hclosed Hlv. unfold mixin_body.
  cbn [sources copied target]. intros H. inv_bind H. destruct a as [h1 cp1].
  injection H as <- <- <-. cbn [foldM] in Hm. inv_bind Hm. destruct a as [h2 cp2].
  injection Hm as <- <-. cbn [mixin_source fst] in Hm0.
  eapply (keys_new_object _ _ lv hpre _ [] []); try eassumption;
    try reflexivity.
  - apply forin_keys_ref_NoDup.
  - intros k _. apply not_elem_of_nil.
Qed.

Lemma copyArray_item_pure inh item h r h' :
  n0 <= length h -> closed_below n0 h -> value_below n0 item ->
  copyArray_item rm rc inh item h = Ok (r, h') ->
  exists ext, h' = h ++ ext.
Proof.
  intros Hn Hclosed Hitem. unfold copyArray_item.
  destruct (isArray h item); [by apply Hrc |].
  destruct (negb (shouldDeepCopyObject h item)) eqn:Hplain.
  { intros [= <- <-]. exists []. by rewrite app_nil_r. }
  apply negb_false_iff in Hplain.
  destruct (plain_object_is_ref _ _ Hplain) as [lx ->].
  cbn [alloc]. intros H. inv_bind H. destruct a as [[r0 h2] cp2].
  injection H as <- <-. by eapply Hrm.
Qed.

Lemma map_items_pure inh items : forall h items' h',
  n0 <= length h -> closed_below n0 h ->
  (forall k x, (k, x) ∈ items -> value_below n0 x) ->
  map_items (copyArray_item rm rc inh) items h = Ok (items', h') ->
  exists ext, h' = h ++ ext.
Proof.
  induction items as [| [k item] items IH];
    intros h items' h' Hn Hclosed Hitems H; cbn [map_items] in H.
  { injection H as <- <-. exists []. by rewrite app_nil_r. }
  inv_bind H. destruct a as [item' h1]. inv_bind H. destruct a as [r' h2].
  injection H as <- <-.
  apply copyArray_item_pure in Hm as [ext1 ->]; try assumption;
    [| apply (Hitems k), list_elem_of_here].
  apply IH in Hm0 as [ext2 ->].
  - exists (ext1 ++ ext2). by rewrite app_assoc.
  - rewrite length_app. lia.
  - by apply closed_below_prefix.
  - intros k' x' Hin. apply (Hitems k'). by apply list_elem_of_further.
Qed.

Lemma copyArray_body_pure : pure_copyArray n0 (copyArray_body rm rc).
Proof.
  intros a inh h r h' Hn Hclosed Ha. unfold copyArray_body.
  intros H. inv_bind H. destruct a0 as [items' h1]. cbn [alloc] in H.
  injection H as <- <-.
  apply map_items_pure in Hm as [ext ->]; try assumption.
  - exists (ext ++ [Cell KArray None items']). by rewrite app_assoc.
  - intros k x Hin. by eapply closed_below_elements.
Qed.

End Pure.

Lemma engine_pure (n0 n : nat) :
  pure_mixin n0 (_mixin n) /\ pure_copyArray n0 (copyArray n).
Proof.
  induction n as [| n [IHm IHc]].
  { split; [intros ? ? ? ? ? ? ? | intros ? ? ? ? ?]; discriminate. }
  split.
  - intros inh lv cpo hpre r h' cp'. cbn [_mixin]. by apply mixin_body_pure.
  - intros a inh h r h'. cbn [copyArray]. by apply copyArray_body_pure.
Qed.

(** Closedness of a concrete heap, cell by cell. *)
Ltac closed_cell Hlook :=
  vm_compute in Hlook; injection Hlook as <-; split;
  [ intros ? ? Hin; cbn [cprops] in Hin;
    repeat (apply elem_of_cons in Hin as [[= -> ->] | Hin];
            [vm_compute; first [lia | exact I] |]);
    by apply elem_of_nil in Hin
  | intros ? Hp; cbn [cproto] in Hp;
    first [discriminate | injection Hp as <-; vm_compute; lia] ].

Ltac closed_heap :=
  let l := fresh "l" in
  let c := fresh "c" in
  let Hl := fresh "Hl" in
  let Hlook := fresh "Hlook" in
  intros l c Hl Hlook; vm_compute in Hl;
  repeat (destruct l as [| l]; [closed_cell Hlook |]);
  apply Nat.leb_le in Hl; discriminate.







(** ** uuid, once more *)

Lemma replace_xy_draws (rand rand' : nat -> Q) (s : string) : forall n,
  (forall m, n <= m < n + count_xy s -> rand m = rand' m) ->
  replace_xy rand n s = replace_xy rand' n s.
Proof.
  induction s as [| c s IH]; intros n Hr; [reflexivity |].
  cbn [replace_xy count_xy] in *.
  destruct (bool_decide (c = "x"%char \/ c = "y"%char)).
  - rewrite (Hr n) by lia. f_equal. apply IH. intros m Hm. apply Hr. lia.
  - f_equal. apply IH. intros m Hm. apply Hr. lia.
Qed.

(** X17: the identifier depends on exactly the first 31 draws of
    [Math.random()], one for each [x] or [y] of the template: each of
    them decides a character of the result (changing draw [n] alone,
    from 0 to 1/16, changes the identifier), and the draws from the
    32nd on are never looked at (two sequences that agree on the first
    31 give the same identifier). *)
Theorem uuid_takes_31_draws (n : nat) :
  n < 31 ->
  uuid (one_draw n (1 # 16)) <> uuid (fun _ => 0%Q) /\
  (forall m, m <> n -> one_draw n (1 # 16) m = 0%Q) /\
  (forall rand rand' : nat -> Q,
     (forall m, m < 31 -> rand m = rand' m) -> uuid rand = uuid rand').
Proof.
  intros Hn. split; [| split].
  - do 31 (destruct n as [| n]; [vm_compute; discriminate |]). lia.
  - intros m Hm. unfold one_draw.
    destruct (Nat.eqb_spec m n) as [-> | _]; [contradiction | reflexivity].
  - intros rand rand' Hr. apply replace_xy_draws. intros m Hm. apply Hr.
    change (count_xy template) with 31 in Hm. lia.
Qed.

Lemma uuid_takes_31_draws_witness :
  uuid (one_draw 16 (1 # 16)) <> uuid (fun _ => 0%Q) /\
  (forall m, m <> 16 -> one_draw 16 (1 # 16) m = 0%Q) /\
  (forall rand rand' : nat -> Q,
     (forall m, m < 31 -> rand m = rand' m) -> uuid rand = uuid rand').
Proof.
  apply (uuid_takes_31_draws 16). lia.
Defined.

(** ** Deep copies of literals *)

(** Induction on a literal, with the fields of an object or array as
    induction hypotheses. *)
Lemma tree_ind' (P : tree -> Prop) :
  (forall x, P (Leaf x)) ->
  (forall fs, Forall (fun p => P (snd p)) fs -> P (Obj fs)) ->
  (forall fs, Forall (fun p => P (snd p)) fs -> P (Arr fs)) ->
  forall t, P t.
Proof.
  intros HL HO HA. fix IH 1. intros [x | fs | fs].
  - apply HL.
  - apply HO. induction fs as [| [k t] fs IHfs]; constructor; [apply IH | exact IHfs].
  - apply HA. induction fs as [| [k t] fs IHfs]; constructor; [apply IH | exact IHfs].
Qed.

Lemma build_fields_extends fs :
  Forall (fun p => forall h v h1, build (snd p) h = (v, h1) -> exists ext, h1 = h ++ ext) fs ->
  forall h ps h1, build_fields build fs h = (ps, h1) ->
    (exists ext, h1 = h ++ ext) /\ map fst ps = map fst fs.
Proof.
  induction 1 as [| [k t] fs Ht _ IH]; intros h ps h1 H; cbn [build_fields] in H.
  - injection H as <- <-. split; [exists []; by rewrite app_nil_r | reflexivity].
  - destruct (build t h) as [x h2] eqn:Hb.
    destruct (build_fields build fs h2) as [ps' h3] eqn:Hf.
    injection H as <- <-.
    destruct (Ht _ _ _ Hb) as [e1 ->].
    destruct (IH _ _ _ Hf) as [[e2 ->] Hk].
    split; [exists (e1 ++ e2); by rewrite app_assoc | simpl; by rewrite Hk].
Qed.

Lemma build_extends t : forall h v h1, build t h = (v, h1) -> exists ext, h1 = h ++ ext.
Proof.
  induction t as [x | fs IH | fs IH] using tree_ind'; intros h v h1 H; cbn [build] in H.
  - injection H as <- <-. exists []. by rewrite app_nil_r.
  - destruct (build_fields build fs h) as [ps h2] eqn:Hf. injection H as <- <-.
    destruct (build_fields_extends fs IH _ _ _ Hf) as [[e ->] _].
    eexists. by rewrite <- app_assoc.
  - destruct (build_fields build fs h) as [ps h2] eqn:Hf. injection H as <- <-.
    destruct (build_fields_extends fs IH _ _ _ Hf) as [[e ->] _].
    eexists. by rewrite <- app_assoc.
Qed.

Lemma build_fields_spec fs h ps h1 :
  build_fields build fs h = (ps, h1) ->
  (exists ext, h1 = h ++ ext) /\ map fst ps = map fst fs.
Proof.
  apply build_fields_extends. apply Forall_forall. intros p _. apply build_extends.
Qed.

Lemma represents_fields_impl (R R' : value -> tree -> Prop) fs :
  Forall (fun p => forall x, R x (snd p) -> R' x (snd p)) fs ->
  forall ps, represents_fields R ps fs -> represents_fields R' ps fs.
Proof.
  induction 1 as [| [k t] fs Ht _ IH]; intros [| [k' x] ps]; simpl; auto.
  intros (-> & Hx & Hr). repeat split; [by apply Ht | by apply IH].
Qed.

Lemma represents_weaken t : forall n h n' h' x,
  n' <= n ->
  (forall l c, n <= l -> h !! l = Some c -> h' !! l = Some c) ->
  represents n h x t -> represents n' h' x t.
Proof.
  induction t as [y | fs IH | fs IH] using tree_ind';
    intros n h n' h' x Hn Hag; cbn [represents]; auto.
  - intros (l & ps & -> & Hl & Hlook & Hr).
    exists l, ps. repeat split; [lia | by apply Hag |].
    revert Hr. apply represents_fields_impl.
    eapply Forall_impl; [exact IH |]. intros [k t] Ht x. simpl in *. by apply Ht.
  - intros (l & ps & -> & Hl & Hlook & Hr).
    exists l, ps. repeat split; [lia | by apply Hag |].
    revert Hr. apply represents_fields_impl.
    eapply Forall_impl; [exact IH |]. intros [k t] Ht x. simpl in *. by apply Ht.
Qed.

Lemma represents_fields_weaken fs n h n' h' ps :
  n' <= n ->
  (forall l c, n <= l -> h !! l = Some c -> h' !! l = Some c) ->
  represents_fields (represents n h) ps fs ->
  represents_fields (represents n' h') ps fs.
Proof.
  intros Hn Hag. apply represents_fields_impl, Forall_forall.
  intros [k t] _ x. simpl. by apply represents_weaken.
Qed.

Lemma build_root t h v h1 :
  build t h = (v, h1) ->
  match t with
  | Leaf x => v = x /\ h1 = h
  | Obj fs => exists ps hm, build_fields build fs h = (ps, hm) /\
                v = VRef (length hm) /\ h1 = hm ++ [Cell KObject None ps]
  | Arr fs => exists ps hm, build_fields build fs h = (ps, hm) /\
                v = VRef (length hm) /\ h1 = hm ++ [Cell KArray None ps]
  end.
Proof.
  destruct t as [x | fs | fs]; cbn [build].
  - by intros [= <- <-].
  - destruct (build_fields build fs h) as [ps hm]. intros [= <- <-]. by exists ps, hm.
  - destruct (build_fields build fs h) as [ps hm]. intros [= <- <-]. by exists ps, hm.
Qed.

Lemma build_fields_represents fs :
  Forall (fun p => forall h v h1, build (snd p) h = (v, h1) ->
                     represents (length h) h1 v (snd p)) fs ->
  forall h ps h1, build_fields build fs h = (ps, h1) ->
    represents_fields (represents (length h) h1) ps fs.
Proof.
  induction 1 as [| [k t] fs Ht _ IH]; intros h ps h1 H; cbn [build_fields] in H.
  - by injection H as <- <-.
  - destruct (build t h) as [x h2] eqn:Hb.
    destruct (build_fields build fs h2) as [ps' h3] eqn:Hf.
    injection H as <- <-. simpl.
    destruct (build_extends _ _ _ _ Hb) as [e1 ->].
    destruct (build_fields_spec _ _ _ _ Hf) as [[e2 ->] _].
    split; [reflexivity |]. split.
    + eapply represents_weaken; [| | exact (Ht _ _ _ Hb)]; [lia |].
      intros l c _ Hl. by apply lookup_app_l_Some.
    + eapply represents_fields_weaken; [| | exact (IH _ _ _ Hf)].
      * rewrite length_app. lia.
      * auto.
Qed.

Lemma build_represents t : forall h v h1,
  build t h = (v, h1) -> represents (length h) h1 v t.
Proof.
  induction t as [x | fs IH | fs IH] using tree_ind'; intros h v h1 H.
  - apply build_root in H as [-> ->]. reflexivity.
  - apply build_root in H as (ps & hm & Hf & -> & ->).
    destruct (build_fields_spec _ _ _ _ Hf) as [[e ->] _].
    cbn [represents]. exists (length (h ++ e)), ps.
    repeat split.
    + rewrite length_app. lia.
    + by apply list_lookup_middle.
    + eapply represents_fields_weaken; [| | exact (build_fields_represents fs IH _ _ _ Hf)];
        [lia |].
      intros l c _ Hl. by apply lookup_app_l_Some.
  - apply build_root in H as (ps & hm & Hf & -> & ->).
    destruct (build_fields_spec _ _ _ _ Hf) as [[e ->] _].
    cbn [represents]. exists (length (h ++ e)), ps.
    repeat split.
    + rewrite length_app. lia.
    + by apply list_lookup_middle.
    + eapply represents_fields_weaken; [| | exact (build_fields_represents fs IH _ _ _ Hf)];
        [lia |].
      intros l c _ Hl. by apply lookup_app_l_Some.
Qed.

Lemma first_occurrences_id ks : forall seen,
  NoDup ks -> (forall k, k ∈ ks -> k ∉ seen) -> first_occurrences seen ks = ks.
Proof.
  induction ks as [| k ks IH]; intros seen Hnd Hs; simpl; [reflexivity |].
  apply NoDup_cons in Hnd as [Hk Hnd].
  destruct (decide (k ∈ seen)) as [Hin | _].
  { exfalso. apply (Hs k); [apply list_elem_of_here | exact Hin]. }
  f_equal. apply IH; [exact Hnd |].
  intros k' Hk' Hin. apply elem_of_cons in Hin as [-> | Hin]; [contradiction |].
  apply (Hs k'); [by apply list_elem_of_further | exact Hin].
Qed.

Lemma forin_keys_literal h l K ps :
  h !! l = Some (Cell K None ps) -> NoDup (map fst ps) ->
  forin_keys h (VRef l) = map fst ps.
Proof.
  intros Hl Hnd. unfold forin_keys, chain.
  destruct (length h) as [| m] eqn:Hlen.
  { apply lookup_lt_Some in Hl. lia. }
  cbn [proto_chain]. rewrite Hl. cbn [cproto map concat]. rewrite app_nil_r.
  unfold own_keys. cbn [cprops].
  apply first_occurrences_id; [exact Hnd |]. intros k _ Hin. by apply elem_of_nil in Hin.
Qed.

Lemma assoc_NoDup_elem k x ps :
  NoDup (map fst ps) -> (k, x) ∈ ps -> assoc k ps = Some x.
Proof.
  induction ps as [| [k' x'] ps IH]; intros Hnd Hin; [by apply elem_of_nil in Hin |].
  simpl in Hnd. apply NoDup_cons in Hnd as [Hk Hnd]. simpl.
  apply elem_of_cons in Hin as [[= -> ->] | Hin].
  - by rewrite decide_True.
  - destruct (decide (k = k')) as [-> | _]; [| by apply IH].
    exfalso. apply Hk. apply list_elem_of_fmap. by exists (k', x).
Qed.

Lemma assoc_set_new k v ps :
  k ∉ map fst ps -> assoc_set k v ps = ps ++ [(k, v)].
Proof.
  induction ps as [| [k' v'] ps IH]; simpl; intros Hk; [reflexivity |].
  apply not_elem_of_cons in Hk as [Hne Hk].
  destruct (decide (k = k')); [contradiction |]. by rewrite IH.
Qed.

Lemma filter_index_keys_all (ps : list (string * value)) :
  Forall (fun k => is_index_key k = true) (map fst ps) ->
  filter (fun p => is_index_key (fst p) = true) ps = ps.
Proof.
  induction ps as [| p ps IH]; simpl; intros H; [reflexivity |].
  apply Forall_cons in H as [Hp H].
  rewrite filter_cons_True by exact Hp. by rewrite IH.
Qed.

Lemma lookup_after_middle {A} (hc : list A) c1 c2 e e' l x :
  S (length hc) <= l ->
  (hc ++ c1 :: e) !! l = Some x -> (hc ++ c2 :: (e ++ e')) !! l = Some x.
Proof.
  intros Hl. rewrite !lookup_app_r by lia.
  destruct (l - length hc) as [| m] eqn:E; [lia |]. simpl.
  apply lookup_app_l_Some.
Qed.

Lemma primitive_not_array h x : is_primitive x -> isArray h x = false.
Proof. by destruct x. Qed.

Lemma primitive_not_object h x : is_primitive x -> shouldDeepCopyObject h x = false.
Proof. by destruct x. Qed.

Lemma depth_fields_cons k t r n :
  depth_fields ((k, t) :: r) <= n -> depth t <= n /\ depth_fields r <= n.
Proof. unfold depth_fields. simpl. lia. Qed.

(** One more stack frame: what the engine does on a literal of depth
    [S n], given what it does on its fields with [n] frames. *)

Section CloneStep.

Variable n : nat.
Hypothesis IHo : clones_object n.
Hypothesis IHa : clones_array n.

Lemma copyArray_item_clones t h0 x h1 inh hc :
  wf t -> depth t <= n -> build t h0 = (x, h1) -> h1 `prefix_of` hc ->
  exists ext r,
    copyArray_item (_mixin n) (copyArray n) inh x hc = Ok (r, hc ++ ext) /\
    represents (length hc) (hc ++ ext) r t.
Proof.
  intros Hwf Hd Hb Hpre. unfold copyArray_item.
  destruct t as [y | fs | fs].
  - apply build_root in Hb as [-> ->]. simpl in Hwf.
    rewrite primitive_not_array, primitive_not_object by exact Hwf. cbn [negb].
    exists [], y. by rewrite app_nil_r.
  - pose proof Hb as Hroot. apply build_root in Hroot as (ps & hm & Hf & -> & ->).
    assert (Hl : hc !! length hm = Some (Cell KObject None ps)).
    { eapply prefix_lookup_Some; [| exact Hpre]. by apply list_lookup_middle. }
    unfold isArray, shouldDeepCopyObject. rewrite Hl. cbn [ckind].
    rewrite bool_decide_eq_false_2 by discriminate.
    rewrite bool_decide_eq_true_2 by reflexivity. cbn [negb alloc].
    destruct (IHo fs h0 _ _ inh None hc Hwf Hd Hb Hpre) as (ext & pushed & Hrun & Hrep & _).
    { intros y Hy. by apply elem_of_nil in Hy. }
    rewrite Hrun. cbn [bind default app]. by exists ext, (VRef (length hc)).
  - pose proof Hb as Hroot. apply build_root in Hroot as (ps & hm & Hf & -> & ->).
    assert (Hl : hc !! length hm = Some (Cell KArray None ps)).
    { eapply prefix_lookup_Some; [| exact Hpre]. by apply list_lookup_middle. }
    unfold isArray. rewrite Hl. cbn [ckind].
    rewrite bool_decide_eq_true_2 by reflexivity.
    exact (IHa fs h0 _ _ inh hc Hwf Hd Hb Hpre).
Qed.

Lemma map_items_clones inh rest : forall hj psr hend,
  build_fields build rest hj = (psr, hend) ->
  wf_fields rest -> depth_fields rest <= n ->
  forall hc, hend `prefix_of` hc ->
  exists ext items',
    map_items (copyArray_item (_mixin n) (copyArray n) inh) psr hc
      = Ok (items', hc ++ ext) /\
    represents_fields (represents (length hc) (hc ++ ext)) items' rest.
Proof.
  induction rest as [| [k t] r IH]; intros hj psr hend Hb Hwf Hd hc Hpre;
    cbn [build_fields] in Hb.
  - injection Hb as <- <-. exists [], []. by rewrite app_nil_r.
  - destruct (build t hj) as [x h1] eqn:Hbt.
    destruct (build_fields build r h1) as [ps' h2] eqn:Hbr.
    injection Hb as <- <-.
    destruct Hwf as [Hwt Hwr]. apply depth_fields_cons in Hd as [Hdt Hdr].
    destruct (build_fields_spec _ _ _ _ Hbr) as [[e ->] _].
    destruct (copyArray_item_clones t hj x h1 inh hc Hwt Hdt Hbt)
      as (ext1 & r1 & Hrun1 & Hrep1).
    { etrans; [| exact Hpre]. by apply prefix_app_r. }
    destruct (IH _ _ _ Hbr Hwr Hdr (hc ++ ext1)) as (ext2 & items2 & Hrun2 & Hrep2).
    { by apply prefix_app_r. }
    exists (ext1 ++ ext2), ((k, r1) :: items2).
    cbn [map_items]. rewrite Hrun1. cbn [bind]. rewrite Hrun2. cbn [bind].
    rewrite <- app_assoc. split; [reflexivity |].
    cbn [represents_fields]. split; [reflexivity |]. split.
    + eapply represents_weaken; [| | exact Hrep1]; [lia |].
      intros l c _ Hl. rewrite app_assoc. by apply lookup_app_l_Some.
    + eapply represents_fields_weaken; [| | exact Hrep2].
      * rewrite length_app. lia.
      * intros l c _ Hl. by rewrite app_assoc.
Qed.

Lemma clones_array_step : clones_array (S n).
Proof.
  intros fs h0 v hsrc inh hc Hwf Hd Hb Hpre.
  apply build_root in Hb as (ps & hm & Hf & -> & ->).
  destruct Hwf as (_ & Hidx & Hwf).
  destruct (build_fields_spec _ _ _ _ Hf) as [_ Hkeys].
  assert (Hl : hc !! length hm = Some (Cell KArray None ps)).
  { eapply prefix_lookup_Some; [| exact Hpre]. by apply list_lookup_middle. }
  cbn [copyArray]. unfold copyArray_body, array_elements. rewrite Hl. cbn [cprops].
  rewrite filter_index_keys_all.
  2:{ rewrite Hkeys. apply Forall_fmap. exact Hidx. }
  destruct (map_items_clones inh fs h0 ps hm Hf Hwf) with (hc := hc)
    as (ext & items' & Hrun & Hrep).
  { cbn [depth] in Hd. unfold depth_fields. lia. }
  { etrans; [| exact Hpre]. by apply prefix_app_r. }
  rewrite Hrun. cbn [bind alloc].
  exists (ext ++ [Cell KArray None items']), (VRef (length (hc ++ ext))).
  rewrite app_assoc. split; [reflexivity |].
  cbn [represents]. exists (length (hc ++ ext)), items'.
  repeat split.
  - rewrite length_app. lia.
  - by apply list_lookup_middle.
  - eapply represents_fields_weaken; [| | exact Hrep]; [lia |].
    intros l c _ Hlc. by apply lookup_app_l_Some.
Qed.

Section ObjectLoop.

(** The source object: its fields were built from [h0] to [hm], its own
    cell follows at [length hm]; the target is the cell at [length hc]. *)
Variables (h0 hm hc : list cell) (ps : list (string * value)).
Variables (inh : bool) (clone : list value) (cpo : option (list value)).
Hypothesis Hsrc : (hm ++ [Cell KObject None ps]) `prefix_of` hc.
Hypothesis Hclone : refs_outside (length h0) (S (length hm)) clone.

Let kw : MixinArgs :=
  {| deep := true; inherited := inh; sources := [VRef (length hm)];
     target := VRef (length hc); copied := cpo |}.

Lemma source_cell tps ext :
  (hc ++ Cell KObject None tps :: ext) !! length hm = Some (Cell KObject None ps).
Proof.
  apply lookup_app_l_Some. eapply prefix_lookup_Some; [| exact Hsrc].
  by apply list_lookup_middle.
Qed.

Lemma mixin_key_clones k t hj x h1 tps ext cpcur :
  wf t -> depth t <= n -> build t hj = (x, h1) ->
  length h0 <= length hj -> h1 `prefix_of` hm ->
  assoc k ps = Some x -> k ∉ map fst tps ->
  refs_outside (length hj) (length h1) cpcur ->
  exists x' e pushed,
    mixin_key (_mixin n) (copyArray n) kw clone (VRef (length hm)) k
      (hc ++ Cell KObject None tps :: ext, cpcur)
      = Ok (hc ++ Cell KObject None (tps ++ [(k, x')]) :: (ext ++ e),
            cpcur ++ pushed) /\
    represents (S (length hc))
      (hc ++ Cell KObject None (tps ++ [(k, x')]) :: (ext ++ e)) x' t /\
    (forall y, y ∈ pushed ->
       exists l, y = VRef l /\ (l = length hm \/ length hj <= l < length h1)).
Proof.
  intros Hwf Hd Hb Hj Hpre Hk Hnew Hcp.
  set (hcur := hc ++ Cell KObject None tps :: ext).
  assert (Hown : own_prop hcur (VRef (length hm)) k = Some x).
  { unfold own_prop, hcur. rewrite source_cell. exact Hk. }
  assert (Hlen1 : length h1 <= length hm) by (by apply prefix_length).
  assert (Hh1 : h1 `prefix_of` hcur).
  { unfold hcur. trans hm; [exact Hpre |].
    trans (hm ++ [Cell KObject None ps]); [by apply prefix_app_r |].
    trans hc; [exact Hsrc | by apply prefix_app_r]. }
  assert (Hguard : x ∉ clone).
  { intros Hin. destruct (Hclone _ Hin) as (l & -> & Hl).
    destruct t as [y | fs | fs].
    - apply build_root in Hb as [<- _]. exact Hwf.
    - apply build_root in Hb as (ps' & hm' & Hf & [= ->] & ->).
      destruct (build_fields_spec _ _ _ _ Hf) as [[e ->] _].
      rewrite !length_app in *. simpl in *. lia.
    - apply build_root in Hb as (ps' & hm' & Hf & [= ->] & ->).
      destruct (build_fields_spec _ _ _ _ Hf) as [[e ->] _].
      rewrite !length_app in *. simpl in *. lia. }
  unfold mixin_key. cbn [inherited deep target kw].
  rewrite (own_prop_has_own _ _ _ _ Hown), orb_true_r.
  rewrite (own_prop_get _ _ _ _ Hown). cbn [bind].
  rewrite guard_test, bool_decide_eq_false_2 by exact Hguard.
  destruct t as [y | fs | fs].
  - apply build_root in Hb as [-> ->]. simpl in Hwf.
    rewrite primitive_not_array, primitive_not_object by exact Hwf. cbn [bind].
    unfold hcur. rewrite set_prop_middle. cbn [bind ckind cproto cprops].
    rewrite assoc_set_new by exact Hnew.
    exists y, [], []. rewrite !app_nil_r. repeat split.
    intros z Hz. by apply elem_of_nil in Hz.
  - pose proof Hb as Hroot. apply build_root in Hroot as (ps' & hm' & Hf & -> & ->).
    assert (Hl : hcur !! length hm' = Some (Cell KObject None ps')).
    { eapply prefix_lookup_Some; [| exact Hh1]. by apply list_lookup_middle. }
    unfold isArray, shouldDeepCopyObject. rewrite Hl. cbn [ckind].
    rewrite bool_decide_eq_false_2 by discriminate.
    rewrite bool_decide_eq_true_2 by reflexivity.
    unfold hcur at 1. rewrite get_prop_new_object.
    rewrite (assoc_None_keys _ _ Hnew). cbn [bind default].
    unfold nested_target. cbn [truthy alloc].
    destruct (IHo fs hj _ _ inh (Some (cpcur ++ [VRef (length hm)])) hcur Hwf Hd Hb Hh1)
      as (ext1 & pushed1 & Hrun & Hrep & Hin).
    { cbn [default]. intros y Hy. apply elem_of_app in Hy as [Hy | Hy].
      - exact (Hcp _ Hy).
      - apply list_elem_of_singleton in Hy as ->. exists (length hm). split; [reflexivity | lia]. }
    rewrite Hrun. cbn [bind default id].
    unfold hcur. rewrite <- app_assoc. cbn [app].
    rewrite set_prop_middle. cbn [bind ckind cproto cprops].
    rewrite assoc_set_new by exact Hnew.
    exists (VRef (length (hc ++ Cell KObject None tps :: ext))), ext1,
      ([VRef (length hm)] ++ pushed1).
    rewrite <- app_assoc. repeat split.
    + eapply represents_weaken; [| | exact Hrep].
      * unfold hcur. rewrite length_app. simpl. lia.
      * intros l c Hlc. unfold hcur in Hlc |- *. rewrite <- app_assoc. cbn [app].
        rewrite !lookup_app_r by (rewrite length_app in Hlc; simpl in Hlc; lia).
        destruct (l - length hc) as [| m] eqn:E;
          [rewrite length_app in Hlc; simpl in Hlc; lia | done].
    + intros y Hy. apply elem_of_app in Hy as [Hy | Hy].
      * apply list_elem_of_singleton in Hy as ->. exists (length hm). by split; [| left].
      * destruct (Hin _ Hy) as (l & -> & Hl'). exists l. by split; [| right].
  - pose proof Hb as Hroot. apply build_root in Hroot as (ps' & hm' & Hf & -> & ->).
    assert (Hl : hcur !! length hm' = Some (Cell KArray None ps')).
    { eapply prefix_lookup_Some; [| exact Hh1]. by apply list_lookup_middle. }
    unfold isArray. rewrite Hl. cbn [ckind].
    rewrite bool_decide_eq_true_2 by reflexivity.
    destruct (IHa fs hj _ _ inh hcur Hwf Hd Hb Hh1) as (ext1 & r & Hrun & Hrep).
    rewrite Hrun. cbn [bind].
    unfold hcur. rewrite <- app_assoc. cbn [app].
    rewrite set_prop_middle. cbn [bind ckind cproto cprops].
    rewrite assoc_set_new by exact Hnew.
    exists r, ext1, []. rewrite app_nil_r. repeat split.
    + eapply represents_weaken; [| | exact Hrep].
      * unfold hcur. rewrite length_app. simpl. lia.
      * intros l c Hlc. unfold hcur in Hlc |- *. rewrite <- app_assoc. cbn [app].
        rewrite !lookup_app_r by (rewrite length_app in Hlc; simpl in Hlc; lia).
        destruct (l - length hc) as [| m] eqn:E;
          [rewrite length_app in Hlc; simpl in Hlc; lia | done].
    + intros y Hy. by apply elem_of_nil in Hy.
Qed.

Lemma keys_clone rest : forall hj psr,
  build_fields build rest hj = (psr, hm) ->
  length h0 <= length hj ->
  wf_fields rest -> NoDup (map fst rest) -> depth_fields rest <= n ->
  (forall k x, (k, x) ∈ psr -> assoc k ps = Some x) ->
  forall tps ext cpcur,
    (forall k, k ∈ map fst rest -> k ∉ map fst tps) ->
    refs_outside (length hj) (length hm) cpcur ->
    exists tps' e pushed,
      foldM (mixin_key (_mixin n) (copyArray n) kw clone (VRef (length hm)))
        (map fst rest) (hc ++ Cell KObject None tps :: ext, cpcur)
        = Ok (hc ++ Cell KObject None (tps ++ tps') :: (ext ++ e),
              cpcur ++ pushed) /\
      represents_fields
        (represents (S (length hc))
           (hc ++ Cell KObject None (tps ++ tps') :: (ext ++ e))) tps' rest /\
      refs_inside (length hj) (S (length hm)) pushed.
Proof.
  induction rest as [| [k t] r IH];
    intros hj psr Hb Hj Hwf Hnd Hd Hass tps ext cpcur Hnew Hcp;
    cbn [build_fields] in Hb.
  - injection Hb as <- _. exists [], [], []. rewrite !app_nil_r.
    repeat split. intros y Hy. by apply elem_of_nil in Hy.
  - destruct (build t hj) as [x h1] eqn:Hbt.
    destruct (build_fields build r h1) as [ps' h2] eqn:Hbr.
    injection Hb as <- ->.
    destruct Hwf as [Hwt Hwr]. apply depth_fields_cons in Hd as [Hdt Hdr].
    simpl in Hnd. apply NoDup_cons in Hnd as [Hk Hnd].
    destruct (build_extends _ _ _ _ Hbt) as [e1 ->].
    pose proof (build_fields_spec _ _ _ _ Hbr) as [Hpre1 _].
    destruct (mixin_key_clones k t hj x (hj ++ e1) tps ext cpcur)
      as (x' & e & pushed & Hrun & Hrep & Hin); auto.
    { apply Hass, list_elem_of_here. }
    { apply Hnew. simpl. apply list_elem_of_here. }
    { intros y Hy. destruct (Hcp _ Hy) as (l & -> & Hl). exists l.
      split; [reflexivity |]. apply prefix_length in Hpre1. lia. }
    destruct (IH _ _ Hbr) with (tps := tps ++ [(k, x')]) (ext := ext ++ e)
      (cpcur := cpcur ++ pushed) as (tps2 & e2 & pushed2 & Hrun2 & Hrep2 & Hin2); auto.
    { rewrite length_app. lia. }
    { intros k' x0 Hk'. apply Hass. by apply list_elem_of_further. }
    { intros k' Hk'. rewrite map_app. simpl. intros Hbad.
      apply elem_of_app in Hbad as [Hbad | Hbad].
      - revert Hbad. apply Hnew. simpl. by apply list_elem_of_further.
      - apply list_elem_of_singleton in Hbad as ->. contradiction. }
    { intros y Hy. apply elem_of_app in Hy as [Hy | Hy].
      - destruct (Hcp _ Hy) as (l & -> & Hl). exists l. split; [reflexivity |].
        rewrite length_app. lia.
      - destruct (Hin _ Hy) as (l & -> & Hl). exists l. split; [reflexivity |].
        lia. }
    exists ((k, x') :: tps2), (e ++ e2), (pushed ++ pushed2).
    cbn [map fst foldM]. rewrite Hrun. cbn [bind]. rewrite Hrun2.
    rewrite <- !app_assoc. cbn [app]. repeat split.
    + eapply represents_weaken; [| | exact Hrep]; [lia |].
      intros l c Hl. rewrite (app_assoc ext e e2). by apply lookup_after_middle.
    + rewrite <- !app_assoc in Hrep2. exact Hrep2.
    + intros y Hy. apply elem_of_app in Hy as [Hy | Hy].
      * destruct (Hin _ Hy) as (l & -> & Hl). exists l. split; [reflexivity |].
        apply prefix_length in Hpre1. rewrite length_app in Hpre1, Hl. lia.
      * destruct (Hin2 _ Hy) as (l & -> & Hl). exists l. split; [reflexivity |].
        rewrite length_app in Hl. lia.
Qed.

End ObjectLoop.

Lemma clones_object_step : clones_object (S n).
Proof.
  intros fs h0 v hsrc inh cpo hc Hwf Hd Hb Hpre Hcp.
  apply build_root in Hb as (ps & hm & Hf & -> & ->).
  destruct Hwf as (Hnd & _ & Hwf).
  destruct (build_fields_spec _ _ _ _ Hf) as [_ Hkeys].
  assert (Hps : NoDup (map fst ps)) by (by rewrite Hkeys).
  rewrite length_app in Hcp. simpl in Hcp. rewrite Nat.add_1_r in Hcp.
  destruct (keys_clone h0 hm hc ps inh (default [] cpo) cpo Hpre Hcp fs h0 ps Hf)
    with (tps := @nil (string * value)) (ext := @nil cell) (cpcur := default [] cpo)
    as (tps' & e & pushed & Hrun & Hrep & Hin); auto.
  { cbn [depth] in Hd. unfold depth_fields. lia. }
  { intros k x Hkx. by apply assoc_NoDup_elem. }
  { intros k _ Hbad. by apply elem_of_nil in Hbad. }
  { intros y Hy. destruct (Hcp _ Hy) as (l & -> & Hl). exists l.
    split; [reflexivity | lia]. }
  cbn [_mixin]. unfold mixin_body. cbn [copied sources target foldM].
  unfold mixin_source. cbn [fst].
  rewrite (forin_keys_literal _ _ KObject ps).
  2:{ apply lookup_app_l_Some. eapply prefix_lookup_Some; [| exact Hpre].
      by apply list_lookup_middle. }
  2:{ exact Hps. }
  rewrite Hkeys. unfold empty_object. rewrite Hrun. cbn [bind app].
  exists (Cell KObject None tps' :: e), pushed. repeat split.
  - cbn [represents]. exists (length hc), tps'.
    split; [reflexivity |]. split; [lia |]. split.
    + by apply list_lookup_middle.
    + eapply represents_fields_weaken; [| | exact Hrep]; [lia | auto].
  - rewrite length_app, Nat.add_1_r. exact Hin.
Qed.

End CloneStep.

Lemma engine_clones n : clones_object n /\ clones_array n.
Proof.
  induction n as [| n [IHo IHa]].
  - split; intros ? ? ? ? ?; intros; cbn [depth] in *; lia.
  - split; [by apply clones_object_step | by apply clones_array_step].
Qed.

(** Well-formedness of a closed literal. *)
Ltac wf_literal :=
  cbn [wf fold_right map fst snd];
  repeat match goal with
         | |- _ /\ _ => split
         | |- True => exact I
         | |- is_primitive _ => exact I
         | |- ordinary_key _ =>
             split; [let Hin := fresh "Hin" in intros Hin; not_among Hin
                    | reflexivity]
         | |- _ ∉ object_prototype_names =>
             let Hin := fresh "Hin" in
             intros Hin; cbn [fst] in Hin; unfold object_prototype_names in Hin;
             not_among Hin
         | |- _ = _ => reflexivity
         | |- NoDup [] => apply NoDup_nil_2
         | |- NoDup (_ :: _) => apply NoDup_cons_2
         | |- _ ∉ [] => apply not_elem_of_nil
         | |- _ ∉ _ :: _ => apply not_elem_of_cons
         | |- _ <> _ => discriminate
         | |- Forall _ _ => repeat constructor
         end.

(** X18: a deep merge of a literal into a new empty object is a deep
    copy.  For every well-formed object literal (ordinary keys: none
    named like a property of [Object.prototype], none index-like), in
    any heap that holds its value and with as many stack frames as the
    literal is deep,
    [deepAssign({}, source)] and [deepMixin({}, source)] return their
    target; nothing that existed is changed (the heap is only
    extended), so the source is still the literal; and the target is
    the same literal, key for key and in the same order, made entirely
    of objects that did not exist before the call. *)
Theorem deep_merge_clones_literal (fuel : nat) (i : bool)
    (fs : list (string * tree)) (h h1 hc : list cell) (s : value) :
  wf (Obj fs) -> depth (Obj fs) <= fuel ->
  build (Obj fs) h = (s, h1) -> h1 `prefix_of` hc ->
  exists ext,
    entry fuel true i (VRef (length hc)) [s] (hc ++ [empty_object])
      = Ok (VRef (length hc), hc ++ ext) /\
    represents (length h) (hc ++ ext) s (Obj fs) /\
    represents (length hc) (hc ++ ext) (VRef (length hc)) (Obj fs).
Proof.
  intros Hwf Hd Hb Hpre.
  destruct (engine_clones fuel) as [Ho _].
  destruct (Ho fs h s h1 i None hc Hwf Hd Hb Hpre) as (ext & pushed & Hrun & Hrep & _).
  { intros y Hy. by apply elem_of_nil in Hy. }
  exists ext. unfold entry. rewrite Hrun. cbn [bind]. split; [reflexivity |].
  split; [| exact Hrep].
  eapply represents_weaken; [| | exact (build_represents _ _ _ _ Hb)]; [lia |].
  intros l c _ Hl. apply lookup_app_l_Some. by eapply prefix_lookup_Some.
Qed.

Lemma deep_merge_clones_literal_witness :
  exists ext,
    entry 3 true false (VRef 5) [VRef 4]
      ((build literal_example []).2 ++ [empty_object])
      = Ok (VRef 5, (build literal_example []).2 ++ ext) /\
    represents 0 ((build literal_example []).2 ++ ext) (VRef 4) literal_example /\
    represents 5 ((build literal_example []).2 ++ ext) (VRef 5) literal_example.
Proof.
  apply (deep_merge_clones_literal 3 false _ [] (build literal_example []).2
           (build literal_example []).2 (VRef 4)).
  - wf_literal.
  - vm_compute. lia.
  - reflexivity.
  - reflexivity.
Defined.

(** X19: [copyArray] on a well-formed array literal (elements [0] to
    [n - 1], the objects in it with ordinary keys) is a deep copy: it
    returns a new array that is the same literal, element for element,
    made entirely of objects that did not exist before the call, and
    changes nothing that existed. *)
Theorem copyArray_clones_literal (fuel : nat) (inh : bool)
    (fs : list (string * tree)) (h h1 hc : list cell) (a : value) :
  wf (Arr fs) -> depth (Arr fs) <= fuel ->
  build (Arr fs) h = (a, h1) -> h1 `prefix_of` hc ->
  exists ext r,
    copyArray fuel a inh hc = Ok (r, hc ++ ext) /\
    represents (length h) (hc ++ ext) a (Arr fs) /\
    represents (length hc) (hc ++ ext) r (Arr fs).
Proof.
  intros Hwf Hd Hb Hpre.
  destruct (engine_clones fuel) as [_ Ha].
  destruct (Ha fs h a h1 inh hc Hwf Hd Hb Hpre) as (ext & r & Hrun & Hrep).
  exists ext, r. split; [exact Hrun |]. split; [| exact Hrep].
  eapply represents_weaken; [| | exact (build_represents _ _ _ _ Hb)]; [lia |].
  intros l c _ Hl. apply lookup_app_l_Some. by eapply prefix_lookup_Some.
Qed.

Lemma copyArray_clones_literal_witness :
  exists ext r,
    copyArray 3 (VRef 3) true (build array_literal_example []).2
      = Ok (r, (build array_literal_example []).2 ++ ext) /\
    represents 0 ((build array_literal_example []).2 ++ ext) (VRef 3)
      array_literal_example /\
    represents 4 ((build array_literal_example []).2 ++ ext) r
      array_literal_example.
Proof.
  apply (copyArray_clones_literal 3 true _ [] (build array_literal_example []).2
           (build array_literal_example []).2 (VRef 3)).
  - wf_literal.
  - vm_compute. lia.
  - reflexivity.
  - reflexivity.
Defined.

(** ** The inherited flag *)

Lemma no_prototypes_alloc h c :
  no_prototypes h -> cproto c = None -> no_prototypes (h ++ [c]).
Proof.
  intros Hh Hc l c' Hl. apply lookup_app_Some in Hl as [Hl | [_ Hl]].
  - by eapply Hh.
  - apply list_lookup_singleton_Some in Hl as [_ <-]. exact Hc.
Qed.

Lemma set_prop_no_prototypes h t k v h' :
  no_prototypes h -> set_prop h t k v = Ok h' -> no_prototypes h'.
Proof.
  intros Hh (l0 & c0 & -> & Hl0 & ->)%set_prop_inv l c Hl.
  destruct (decide (l = l0)) as [-> | Hne].
  - rewrite list_lookup_insert_eq in Hl by (by eapply lookup_lt_Some).
    injection Hl as <-. cbn [cproto]. by eapply Hh.
  - rewrite list_lookup_insert_ne in Hl by congruence. by eapply Hh.
Qed.

Lemma map_items_invariant (P : list cell -> Prop)
    (f : value -> list cell -> result (value * list cell)) items :
  (forall v h r h', P h -> f v h = Ok (r, h') -> P h') ->
  forall h items' h', P h -> map_items f items h = Ok (items', h') -> P h'.
Proof.
  intros Hf. induction items as [| [k item] items IH]; intros h items' h' HP H;
    cbn [map_items] in H.
  - by injection H as <- <-.
  - inv_bind H. destruct a as [item' h1]. inv_bind H. destruct a as [r' h2].
    injection H as <- <-. eapply IH; [| exact Hm0]. by eapply Hf.
Qed.

Lemma map_items_agree (P : list cell -> Prop)
    (f g : value -> list cell -> result (value * list cell)) items :
  (forall v h, P h -> f v h = g v h) ->
  (forall v h r h', P h -> f v h = Ok (r, h') -> P h') ->
  forall h, P h -> map_items f items h = map_items g items h.
Proof.
  intros Hfg Hf. induction items as [| [k item] items IH]; intros h HP;
    cbn [map_items]; [reflexivity |].
  rewrite <- (Hfg _ _ HP). destruct (f item h) as [[item' h1] | e] eqn:E;
    cbn [bind]; [| reflexivity].
  rewrite IH; [reflexivity | by eapply Hf].
Qed.

Lemma foldM_agree {A S} (I : S -> Prop) (f g : A -> S -> result S) (l : list A) :
  (forall a s, a ∈ l -> I s -> f a s = g a s) ->
  (forall a s s', a ∈ l -> I s -> f a s = Ok s' -> I s') ->
  forall s, I s -> foldM f l s = foldM g l s.
Proof.
  induction l as [| a l IH]; intros Hfg Hf s HI; cbn [foldM]; [reflexivity |].
  rewrite <- (Hfg a s) by (apply list_elem_of_here || exact HI).
  destruct (f a s) as [s' | e] eqn:E; cbn [bind]; [| reflexivity].
  apply IH.
  - intros b t Hb. apply Hfg. by apply list_elem_of_further.
  - intros b t t' Hb. apply Hf. by apply list_elem_of_further.
  - eapply Hf; [apply list_elem_of_here | exact HI | exact E].
Qed.

Lemma index_of_key_found i n : i < n -> is_Some (index_of_key (index_key i) n).
Proof.
  induction n as [| n IH]; [lia |]. intros Hi. cbn [index_of_key].
  destruct (decide (index_key i = index_key n)); [eauto |].
  apply IH. destruct (decide (i = n)) as [-> | ?]; [contradiction | lia].
Qed.

Lemma enumerated_keys_own h s k :
  no_prototypes h -> k ∈ forin_keys h s -> hasOwnProperty h s k = true.
Proof.
  intros Hh. destruct s as [| | b | z | str | l]; cbn [forin_keys hasOwnProperty];
    try (intros Hk; by apply elem_of_nil in Hk).
  - intros Hk. apply list_elem_of_fmap in Hk as (i & -> & Hi).
    apply elem_of_seq in Hi. apply bool_decide_eq_true. apply index_of_key_found. lia.
  - unfold chain. destruct (length h) as [| m] eqn:Hlen.
    { cbn [proto_chain map concat first_occurrences]. intros Hk. by apply elem_of_nil in Hk. }
    cbn [proto_chain]. destruct (h !! l) as [c |] eqn:Hl.
    2:{ cbn [map concat first_occurrences]. intros Hk. by apply elem_of_nil in Hk. }
    rewrite (Hh _ _ Hl). cbn [map concat]. rewrite app_nil_r.
    intros [Hk _]%first_occurrences_elem.
    apply bool_decide_eq_true. by apply assoc_is_Some.
Qed.

Lemma hasOwnProperty_kept h h' s k :
  heap_kept h h' -> hasOwnProperty h s k = true -> hasOwnProperty h' s k = true.
Proof.
  intros Hk. destruct s as [| | b | z | str | l]; cbn [hasOwnProperty]; auto.
  destruct (h !! l) as [c |] eqn:Hl; [| discriminate].
  destruct (Hk _ _ Hl) as (c' & -> & _ & _ & Hkeys).
  intros H%bool_decide_eq_true. apply bool_decide_eq_true.
  apply assoc_is_Some, Hkeys. by apply assoc_is_Some.
Qed.

Section NoPrototypes.

Variable rm : MixinArgs -> list cell -> result (value * list cell * list value).
Variable rc : value -> bool -> list cell -> result (value * list cell).
Hypothesis Hrm : mixin_adds_no_prototype rm.
Hypothesis Hrc : copyArray_adds_no_prototype rc.

Lemma copyArray_item_no_prototypes inh item h r h' :
  no_prototypes h -> copyArray_item rm rc inh item h = Ok (r, h') ->
  no_prototypes h'.
Proof.
  intros Hh. unfold copyArray_item.
  destruct (isArray h item); [by apply Hrc |].
  destruct (negb (shouldDeepCopyObject h item)); [by intros [= <- <-] |].
  cbn [alloc]. intros H. inv_bind H. destruct a as [[r0 h2] cp2].
  injection H as <- <-.
  eapply Hrm; [| exact Hm]. by apply no_prototypes_alloc.
Qed.

Lemma copyArray_body_no_prototypes : copyArray_adds_no_prototype (copyArray_body rm rc).
Proof.
  intros a i h r h' Hh. unfold copyArray_body. intros H. inv_bind H.
  destruct a0 as [items' h1]. cbn [alloc] in H. injection H as <- <-.
  apply no_prototypes_alloc; [| reflexivity].
  eapply (map_items_invariant no_prototypes); [| exact Hh | exact Hm].
  intros. by eapply copyArray_item_no_prototypes.
Qed.

Lemma mixin_key_no_prototypes kw clone source key h cp h' cp' :
  no_prototypes h ->
  mixin_key rm rc kw clone source key (h, cp) = Ok (h', cp') ->
  no_prototypes h'.
Proof.
  intros Hh. unfold mixin_key.
  destruct (inherited kw || hasOwnProperty h source key);
    [| by intros [= <- <-]].
  intros H. inv_bind H. rename a into v.
  destruct (negb (indexOf clone v =? -1)%Z); [by injection H as <- <- |].
  inv_bind H. destruct a as [[v' h1] cp1]. inv_bind H. injection H as <- <-.
  eapply set_prop_no_prototypes; [| exact Hm1].
  destruct (deep kw); [| by injection Hm0 as <- <- <-].
  destruct (isArray h v).
  - inv_bind Hm0. destruct a0 as [x h2]. injection Hm0 as <- <- <-.
    by eapply Hrc.
  - destruct (shouldDeepCopyObject h v); [| by injection Hm0 as <- <- <-].
    inv_bind Hm0. unfold nested_target in Hm0.
    destruct (truthy a0); [by eapply Hrm |].
    cbn [alloc] in Hm0. eapply Hrm; [| exact Hm0].
    by apply no_prototypes_alloc.
Qed.

Lemma mixin_source_no_prototypes kw clone s st st' :
  no_prototypes (fst st) -> mixin_source rm rc kw clone s st = Ok st' ->
  no_prototypes (fst st').
Proof.
  intros Hst. unfold mixin_source.
  assert (Hkeys : forall ks, foldM (mixin_key rm rc kw clone s) ks st = Ok st' ->
                             no_prototypes (fst st')).
  { intros ks. apply (foldM_invariant _ (fun st => no_prototypes (fst st)));
      [| exact Hst].
    intros key [h2 cp2] [h3 cp3] _ Hk Hkey. cbn [fst] in *.
    by eapply mixin_key_no_prototypes. }
  destruct s; try apply Hkeys; by intros [= <-].
Qed.

Lemma mixin_body_no_prototypes : mixin_adds_no_prototype (mixin_body rm rc).
Proof.
  intros kw h r h' cp' Hh. unfold mixin_body. intros H. inv_bind H.
  destruct a as [h1 cp1]. injection H as <- <- <-.
  change (no_prototypes (fst (h1, cp1))).
  eapply (foldM_invariant _ (fun st => no_prototypes (fst st))); [| | exact Hm];
    [| exact Hh].
  intros s st st' _ Hst. by apply mixin_source_no_prototypes.
Qed.

Hypothesis Hkm : mixin_keeps rm.
Hypothesis Hkc : copyArray_keeps rc.
Hypothesis Him : mixin_ignores_inherited rm.
Hypothesis Hic : copyArray_ignores_inherited rc.

Lemma copyArray_body_ignores_inherited :
  copyArray_ignores_inherited (copyArray_body rm rc).
Proof.
  intros a h Hh. unfold copyArray_body.
  rewrite (map_items_agree no_prototypes (copyArray_item rm rc true)
             (copyArray_item rm rc false)); [reflexivity | | | exact Hh].
  - intros v h0 Hh0. unfold copyArray_item.
    destruct (isArray h0 v); [by apply Hic |].
    destruct (negb (shouldDeepCopyObject h0 v)); [reflexivity |].
    cbn [alloc]. rewrite Him; [reflexivity |]. by apply no_prototypes_alloc.
  - intros. by eapply copyArray_item_no_prototypes.
Qed.

Lemma mixin_key_ignores_inherited d srcs t cpo clone source key h cp :
  no_prototypes h -> hasOwnProperty h source key = true ->
  mixin_key rm rc {| deep := d; inherited := true; sources := srcs;
                     target := t; copied := cpo |} clone source key (h, cp) =
  mixin_key rm rc {| deep := d; inherited := false; sources := srcs;
                     target := t; copied := cpo |} clone source key (h, cp).
Proof.
  intros Hh Hown. unfold mixin_key. cbn [inherited deep target].
  rewrite Hown. cbn [orb].
  destruct (get_prop h source key) as [v | e]; cbn [bind]; [| reflexivity].
  destruct (negb (indexOf clone v =? -1)%Z); [reflexivity |].
  destruct d; [| reflexivity].
  destruct (isArray h v).
  - by rewrite Hic.
  - destruct (shouldDeepCopyObject h v); [| reflexivity].
    destruct (get_prop h t key) as [tv | e]; cbn [bind]; [| reflexivity].
    destruct (nested_target h tv) as [targetValue h1] eqn:Hnt.
    rewrite Him; [reflexivity |].
    unfold nested_target in Hnt. destruct (truthy tv).
    + by injection Hnt as <- <-.
    + cbn [alloc] in Hnt. injection Hnt as <- <-. by apply no_prototypes_alloc.
Qed.

Lemma mixin_body_ignores_inherited : mixin_ignores_inherited (mixin_body rm rc).
Proof.
  intros d srcs t cpo h Hh. unfold mixin_body. cbn [copied sources target].
  rewrite (foldM_agree (fun st => no_prototypes (fst st))
             (mixin_source rm rc {| deep := d; inherited := true; sources := srcs;
                                    target := t; copied := cpo |} (default [] cpo))
             (mixin_source rm rc {| deep := d; inherited := false; sources := srcs;
                                    target := t; copied := cpo |} (default [] cpo)));
    [reflexivity | | | exact Hh].
  - intros s [h0 cp0] _ Hh0. cbn [fst] in Hh0. unfold mixin_source. cbn [fst].
    assert (Hkeys : foldM (mixin_key rm rc {| deep := d; inherited := true; sources := srcs;
                                    target := t; copied := cpo |} (default [] cpo) s)
                      (forin_keys h0 s) (h0, cp0) =
                    foldM (mixin_key rm rc {| deep := d; inherited := false; sources := srcs;
                                    target := t; copied := cpo |} (default [] cpo) s)
                      (forin_keys h0 s) (h0, cp0)).
    { apply (foldM_agree (fun st => no_prototypes (fst st) /\ heap_kept h0 (fst st))).
      - intros key [h2 cp2] Hkey [Hnp Hkept]. cbn [fst] in *.
        apply mixin_key_ignores_inherited; [exact Hnp |].
        eapply hasOwnProperty_kept; [exact Hkept |].
        by apply enumerated_keys_own.
      - intros key [h2 cp2] [h3 cp3] _ [Hnp Hkept] Hstep. cbn [fst] in *. split.
        + by eapply mixin_key_no_prototypes.
        + eapply heap_kept_trans; [exact Hkept |].
          by eapply (mixin_key_kept rm rc Hkm Hkc).
      - split; [exact Hh0 | apply heap_kept_refl]. }
    destruct s; try exact Hkeys; reflexivity.
  - intros s st st' _ Hst. by apply mixin_source_no_prototypes.
Qed.

End NoPrototypes.

Lemma engine_no_prototypes (n : nat) :
  mixin_adds_no_prototype (_mixin n) /\ copyArray_adds_no_prototype (copyArray n).
Proof.
  induction n as [| n [IHm IHc]].
  { split; intros ? ? ? ? ?; intros; discriminate. }
  split.
  - intros kw h r h' cp'. cbn [_mixin]. by apply mixin_body_no_prototypes.
  - intros a i h r h'. cbn [copyArray]. by apply copyArray_body_no_prototypes.
Qed.

Lemma engine_ignores_inherited (n : nat) :
  mixin_ignores_inherited (_mixin n) /\ copyArray_ignores_inherited (copyArray n).
Proof.
  induction n as [| n [IHm IHc]].
  { split; intros ? ? ?; intros; reflexivity. }
  destruct (engine_no_prototypes n) as [Hnm Hnc].
  destruct (engine_keeps n) as [Hkm Hkc].
  split.
  - intros d srcs t cpo h. cbn [_mixin]. by apply mixin_body_ignores_inherited.
  - intros a h. cbn [copyArray]. by apply copyArray_body_ignores_inherited.
Qed.

(** X20: the [inherited] flag matters for inherited keys only.  In a
    heap where no object has a prototype with enumerable properties,
    and no object has a key that leads to a prototype object
    ([prototype] or the name of a property of [Object.prototype], so
    that the merge cannot add an enumerable key to a prototype on its
    way), [deepMixin] is [deepAssign]: same outcome, same heap,
    whatever the target, the sources and the fuel (errors and
    non-termination included); and [mixin] is the shallow merge of own
    keys. *)
Theorem deepMixin_is_deepAssign_without_prototypes (fuel : nat) (t : value)
    (srcs : list value) (h : list cell) :
  no_prototypes h ->
  heap_avoids prototype_path_names h ->
  deepMixin fuel t srcs h = deepAssign fuel t srcs h /\
  mixin fuel t srcs h = entry fuel false false t srcs h.
Proof.
  intros Hh _. destruct (engine_ignores_inherited fuel) as [Hm _].
  unfold deepMixin, deepAssign, mixin, entry. by rewrite !Hm.
Qed.

Lemma deepMixin_is_deepAssign_without_prototypes_witness :
  deepMixin 3 (VRef 0) [VRef 1; VRef 3] h_unrelated
    = deepAssign 3 (VRef 0) [VRef 1; VRef 3] h_unrelated /\
  mixin 3 (VRef 0) [VRef 1; VRef 3] h_unrelated
    = entry 3 false false (VRef 0) [VRef 1; VRef 3] h_unrelated.
Proof.
  apply (deepMixin_is_deepAssign_without_prototypes 3 (VRef 0) [VRef 1; VRef 3]
           h_unrelated).
  - intros l c Hl.
    repeat (destruct l as [| l]; [by injection Hl as <- |]).
    discriminate.
  - avoids_names.
Defined.

(** ** What a call leaves alone

    An object that no object refers to is written by the call whose
    target it is, and by no other call of the tree. *)

Lemma proto_chain_in_heap n h : forall l c,
  c ∈ proto_chain n h l -> exists l', h !! l' = Some c.
Proof.
  induction n as [| n IH]; intros l c Hin; simpl in Hin.
  { by apply elem_of_nil in Hin. }
  destruct (h !! l) as [c0 |] eqn:Hl; [| by apply elem_of_nil in Hin].
  apply elem_of_cons in Hin as [-> | Hin]; [by exists l |].
  destruct (cproto c0) as [p |]; [by eapply IH | by apply elem_of_nil in Hin].
Qed.

Lemma get_prop_outside U h s k v :
  unreferenced U h -> get_prop h s k = Ok v -> value_outside U v.
Proof.
  intros Hu. destruct s as [| | b | z | str | l]; cbn [get_prop];
    try discriminate; try (intros [= <-] u _; discriminate).
  - intros [= <-] u _.
    destruct (index_of_key k (String.length str)) as [i |]; cbn; [| discriminate].
    unfold char_at. by destruct (get i str).
  - intros [= <-] u Hin.
    destruct (chain_get k (chain h l)) as [x |] eqn:Hget; cbn; [| discriminate].
    apply chain_get_Some in Hget as (c & Hc & Hx).
    apply proto_chain_in_heap in Hc as [l' Hl'].
    intros ->. by apply (Hu l' c k u Hl' Hx).
Qed.

Lemma array_elements_outside U h a k x :
  unreferenced U h -> (k, x) ∈ array_elements h a -> value_outside U x.
Proof.
  intros Hu. destruct a as [| | | | | l]; cbn [array_elements];
    try (intros Hin; by apply elem_of_nil in Hin).
  destruct (h !! l) as [c |] eqn:Hl; [| intros Hin; by apply elem_of_nil in Hin].
  intros [_ Hin]%list_elem_of_filter u Hu' ->. by apply (Hu l c k u Hl Hin).
Qed.

Lemma assoc_set_elem k v ps k' x :
  (k', x) ∈ assoc_set k v ps -> x = v \/ (k', x) ∈ ps.
Proof.
  induction ps as [| [k0 v0] ps IH]; simpl.
  - intros Hin. apply list_elem_of_singleton in Hin as [= _ ->]. by left.
  - destruct (decide (k = k0)) as [-> | _].
    + intros [[= _ ->] | Hin]%elem_of_cons; [by left |].
      right. by apply list_elem_of_further.
    + intros [[= -> ->] | Hin]%elem_of_cons; [right; apply list_elem_of_here |].
      destruct (IH Hin) as [-> | Hin']; [by left |].
      right. by apply list_elem_of_further.
Qed.

Lemma set_prop_frames U h t k v h' :
  set_prop h t k v = Ok h' -> unreferenced U h -> value_outside U v ->
  unreferenced U h' /\ forall u, t <> VRef u -> h' !! u = h !! u.
Proof.
  intros (l0 & c0 & -> & Hl0 & ->)%set_prop_inv Hu Hv. split.
  - intros l c k' u Hl Hin.
    destruct (decide (l = l0)) as [-> | Hne].
    + rewrite list_lookup_insert_eq in Hl by (by eapply lookup_lt_Some).
      injection Hl as <-. cbn [cprops] in Hin.
      apply assoc_set_elem in Hin as [<- | Hin].
      * intros Hin'. by apply (Hv u Hin').
      * by apply (Hu l0 c0 k' u).
    + rewrite list_lookup_insert_ne in Hl by congruence. by apply (Hu l c k' u).
  - intros u Hne. rewrite list_lookup_insert_ne; [reflexivity | congruence].
Qed.

Lemma unreferenced_alloc U h c :
  unreferenced U h -> (forall k x, (k, x) ∈ cprops c -> value_outside U x) ->
  unreferenced U (h ++ [c]).
Proof.
  intros Hu Hc l c' k u Hl Hin.
  apply lookup_app_Some in Hl as [Hl | [_ Hl]].
  - by apply (Hu l c' k u).
  - apply list_lookup_singleton_Some in Hl as [_ <-].
    intros Hu'. by apply (Hc k (VRef u) Hin u Hu').
Qed.

Lemma within_grows U h h' : within U h -> length h <= length h' -> within U h'.
Proof. intros Hw Hle u Hu. specialize (Hw u Hu). lia. Qed.

Lemma fresh_outside U h : within U h -> value_outside U (VRef (length h)).
Proof. intros Hw u Hu [= Heq]. specialize (Hw u Hu). lia. Qed.

Section Frames.

Variable U : list nat.
Variable rm : MixinArgs -> list cell -> result (value * list cell * list value).
Variable rc : value -> bool -> list cell -> result (value * list cell).
Hypothesis Hrm : mixin_frames U rm.
Hypothesis Hrc : copyArray_frames U rc.

Lemma copyArray_item_frames inh item h r h' :
  unreferenced U h -> within U h -> value_outside U item ->
  copyArray_item rm rc inh item h = Ok (r, h') ->
  length h <= length h' /\ unreferenced U h' /\ value_outside U r /\
  forall u, u ∈ U -> h' !! u = h !! u.
Proof.
  intros Hu Hw Hitem. unfold copyArray_item.
  destruct (isArray h item); [by apply Hrc |].
  destruct (negb (shouldDeepCopyObject h item)).
  { intros [= <- <-]. by repeat split. }
  cbn [alloc]. intros H. inv_bind H. destruct a as [[r0 h2] cp2].
  injection H as <- <-.
  apply Hrm in Hm as (Hr & Hle & Hu2 & Hsame).
  - cbn [target] in *. rewrite length_app in Hle. simpl in Hle.
    split; [lia |]. split; [exact Hu2 |]. split.
    + rewrite Hr. by apply fresh_outside.
    + intros u Hin. rewrite Hsame; [| exact Hin |].
      * apply lookup_app_l. by apply Hw.
      * intros [= Heq]. specialize (Hw u Hin). lia.
  - apply unreferenced_alloc; [exact Hu |]. intros k x Hin. by apply elem_of_nil in Hin.
  - eapply within_grows; [exact Hw |]. rewrite length_app. simpl. lia.
Qed.

Lemma map_items_frames inh items : forall h items' h',
  unreferenced U h -> within U h ->
  (forall k x, (k, x) ∈ items -> value_outside U x) ->
  map_items (copyArray_item rm rc inh) items h = Ok (items', h') ->
  length h <= length h' /\ unreferenced U h' /\
  (forall k x, (k, x) ∈ items' -> value_outside U x) /\
  forall u, u ∈ U -> h' !! u = h !! u.
Proof.
  induction items as [| [k item] items IH]; intros h items' h' Hu Hw Hitems H;
    cbn [map_items] in H.
  - injection H as <- <-. repeat split; [lia | exact Hu | exact Hitems].
  - inv_bind H. destruct a as [item' h1]. inv_bind H. destruct a as [r' h2].
    injection H as <- <-.
    apply copyArray_item_frames in Hm as (Hle1 & Hu1 & Hr1 & Hs1);
      [| exact Hu | exact Hw | apply (Hitems k), list_elem_of_here].
    apply IH in Hm0 as (Hle2 & Hu2 & Hr2 & Hs2);
      [| exact Hu1 | by eapply within_grows
       | intros k' x Hin; apply (Hitems k'); by apply list_elem_of_further].
    split; [lia |]. split; [exact Hu2 |]. split.
    + intros k' x [[= -> ->] | Hin]%elem_of_cons; [exact Hr1 | by eapply Hr2].
    + intros u Hin. by rewrite Hs2, Hs1.
Qed.

Lemma copyArray_body_frames : copyArray_frames U (copyArray_body rm rc).
Proof.
  intros a i h r h' Hu Hw. unfold copyArray_body. intros H. inv_bind H.
  destruct a0 as [items' h1]. cbn [alloc] in H. injection H as <- <-.
  apply map_items_frames in Hm as (Hle & Hu1 & Hitems & Hsame);
    [| exact Hu | exact Hw | intros k x Hin; by eapply array_elements_outside].
  split; [rewrite length_app; simpl; lia |]. split.
  { by apply unreferenced_alloc. }
  split.
  { apply fresh_outside. by eapply within_grows. }
  intros u Hin. rewrite <- Hsame by exact Hin.
  apply lookup_app_l. specialize (Hw u Hin). lia.
Qed.

Lemma nested_target_frames h tv t h1 :
  unreferenced U h -> within U h -> value_outside U tv ->
  nested_target h tv = (t, h1) ->
  length h <= length h1 /\ unreferenced U h1 /\ value_outside U t /\
  forall u, u ∈ U -> h1 !! u = h !! u.
Proof.
  intros Hu Hw Htv. unfold nested_target. destruct (truthy tv).
  - intros [= <- <-]. by repeat split.
  - cbn [alloc]. intros [= <- <-]. rewrite length_app. simpl.
    split; [lia |]. split.
    { apply unreferenced_alloc; [exact Hu |]. intros k x Hin. by apply elem_of_nil in Hin. }
    split; [by apply fresh_outside |].
    intros u Hin. apply lookup_app_l. by apply Hw.
Qed.

(** A key step leaves the heap as it is, or runs the recursive calls,
    which leave the cells of [U] alone, and then writes the key on the
    target. *)
Lemma mixin_key_writes kw clone source key h cp h' cp' :
  unreferenced U h -> within U h ->
  mixin_key rm rc kw clone source key (h, cp) = Ok (h', cp') ->
  h' = h \/
  exists v' h1,
    length h <= length h1 /\ unreferenced U h1 /\ value_outside U v' /\
    (forall u, u ∈ U -> h1 !! u = h !! u) /\
    set_prop h1 (target kw) key v' = Ok h'.
Proof.
  intros Hu Hw. unfold mixin_key.
  destruct (inherited kw || hasOwnProperty h source key);
    [| intros [= <- <-]; by left].
  intros H. inv_bind H. rename a into v.
  pose proof (get_prop_outside _ _ _ _ _ Hu Hm) as Hv.
  destruct (negb (indexOf clone v =? -1)%Z);
    [injection H as <- <-; by left |].
  inv_bind H. destruct a as [[v' h1] cp1]. inv_bind H. injection H as <- <-.
  rename a into h2. right. exists v', h1.
  assert (Hstep : length h <= length h1 /\ unreferenced U h1 /\ value_outside U v' /\
                  forall u, u ∈ U -> h1 !! u = h !! u).
  { destruct (deep kw); [| injection Hm0 as <- <- <-; by repeat split].
    destruct (isArray h v).
    - inv_bind Hm0. destruct a as [x hx]. injection Hm0 as <- <- <-.
      by apply Hrc in Hm2.
    - destruct (shouldDeepCopyObject h v);
        [| injection Hm0 as <- <- <-; by repeat split].
      inv_bind Hm0. rename a into tv.
      pose proof (get_prop_outside _ _ _ _ _ Hu Hm2) as Htv.
      destruct (nested_target h tv) as [targetValue hn] eqn:Hnt.
      apply nested_target_frames in Hnt as (Hle0 & Hu0 & Ht0 & Hs0);
        [| exact Hu | exact Hw | exact Htv].
      apply Hrm in Hm0 as (Hr & Hle & Hu2 & Hsame);
        [| exact Hu0 | by eapply within_grows].
      cbn [target] in *. subst v'.
      split; [lia |]. split; [exact Hu2 |]. split; [exact Ht0 |].
      intros u Hin. rewrite Hsame; [by apply Hs0 | exact Hin |].
      intros Heq. by apply (Ht0 u Hin). }
  destruct Hstep as (Hle & Hu1 & Hv' & Hsame). by repeat split.
Qed.

Lemma mixin_key_frames kw clone source key h cp h' cp' :
  unreferenced U h -> within U h ->
  mixin_key rm rc kw clone source key (h, cp) = Ok (h', cp') ->
  length h <= length h' /\ unreferenced U h' /\
  forall u, u ∈ U -> target kw <> VRef u -> h' !! u = h !! u.
Proof.
  intros Hu Hw H.
  destruct (mixin_key_writes _ _ _ _ _ _ _ _ Hu Hw H)
    as [-> | (v' & h1 & Hle & Hu1 & Hv' & Hsame & Hset)]; [by repeat split |].
  pose proof (set_prop_length _ _ _ _ _ Hset) as Hlen.
  apply set_prop_frames with (U := U) in Hset as [Hu2 Hs2];
    [| exact Hu1 | exact Hv'].
  split; [lia |]. split; [exact Hu2 |].
  intros u Hin Hne. rewrite Hs2 by congruence. by apply Hsame.
Qed.

(** On the target itself, a key step touches the key it copies. *)
Lemma mixin_key_other_key kw clone source key h cp h' cp' k :
  unreferenced U h -> within U h ->
  (exists u, u ∈ U /\ target kw = VRef u) -> key <> k ->
  mixin_key rm rc kw clone source key (h, cp) = Ok (h', cp') ->
  own_prop h' (target kw) k = own_prop h (target kw) k.
Proof.
  intros Hu Hw (u & Hin & Ht) Hne H.
  destruct (mixin_key_writes _ _ _ _ _ _ _ _ Hu Hw H)
    as [-> | (v' & h1 & _ & _ & _ & Hsame & Hset)]; [reflexivity |].
  rewrite (set_prop_own_ne _ _ _ _ _ (target kw) k Hset) by (right; congruence).
  rewrite Ht. unfold own_prop. by rewrite (Hsame u Hin).
Qed.

Lemma mixin_keys_other_key kw clone source k ks : forall h cp h' cp',
  unreferenced U h -> within U h ->
  (exists u, u ∈ U /\ target kw = VRef u) -> k ∉ ks ->
  foldM (mixin_key rm rc kw clone source) ks (h, cp) = Ok (h', cp') ->
  own_prop h' (target kw) k = own_prop h (target kw) k.
Proof.
  induction ks as [| key ks IH]; intros h cp h' cp' Hu Hw Ht Hk H; cbn [foldM] in H.
  - by injection H as <- <-.
  - apply not_elem_of_cons in Hk as [Hne Hk].
    inv_bind H. destruct a as [h1 cp1].
    pose proof (mixin_key_other_key _ _ _ _ _ _ _ _ k Hu Hw Ht (not_eq_sym Hne) Hm)
      as Hstep.
    apply mixin_key_frames in Hm as (Hle1 & Hu1 & _); [| exact Hu | exact Hw].
    rewrite <- Hstep. eapply IH; [exact Hu1 | by eapply within_grows | exact Ht
                                  | exact Hk | exact H].
Qed.

Lemma mixin_keys_frames kw clone source ks : forall h cp h' cp',
  unreferenced U h -> within U h ->
  foldM (mixin_key rm rc kw clone source) ks (h, cp) = Ok (h', cp') ->
  length h <= length h' /\ unreferenced U h' /\
  forall u, u ∈ U -> target kw <> VRef u -> h' !! u = h !! u.
Proof.
  induction ks as [| key ks IH]; intros h cp h' cp' Hu Hw H; cbn [foldM] in H.
  - injection H as <- <-. by repeat split.
  - inv_bind H. destruct a as [h1 cp1].
    apply mixin_key_frames in Hm as (Hle1 & Hu1 & Hs1); [| exact Hu | exact Hw].
    apply IH in H as (Hle2 & Hu2 & Hs2); [| exact Hu1 | by eapply within_grows].
    split; [lia |]. split; [exact Hu2 |].
    intros u Hin Hne. rewrite Hs2, Hs1; auto.
Qed.

Lemma mixin_source_frames kw clone source h cp h' cp' :
  unreferenced U h -> within U h ->
  mixin_source rm rc kw clone source (h, cp) = Ok (h', cp') ->
  length h <= length h' /\ unreferenced U h' /\
  forall u, u ∈ U -> target kw <> VRef u -> h' !! u = h !! u.
Proof.
  intros Hu Hw. unfold mixin_source. cbn [fst].
  destruct source; try (by apply mixin_keys_frames);
    intros [= <- <-]; by repeat split.
Qed.

Lemma mixin_sources_frames kw clone srcs : forall h cp h' cp',
  unreferenced U h -> within U h ->
  foldM (mixin_source rm rc kw clone) srcs (h, cp) = Ok (h', cp') ->
  length h <= length h' /\ unreferenced U h' /\
  forall u, u ∈ U -> target kw <> VRef u -> h' !! u = h !! u.
Proof.
  induction srcs as [| s srcs IH]; intros h cp h' cp' Hu Hw H; cbn [foldM] in H.
  - injection H as <- <-. by repeat split.
  - inv_bind H. destruct a as [h1 cp1].
    apply mixin_source_frames in Hm as (Hle1 & Hu1 & Hs1); [| exact Hu | exact Hw].
    apply IH in H as (Hle2 & Hu2 & Hs2); [| exact Hu1 | by eapply within_grows].
    split; [lia |]. split; [exact Hu2 |].
    intros u Hin Hne. rewrite Hs2, Hs1; auto.
Qed.

Lemma mixin_body_frames : mixin_frames U (mixin_body rm rc).
Proof.
  intros kw h r h' cp' Hu Hw. unfold mixin_body. intros H. inv_bind H.
  destruct a as [h1 cp1]. injection H as <- <- <-.
  split; [reflexivity |]. by eapply mixin_sources_frames.
Qed.

End Frames.

Lemma engine_frames (U : list nat) (n : nat) :
  mixin_frames U (_mixin n) /\ copyArray_frames U (copyArray n).
Proof.
  induction n as [| n [IHm IHc]].
  { split; intros ? ? ? ? ?; intros; discriminate. }
  split.
  - intros kw h r h' cp'. cbn [_mixin]. by apply mixin_body_frames.
  - intros a i h r h'. cbn [copyArray]. by apply copyArray_body_frames.
Qed.

(** ** The last source *)

Lemma mixin_keys_kept n kw clone s ks : forall h cp h' cp',
  foldM (mixin_key (_mixin n) (copyArray n) kw clone s) ks (h, cp) = Ok (h', cp') ->
  heap_kept h h'.
Proof.
  destruct (engine_keeps n) as [Hkm Hkc].
  induction ks as [| key ks IH]; intros h cp h' cp' H; cbn [foldM] in H.
  - injection H as <- <-. apply heap_kept_refl.
  - inv_bind H. destruct a as [h1 cp1].
    eapply heap_kept_trans; [by eapply (mixin_key_kept _ _ Hkm Hkc) | by eapply IH].
Qed.

Lemma mixin_sources_kept n kw clone srcs : forall h cp h' cp',
  foldM (mixin_source (_mixin n) (copyArray n) kw clone) srcs (h, cp) = Ok (h', cp') ->
  heap_kept h h'.
Proof.
  induction srcs as [| s srcs IH]; intros h cp h' cp' H; cbn [foldM] in H.
  - injection H as <- <-. apply heap_kept_refl.
  - inv_bind H. destruct a as [h1 cp1].
    eapply heap_kept_trans; [| by eapply IH].
    unfold mixin_source in Hm. cbn [fst] in Hm.
    destruct s; try (by eapply mixin_keys_kept);
      injection Hm as <- <-; apply heap_kept_refl.
Qed.

Lemma kinds_kept h h' v :
  heap_kept h h' -> value_below (length h) v ->
  isArray h' v = isArray h v /\
  shouldDeepCopyObject h' v = shouldDeepCopyObject h v.
Proof.
  intros Hk. destruct v as [| | | | | l]; try (by split).
  cbn [value_below isArray shouldDeepCopyObject]. intros Hl.
  destruct (lookup_lt_is_Some_2 h l Hl) as [c Hc].
  destruct (Hk l c Hc) as (c' & -> & Hkind & _). rewrite Hc, Hkind. by split.
Qed.

Lemma array_keys_kept h h' a key :
  heap_kept h h' ->
  key ∈ map fst (array_elements h a) -> key ∈ map fst (array_elements h' a).
Proof.
  intros Hk. destruct a as [| | | | | l]; cbn [array_elements]; try done.
  destruct (h !! l) as [c |] eqn:Hc; [| intros Hin; by apply elem_of_nil in Hin].
  destruct (Hk l c Hc) as (c' & -> & _ & _ & Hkeys).
  intros ([k x] & -> & [Hidx Hin]%list_elem_of_filter)%list_elem_of_fmap.
  cbn [fst] in *.
  assert (Hown : k ∈ own_keys c').
  { apply Hkeys. apply list_elem_of_fmap. by exists (k, x). }
  apply list_elem_of_fmap in Hown as ([k' x'] & -> & Hin').
  apply list_elem_of_fmap. exists (k', x'). split; [reflexivity |].
  by apply list_elem_of_filter.
Qed.

Lemma set_prop_lookup_ne h lt k v h' l :
  set_prop h (VRef lt) k v = Ok h' -> l <> lt -> h' !! l = h !! l.
Proof.
  intros (l0 & c0 & [= <-] & _ & ->)%set_prop_inv Hne.
  by rewrite list_lookup_insert_ne by congruence.
Qed.

(** The step of the loop on a key the source declares, at the top of a
    call tree ([copiedClone] is empty). *)
Lemma key_of_last_source n kw lt lb k v h cp h' cp' :
  target kw = VRef lt -> is_Some (h !! lt) ->
  own_prop h (VRef lb) k = Some v ->
  mixin_key (_mixin n) (copyArray n) kw [] (VRef lb) k (h, cp) = Ok (h', cp') ->
  (deep kw = false \/ (isArray h v = false /\ shouldDeepCopyObject h v = false) ->
     own_prop h' (VRef lt) k = Some v) /\
  (deep kw = true -> isArray h v = true ->
     exists l, own_prop h' (VRef lt) k = Some (VRef l) /\ h !! l = None /\
       isArray h' (VRef l) = true /\
       map fst (array_elements h' (VRef l)) = map fst (array_elements h v)).
Proof.
  intros Ht Hlt Hown. unfold mixin_key.
  rewrite (own_prop_has_own _ _ _ _ Hown), orb_true_r.
  rewrite (own_prop_get _ _ _ _ Hown). cbn [bind].
  rewrite guard_test, bool_decide_eq_false_2 by apply not_elem_of_nil.
  rewrite Ht. intros H. inv_bind H. destruct a as [[v' h1] cp1].
  inv_bind H. injection H as <- <-. rename a into h2. split.
  - intros Hcase.
    assert (Hv : v' = v).
    { destruct Hcase as [Hd | [Harr Hobj]].
      - rewrite Hd in Hm. by injection Hm as <- _ _.
      - rewrite Harr, Hobj in Hm. destruct (deep kw); by injection Hm as <- _ _. }
    subst v'. by eapply set_prop_own_eq.
  - intros Hd Harr. rewrite Hd, Harr in Hm. inv_bind Hm. destruct a as [x hx].
    injection Hm as <- <- <-.
    apply copyArray_new_same_length in Hm1 as (l & -> & Hnew & Harr' & Hkeys & _).
    exists l. split; [by eapply set_prop_own_eq |]. split; [exact Hnew |].
    split; [by rewrite (set_prop_isArray _ _ _ _ _ _ Hm0) |].
    rewrite <- Hkeys. unfold array_elements.
    rewrite (set_prop_lookup_ne _ _ _ _ _ l Hm0); [reflexivity |].
    intros ->. rewrite Hnew in Hlt. by destruct Hlt.
Qed.

(** ** Last source wins *)


(** Why the target must be an object nothing refers to: a target that
    refers to itself under [m] is the nested target of the merge of
    [b.m], which overwrites the [k] the pass over [b] had just
    written. *)
Lemma alias_defeats_last_source :
  deepAssign 2 (VRef 0) [VRef 1] h_alias = Ok (VRef 0, h_alias_deep) /\
  own_prop h_alias (VRef 1) "k" = Some (VNum 1) /\
  own_prop h_alias_deep (VRef 0) "k" = Some (VNum 5).
Proof. repeat split. Qed.

(** No cell of a closed heap refers to a location of a closed list. *)
Ltac unreferenced_heap :=
  let l := fresh "l" in
  let c := fresh "c" in
  let k := fresh "k" in
  let u := fresh "u" in
  let Hl := fresh "Hl" in
  let Hin := fresh "Hin" in
  let Hu := fresh "Hu" in
  intros l c k u Hl Hin Hu;
  repeat (destruct l as [| l];
          [ vm_compute in Hl; injection Hl as <-; cbn [cprops] in Hin;
            repeat (apply elem_of_cons in Hin as [Hin | Hin];
                    [ first [ discriminate Hin
                            | injection Hin as _ ->; not_among Hu ] |]);
            by apply elem_of_nil in Hin |]);
  vm_compute in Hl; discriminate Hl.

